(** * flair/datasets/biomedical.py: the offset-based entity core

    A shallow embedding of the corpus-independent part of
    [flair/datasets/biomedical.py]: the [Entity] value type, the
    [InternalBioNerDataset] pair of dictionaries, [merge_datasets],
    [filter_and_map_entities], [filter_nested_entities] and the token
    loop of [CoNLLWriter.write_to_conll].

    Conventions.
    - Python [int] is [Z]; [str] is [string] (code points below 256).
    - A raised exception is [None] in an [option] result.
    - A [dict] keyed by [str] is a [gmap string _]; no property below
      depends on the order in which a dictionary is iterated, and where the
      source iterates one to produce ordered output the order is an explicit
      argument. A [defaultdict] is such a map together with the value its
      factory returns ([subscript]). *)

From Stdlib Require Import ZArith Lia Ascii String List.
From stdpp Require Import base option list sorting strings gmap fin_maps.

Local Open Scope Z_scope.

(** ** Python sequence primitives *)

(** [seq[i]]: negative indices count from the end and an index outside
    [-len, len) raises [IndexError]. *)
Definition getitem {A : Type} (l : list A) (i : Z) : option A :=
  if 0 <=? i then l !! Z.to_nat i
  else if - Z.of_nat (length l) <=? i then l !! Z.to_nat (Z.of_nat (length l) + i)
  else None.

(** [len(range(a, b))]. *)
Definition range_len (a b : Z) : Z := Z.max 0 (b - a).

(** [x in range(a, b)]. *)
Definition in_range (x a b : Z) : bool := (a <=? x) && (x <? b).

(** [sorted(l, key=...)], where [le x y] decides [key(x) <= key(y)]. The
    sort is stable, so its result is the one this insertion sort builds. *)
Fixpoint insert_by {A : Type} (le : A → A → bool) (x : A) (l : list A) : list A :=
  match l with
  | [] => [x]
  | y :: l' => if le x y then x :: y :: l' else y :: insert_by le x l'
  end.

Definition sorted_by {A : Type} (le : A → A → bool) (l : list A) : list A :=
  foldr (insert_by le) [] l.

(** [len(s)] and [s[i]] on strings. *)
Definition str_len (s : string) : Z := Z.of_nat (String.length s).

Definition str_getitem (s : string) (i : Z) : option ascii :=
  getitem (list_ascii_of_string s) i.

(** [c.isspace()] for a code point below 256. *)
Definition isspace (c : ascii) : bool :=
  let n := nat_of_ascii c in
  ((9 <=? n) && (n <=? 13) || (28 <=? n) && (n <=? 32) || (n =? 133) || (n =? 160))%nat.

Fixpoint lstrip (s : string) : string :=
  match s with
  | EmptyString => EmptyString
  | String c s' => if isspace c then lstrip s' else s
  end.

Definition str_rev (s : string) : string :=
  string_of_list_ascii (rev (list_ascii_of_string s)).

(** [s.strip()]. *)
Definition strip (s : string) : string := str_rev (lstrip (str_rev (lstrip s))).

(** [s.split()]: the maximal runs of non-whitespace characters; [cur] is the
    run being read. *)
Fixpoint split_ws (s cur : string) : list string :=
  match s with
  | EmptyString => match cur with EmptyString => [] | _ => [cur] end
  | String c s' =>
      if isspace c
      then match cur with EmptyString => split_ws s' "" | _ => cur :: split_ws s' "" end
      else split_ws s' (cur +:+ String c "")
  end.

(** [s.split(sep)] for a one-character separator. *)
Fixpoint split_on (sep : ascii) (s cur : string) : list string :=
  match s with
  | EmptyString => [cur]
  | String c s' =>
      if Ascii.eqb c sep then cur :: split_on sep s' "" else split_on sep s' (cur +:+ String c "")
  end.

(** The offsets both splitters of the source compute: each piece starts
    [gap] characters after the end of the one before. *)
Fixpoint running_offsets (gap : Z) (offset : Z) (pieces : list string) : list Z :=
  match pieces with
  | [] => []
  | p :: ps => offset :: running_offsets gap (offset + str_len p + gap) ps
  end.

Definition whitespace_tokenize (text : string) : list string * list Z :=
  let tokens := split_ws text "" in (tokens, running_offsets 1 0 tokens).

Definition sentence_split_at_newline (text : string) : list string * list Z :=
  let sentences := split_on "010"%char text "" in (sentences, running_offsets 1 0 sentences).

Definition sentence_split_one_sentence_per_doc (text : string) : list string * list Z :=
  ([text], [0]).

Definition SENTENCE_TAG : string := "[__SENT__]".

(** [s.split(sep)] for a separator of any positive length: the text is cut
    at the leftmost occurrences of [sep] that do not overlap. [skip] counts
    the characters of an occurrence just found that are still to be passed
    over. *)
Fixpoint split_sep (sep : string) (s cur : string) (skip : nat) : list string :=
  match s with
  | EmptyString => [cur]
  | String c s' =>
      match skip with
      | S k => split_sep sep s' cur k
      | O =>
          if String.prefix sep s
          then cur :: split_sep sep s' "" (String.length sep - 1)
          else split_sep sep s' (cur +:+ String c "") 0
      end
  end.

Definition sentence_split_at_tag (text : string) : list string * list Z :=
  let sentences := split_sep SENTENCE_TAG text "" 0 in
  (sentences, running_offsets (str_len SENTENCE_TAG) 0 sentences).

(** ** Entity *)

Module Entity.

(** [char_span] is [range(start, stop)]; only its two ends are ever read. *)
Record t : Type := mk { start : Z; stop : Z; type : string }.

(** [Entity.__init__]: the [assert] raises when the span is empty or
    reversed. *)
Definition init (char_span : Z * Z) (entity_type : string) : option t :=
  if fst char_span <? snd char_span
  then Some (mk (fst char_span) (snd char_span) entity_type)
  else None.

Definition is_before (self other : t) : bool := stop self <=? start other.

Definition contains (self other : t) : bool :=
  (start other >=? start self) && (stop other <=? stop self).

Definition overlaps (self other : t) : bool :=
  ((start self <=? start other) && (start other <? stop self))
  || ((start self <? stop other) && (stop other <=? stop self)).

(** [len(entity.char_span)]. *)
Definition span_len (e : t) : Z := range_len (start e) (stop e).

(** The half-open intervals [[start, stop)] of two entities share a
    character position. *)
Definition intersects (a b : t) : Prop :=
  ∃ x : Z, (start a <= x < stop a) ∧ (start b <= x < stop b).

(** The construction invariant. *)
Definition wf (e : t) : Prop := start e < stop e.

(** [sorted(..., key=lambda x: x.char_span.stop)]. *)
Definition le_stop (a b : t) : bool := stop a <=? stop b.

(** [sorted(..., key=attrgetter("char_span.start", "char_span.stop"))]:
    tuples compare lexicographically. *)
Definition le_start_stop (a b : t) : bool :=
  (start a <? start b) || ((start a =? start b) && (stop a <=? stop b)).

End Entity.

Abbreviation Entity := Entity.t.

#[global] Instance entity_eq_dec : EqDecision Entity.
Proof. solve_decision. Defined.

(** ** InternalBioNerDataset

    [E] is what an entity list holds: entity values where the code only
    reads them, references into an object store where it copies and
    assigns. *)
Record InternalBioNerDataset (E : Type) : Type := mkDataset {
  documents : gmap string string;
  entities_per_document : gmap string (list E)
}.
Arguments mkDataset {E} _ _.
Arguments documents {E} _.
Arguments entities_per_document {E} _.

(** [merge_datasets]: [dict.update] keeps the argument's value on a shared
    key, which is the left-biased union with the argument on the left. *)
Definition merge_datasets {E : Type} (data_sets : list (InternalBioNerDataset E))
  : InternalBioNerDataset E :=
  foldl (λ acc ds,
           mkDataset (documents ds ∪ documents acc)
                     (entities_per_document ds ∪ entities_per_document acc))
        (mkDataset ∅ ∅) data_sets.

(** ** The object store behind [filter_and_map_entities]

    [copy(entity)] makes a new object and [new_entity.type = ...] assigns to
    an attribute of an object, so this function is modelled over a store of
    entity objects. A reference is an index into the store; allocation
    appends. Reading through a reference that is not in the store cannot
    happen in Python and is [None] here. *)

Abbreviation loc := nat.
Abbreviation Heap := (list Entity).

(** [copy(entity)] *)
Definition heap_copy (h : Heap) (l : loc) : option (Heap * loc) :=
  e ← h !! l; Some (h ++ [e], length h).

(** [obj.type = ty] *)
Definition heap_set_type (h : Heap) (l : loc) (ty : string) : option Heap :=
  e ← h !! l; Some (<[l := Entity.mk (Entity.start e) (Entity.stop e) ty]> h).

(** The values a list of references stands for. *)
Definition deref (h : Heap) (ls : list loc) : option (list Entity) :=
  mapM (λ l, h !! l) ls.

(** The inner loop of [filter_and_map_entities], over one document. *)
Fixpoint map_entities (entity_type_to_canonical : gmap string string)
    (h : Heap) (entities : list loc) : option (Heap * list loc) :=
  match entities with
  | [] => Some (h, [])
  | entity :: rest =>
      e ← h !! entity;
      match entity_type_to_canonical !! Entity.type e with
      | Some canonical =>
          '(h1, new_entity) ← heap_copy h entity;
          h2 ← heap_set_type h1 new_entity canonical;
          '(h3, new_entities) ← map_entities entity_type_to_canonical h2 rest;
          Some (h3, new_entity :: new_entities)
      | None => map_entities entity_type_to_canonical h rest
      end
  end.

Definition filter_and_map_entities (h : Heap) (dataset : InternalBioNerDataset loc)
    (entity_type_to_canonical : gmap string string)
  : option (Heap * InternalBioNerDataset loc) :=
  '(h', mapped_entities_per_document) ←
    map_fold (λ id entities acc,
                '(h0, mapped) ← acc;
                '(h1, new_entities) ← map_entities entity_type_to_canonical h0 entities;
                Some (h1, <[id := new_entities]> mapped))
             (Some (h, ∅)) (entities_per_document dataset);
  Some (h', mkDataset (documents dataset) mapped_entities_per_document).

(** What the function is specified to do to the values of one entity list:
    keep the entities whose type is a key, relabelled, in order. *)
Definition relabel (type_map : gmap string string) (e : Entity) : option Entity :=
  canonical ← type_map !! Entity.type e;
  Some (Entity.mk (Entity.start e) (Entity.stop e) canonical).

(** ** filter_nested_entities *)

(** One tuple of [dp_array]:
    (position_end, number of entities, sum of all entity lengths, last entity). *)
Record DPRow : Type := mkRow {
  position_end : Z;
  num_entities : Z;
  sum_lengths : Z;
  last_entity : option Entity
}.

(** The [while dp_array[i][0] > entity.char_span.start: i -= 1] loop. The
    index runs from [len - 1] downwards; [k] is the number of indices from
    the current one down to [-len] that [dp_array[i]] still accepts, so the
    current index is [k - 1 - len] and at [k = 0] the subscript raises. *)
Fixpoint search_back (dp_array : list DPRow) (start : Z) (k : nat) : option Z :=
  match k with
  | O => None
  | S k' =>
      let i := Z.of_nat k' - Z.of_nat (length dp_array) in
      row ← getitem dp_array i;
      if position_end row >? start then search_back dp_array start k' else Some i
  end.

(** The body of [for entity in sorted(entities, ...)]. *)
Definition dp_step (dp_array : list DPRow) (entity : Entity) : option (list DPRow) :=
  i ← search_back dp_array (Entity.start entity) (2 * length dp_array);
  row_i ← getitem dp_array i;
  row_last ← getitem dp_array (-1);
  if (num_entities row_i + 1 >? num_entities row_last)
     || ((num_entities row_i + 1 =? num_entities row_last)
         && (sum_lengths row_i + Entity.span_len entity >? sum_lengths row_last))
  then Some (dp_array ++ [mkRow (Entity.stop entity)
                                (num_entities row_i + 1)
                                (sum_lengths row_i + Entity.span_len entity)
                                (Some entity)])
  else Some (dp_array ++ [row_last]).

Fixpoint dp_run (dp_array : list DPRow) (entities : list Entity) : option (list DPRow) :=
  match entities with
  | [] => Some dp_array
  | entity :: rest => dp' ← dp_step dp_array entity; dp_run dp' rest
  end.

Definition dp_table (entities : list Entity) : option (list DPRow) :=
  dp_run [mkRow 0 0 0 None] (sorted_by Entity.le_stop entities).

(** [for dp_entry in dp_array[::-1]], given the reversed table and [p]. *)
Fixpoint walk_back (reversed : list DPRow) (p : Z) : list Entity :=
  match reversed with
  | [] => []
  | dp_entry :: rest =>
      match last_entity dp_entry with
      | None => []
      | Some e =>
          if position_end dp_entry <=? p
          then e :: walk_back rest (p - Entity.span_len e)
          else walk_back rest p
      end
  end.

Definition independent_set (dp_array : list DPRow) : option (list Entity) :=
  row_last ← getitem dp_array (-1);
  Some (walk_back (rev dp_array) (position_end row_last)).

(** The body of the loop over documents: the new entity list of one
    document. *)
Definition resolve_nested (entities : list Entity) : option (list Entity) :=
  dp_array ← dp_table entities; independent_set dp_array.

(** [sum([len(x) for x in d.values()])] *)
Definition count_entities (d : gmap string (list Entity)) : Z :=
  map_fold (λ _ x acc, Z.of_nat (length x) + acc) 0 d.

(** Rebuilding every value of a dictionary with a function that may raise. *)
Definition dict_mapM {A B : Type} (f : A → option B) (d : gmap string A)
  : option (gmap string B) :=
  if decide (map_Forall (λ _ x, is_Some (f x)) d) then Some (omap f d) else None.

(** [filter_nested_entities]: the dataset after the in-place update, and the
    argument of [warn] when it is called (the number in its message). *)
Definition filter_nested_entities (dataset : InternalBioNerDataset Entity)
  : option (InternalBioNerDataset Entity * option Z) :=
  let num_entities_before := count_entities (entities_per_document dataset) in
  resolved ← dict_mapM resolve_nested (entities_per_document dataset);
  let num_entities_after := count_entities resolved in
  Some (mkDataset (documents dataset) resolved,
        if decide (num_entities_before ≠ num_entities_after)
        then Some (num_entities_before - num_entities_after)
        else None).

(** ** Mappings that supply a default

    [entities_per_document] holds a [dict] or, where the corpus reader
    builds it that way (LINNEAUS.download_and_parse_dataset among others), a
    [defaultdict(list)]. The two differ at a key the mapping lacks: [d[k]]
    raises [KeyError] in a [dict]; in a [defaultdict] it stores what
    [default_factory()] returns under [k] and gives that value.
    [default_factory] is [None] for a [dict] and [Some v] for a factory
    that returns [v]: [Some []] for [defaultdict(list)]. *)
Definition getitem_missing {V : Type} (default_factory : option V)
    (d : gmap string V) (k : string) : option (V * gmap string V) :=
  match d !! k with
  | Some v => Some (v, d)
  | None => v ← default_factory; Some (v, <[k := v]> d)
  end.

(** The value of [d[k]]. The functions that read a mapping this way do not
    assign through the lists they get, so a key stored by an earlier
    [d[k]] reads as the same value with or without the stored entry
    (lemma [subscript_stored]); they are written over the mapping they are
    given. *)
Definition subscript {V : Type} (default_factory : option V)
    (d : gmap string V) (k : string) : option V :=
  fst <$> getitem_missing default_factory d k.

(** ** Subsets of a dataset *)

(** [{k: d[k] for k in ids}]: later keys overwrite earlier ones, a key that
    a [dict] [d] lacks raises [KeyError]. The result is a [dict]. *)
Fixpoint dict_restrict {V : Type} (default_factory : option V) (d : gmap string V)
    (ids : list string) (acc : gmap string V) : option (gmap string V) :=
  match ids with
  | [] => Some acc
  | k :: ids' =>
      v ← subscript default_factory d k;
      dict_restrict default_factory d ids' (<[k := v]> acc)
  end.

(** The body of [get_subset] and of [get_mirna_subset] once the ids are
    read: the ids that name a document, sorted, select the documents and
    their entity lists. [documents] is a [dict] in every reader;
    [default_factory] is that of [entities_per_document]. *)
Definition select_ids {E : Type} (default_factory : option (list E))
    (dataset : InternalBioNerDataset E) (ids : list string)
  : option (InternalBioNerDataset E) :=
  let ids := sorted_by String.leb
               (filter (λ id_, is_Some (documents dataset !! id_)) ids) in
  docs ← dict_restrict None (documents dataset) ids ∅;
  ents ← dict_restrict default_factory (entities_per_document dataset) ids ∅;
  Some (mkDataset docs ents).

(** [[l.strip() for l in f if l.strip()]], [f] being the lines of the split
    file. *)
Definition read_ids (lines : list string) : list string :=
  strip <$> filter (λ l, strip l ≠ "") lines.

(** [HunerDataset.get_subset], given the lines of the split file. *)
Definition get_subset {E : Type} (default_factory : option (list E))
    (dataset : InternalBioNerDataset E) (lines : list string)
  : option (InternalBioNerDataset E) :=
  select_ids default_factory dataset (read_ids lines).

(** [HunerMiRNAHelper.get_mirna_subset], given the lines of the split file. *)
Definition get_mirna_subset {E : Type} (default_factory : option (list E))
    (dataset : InternalBioNerDataset E) (lines : list string)
  : option (InternalBioNerDataset E) :=
  let ids := read_ids lines in
  select_ids default_factory dataset
    (((λ id, id +:+ "-train") <$> ids) ++ ((λ id, id +:+ "-test") <$> ids)).

(** ** CoNLLWriter.write_to_conll *)

(** One token of the output: the three fields joined into a line. *)
Record Row : Type := mkOutRow {
  row_token : string;
  row_tag : string;
  row_whitespace_after : string
}.

(** The entity cursor: [current_entity] and the deque [entities]. *)
Record Cursor : Type := mkCursor {
  current_entity : option Entity;
  pending : list Entity
}.

(** [while current_entity and offset >= current_entity.char_span.stop:
       current_entity = entities.popleft() if entities else None] *)
Fixpoint skip_finished (offset : Z) (current : option Entity) (entities : list Entity)
  : Cursor :=
  match current with
  | None => mkCursor None entities
  | Some e =>
      if offset >=? Entity.stop e
      then match entities with
           | [] => mkCursor None []
           | e' :: entities' => skip_finished offset (Some e') entities'
           end
      else mkCursor current entities
  end.

(** The first [if] of the token loop: the flag is cleared and the finished
    entities are dropped only when the current one ends at or before
    [offset]. *)
Definition advance (offset : Z) (c : Cursor) (in_entity : bool) : Cursor * bool :=
  match current_entity c with
  | Some e =>
      if offset >=? Entity.stop e
      then (skip_finished offset (current_entity c) (pending c), false)
      else (c, in_entity)
  | None => (c, in_entity)
  end.

(** The tag of the token at [offset] and the new value of the flag. *)
Definition assign_tag (offset : Z) (current : option Entity) (in_entity : bool)
  : string * bool :=
  match current with
  | Some e =>
      if in_range offset (Entity.start e) (Entity.stop e)
      then (if negb in_entity then "B-" +:+ Entity.type e else "I-" +:+ Entity.type e, true)
      else ("O", false)
  | None => ("O", false)
  end.

(** [whitespace_after]; the subscript [document_text[next_token_offset]] is
    evaluated only when the first conjunct holds, and may raise. *)
Definition whitespace_marker (document_text : string)
    (next_token_offset sentence_end_offset : Z) : option string :=
  if next_token_offset <? sentence_end_offset
  then c ← str_getitem document_text next_token_offset;
       Some (if negb (isspace c) then "-" else "+")
  else Some "+".

(** The body of the loop over the tokens of a sentence, up to the write. *)
Definition token_step (document_text sentence : string) (sentence_offset : Z)
    (st : Cursor * bool) (token : string) (token_offset : Z)
  : option ((Cursor * bool) * Row) :=
  let token := strip token in
  let offset := sentence_offset + token_offset in
  let '(c, in_entity) := advance offset st.1 st.2 in
  let '(tag, in_entity) := assign_tag offset (current_entity c) in_entity in
  let next_token_offset := offset + str_len token in
  let sentence_end_offset := sentence_offset + str_len sentence in
  whitespace_after ← whitespace_marker document_text next_token_offset sentence_end_offset;
  Some ((c, in_entity), mkOutRow token tag whitespace_after).

Fixpoint token_loop (document_text sentence : string) (sentence_offset : Z)
    (st : Cursor * bool) (tokens : list (string * Z))
  : option ((Cursor * bool) * list Row) :=
  match tokens with
  | [] => Some (st, [])
  | (token, token_offset) :: rest =>
      '(st1, row) ← token_step document_text sentence sentence_offset st token token_offset;
      '(st2, rows) ← token_loop document_text sentence sentence_offset st1 rest;
      Some (st2, row :: rows)
  end.

(** [if len(token) > 0] *)
Definition written (r : Row) : bool := 0 <? str_len (row_token r).

(** [" ".join([token, tag, whitespace_after]) + "\n"] *)
Definition line (r : Row) : string :=
  row_token r +:+ " " +:+ row_tag r +:+ " " +:+ row_whitespace_after r +:+ String "010" "".

(** What one sentence writes to the file: a line for each token that is not
    empty, then an empty line if there was one. *)
Definition sentence_output (rows : list Row) : list string :=
  let lines := line <$> filter (λ r, written r = true) rows in
  match lines with [] => [] | _ => lines ++ [String "010" ""] end.

Section writer.

(** [ftfy.fix_text] and the two callables given to [CoNLLWriter.__init__]. *)
Variable fix_text : string → string.
Variable tokenizer : string → list string * list Z.
Variable sentence_splitter : string → list string * list Z.

(** The body of the loop over sentences: [in_entity] starts [False]. The
    rows of all the tokens are returned, the written ones are
    [sentence_output] of them. *)
Definition sentence_step (document_text : string) (c : Cursor)
    (sentence : string) (sentence_offset : Z) : option (Cursor * list Row) :=
  let '(tokens, token_offsets) := tokenizer sentence in
  '(st, rows) ← token_loop document_text sentence sentence_offset (c, false)
                           (zip tokens token_offsets);
  Some (st.1, rows).

Fixpoint sentence_loop (document_text : string) (c : Cursor)
    (sentences : list (string * Z)) : option (Cursor * list (list Row)) :=
  match sentences with
  | [] => Some (c, [])
  | (sentence, sentence_offset) :: rest =>
      '(c1, rows) ← sentence_step document_text c sentence sentence_offset;
      '(c2, rowss) ← sentence_loop document_text c1 rest;
      Some (c2, rows :: rowss)
  end.

(** [deque(sorted(...))] followed by
    [current_entity = entities.popleft() if entities else None]. *)
Definition initial_cursor (entities : list Entity) : Cursor :=
  match sorted_by Entity.le_start_stop entities with
  | [] => mkCursor None []
  | e :: rest => mkCursor (Some e) rest
  end.

(** The body of the loop over documents: the rows of each sentence. *)
Definition document_rows (text : string) (entities : list Entity)
  : option (list (list Row)) :=
  let document_text := fix_text text in
  let '(sentences, sentence_offsets) := sentence_splitter document_text in
  '(_, rowss) ← sentence_loop document_text (initial_cursor entities)
                              (zip sentences sentence_offsets);
  Some rowss.

(** [write_to_conll], as the list of strings written to the file. [keys] is
    [dataset.documents.keys()] in the dictionary's order and
    [default_factory] that of [dataset.entities_per_document]: a document
    id without an entity list raises [KeyError] in a [dict] and is given
    the default in a [defaultdict]. [filter_nested_entities] assigns under
    the keys the mapping has and leaves its class as it is. *)
Definition write_to_conll (default_factory : option (list Entity))
    (dataset : InternalBioNerDataset Entity) (keys : list string)
  : option (list string) :=
  '(dataset, _) ← filter_nested_entities dataset;
  outs ← mapM (λ document_id,
                 text ← documents dataset !! document_id;
                 entities ← subscript default_factory (entities_per_document dataset)
                                      document_id;
                 rowss ← document_rows text entities;
                 Some (concat (sentence_output <$> rowss))) keys;
  Some (concat outs).

End writer.

(** ** Vocabulary of the properties *)

(** An entity a document can hold: offsets are positions in a text. *)
Definition valid_entity (e : Entity) : Prop := 0 <= Entity.start e ∧ Entity.wf e.

(** The entities the resolver removed from a document: those of the old
    list that the new list lacks. *)
Definition removed_entities (before after : list Entity) : list Entity :=
  filter (λ e, e ∉ after) before.

(** No two entities at different positions of the list intersect. *)
Fixpoint independent (s : list Entity) : Prop :=
  match s with
  | [] => True
  | a :: s' => Forall (λ b, ¬ Entity.intersects a b) s' ∧ independent s'
  end.

(** Total covered character length. *)
Definition total_length (s : list Entity) : Z :=
  foldr (λ e acc, Entity.span_len e + acc) 0 s.

(** The two-level objective: count first, total length second. *)
Definition objective (s : list Entity) : Z * Z := (Z.of_nat (length s), total_length s).

Definition lex_le (x y : Z * Z) : Prop := x.1 < y.1 ∨ (x.1 = y.1 ∧ x.2 <= y.2).

Definition row_value (r : DPRow) : Z * Z := (num_entities r, sum_lengths r).

(** The value bound to [k] by the last dictionary of a list that has [k]. *)
Fixpoint last_binding {V : Type} (k : string) (ds : list (gmap string V)) : option V :=
  match ds with
  | [] => None
  | d :: ds' => match last_binding k ds' with Some v => Some v | None => d !! k end
  end.

(** What the marker of a row has to be, for the token it was made from:
    [-] exactly when the character just after the stripped token exists,
    lies before the end of the sentence and is not whitespace; [+]
    otherwise. *)
Definition marker_spec (document_text sentence : string) (sentence_offset : Z)
    (t : string * Z) (row : Row) : Prop :=
  let next := sentence_offset + t.2 + str_len (strip t.1) in
  let follows :=
    ∃ ch, list_ascii_of_string document_text !! Z.to_nat next = Some ch
          ∧ next < sentence_offset + str_len sentence
          ∧ isspace ch = false in
  row_token row = strip t.1
  ∧ (row_whitespace_after row = "-" ↔ follows)
  ∧ (¬ follows → row_whitespace_after row = "+").

(** Where [running_offsets] puts a piece: inside the text, and at a place
    where the text reads as the piece. *)
Definition located (text : string) (piece : string) (offset : Z) : Prop :=
  0 <= offset
  ∧ offset + str_len piece <= str_len text
  ∧ String.substring (Z.to_nat offset) (String.length piece) text = piece.

(** A string without whitespace characters. *)
Definition ws_free (t : string) : Prop :=
  Forall (λ ch, isspace ch = false) (list_ascii_of_string t).

(** The entities the cursor still holds, in order. *)
Definition cursor_entities (c : Cursor) : list Entity :=
  match current_entity c with
  | Some e => e :: pending c
  | None => []
  end.

(** The position [o] lies in the span of [e]. *)
Definition covers (e : Entity) (o : Z) : Prop :=
  in_range o (Entity.start e) (Entity.stop e) = true.

(** What the tag of a token at position [o] has to be, given the entities
    of the document: [B-] or [I-] with the type of an entity that covers
    [o], or [O] when no entity does. *)
Definition tag_spec (entities : list Entity) (o : Z) (row : Row) : Prop :=
  (∃ e, e ∈ entities ∧ covers e o
        ∧ (row_tag row = "B-" +:+ Entity.type e ∨ row_tag row = "I-" +:+ Entity.type e))
  ∨ (row_tag row = "O" ∧ ∀ e, e ∈ entities → ¬ covers e o).

(** The positions in the text at which the tokens of a sentence start, and
    those of all the sentences of a document, in the order of the loops. *)
Definition token_positions (tokenizer : string → list string * list Z)
    (sentence : string) (sentence_offset : Z) : list Z :=
  (λ t : string * Z, sentence_offset + t.2)
    <$> zip (tokenizer sentence).1 (tokenizer sentence).2.

Definition document_positions (tokenizer : string → list string * list Z)
    (sentences : list (string * Z)) : list Z :=
  concat ((λ p : string * Z, token_positions tokenizer p.1 p.2) <$> sentences).

(** Each entity ends before the next one starts. *)
Definition chain (es : list Entity) : Prop :=
  StronglySorted (λ a b, Entity.is_before a b = true) es.

(** The state of [dp_array] once the entities [l] have been processed, in
    the order of the sort: the first row is the empty solution; every row
    ends where one of the processed entities ends; the rows never get worse
    from one index to the next; a set of processed entities that fits before
    [t] is matched or beaten by a row that ends before [t]; and every row is
    the value of a set of processed entities that fits before its end. *)
Record dp_inv (l : list Entity) (dp : list DPRow) : Prop := mkInv {
  inv_head : dp !! 0%nat = Some (mkRow 0 0 0 None);
  inv_ends : ∀ r, r ∈ dp →
    position_end r = 0 ∨ ∃ a, a ∈ l ∧ position_end r = Entity.stop a;
  inv_mono : ∀ i j r r', (i ≤ j)%nat → dp !! i = Some r → dp !! j = Some r' →
    lex_le (row_value r) (row_value r');
  inv_opt : ∀ s t, s `sublist_of` l → independent s →
    Forall (λ a, Entity.stop a <= t) s → 0 <= t →
    ∃ k r, dp !! k = Some r ∧ position_end r <= t ∧ lex_le (objective s) (row_value r);
  inv_ach : ∀ r, r ∈ dp →
    ∃ s, s `sublist_of` l ∧ independent s
         ∧ Forall (λ a, Entity.stop a <= position_end r) s
         ∧ objective s = row_value r
}.

(** The table as the backward walk reads it, last row first. Below a row
    that took [e] come rows whose entities intersect [e] (the rows the
    search skipped, and copies of the row itself), then the row [ri] the
    search stopped at, which the row extends by [e]. *)
Inductive chain_ok : list DPRow → Prop :=
  | chain_base : chain_ok [mkRow 0 0 0 None]
  | chain_cons r e seg ri rest :
      last_entity r = Some e → Entity.wf e → position_end r = Entity.stop e →
      Forall (λ rj, ∃ ej, last_entity rj = Some ej ∧ Entity.intersects e ej) seg →
      position_end ri <= Entity.start e →
      num_entities r = num_entities ri + 1 →
      sum_lengths r = sum_lengths ri + Entity.span_len e →
      chain_ok (seg ++ ri :: rest) →
      chain_ok (r :: seg ++ ri :: rest).

(** * Properties *)

(** ** Entity *)

Section entity_facts.
Implicit Types a b e : Entity.

Lemma intersects_iff a b :
  Entity.wf a → Entity.wf b →
  Entity.intersects a b ↔ Entity.start a < Entity.stop b ∧ Entity.start b < Entity.stop a.
Proof.
  unfold Entity.wf, Entity.intersects. intros Ha Hb. split.
  - intros (x & ? & ?). lia.
  - intros [? ?]. exists (Z.max (Entity.start a) (Entity.start b)). lia.
Qed.

Lemma intersects_sym a b : Entity.intersects a b → Entity.intersects b a.
Proof. intros (x & ? & ?). by exists x. Qed.

Lemma overlaps_sound a b :
  Entity.wf a → Entity.wf b → Entity.overlaps a b = true → Entity.intersects a b.
Proof.
  intros Ha Hb H. apply intersects_iff; [done..|].
  unfold Entity.overlaps, Entity.wf in *. lia.
Qed.

Lemma intersects_overlaps a b :
  Entity.intersects a b → Entity.overlaps a b = true ∨ Entity.overlaps b a = true.
Proof. intros (x & ? & ?). unfold Entity.overlaps. lia. Qed.

Lemma span_len_wf e : Entity.wf e → Entity.span_len e = Entity.stop e - Entity.start e.
Proof. unfold Entity.wf, Entity.span_len, range_len. lia. Qed.

End entity_facts.

(** C6. [Entity.__init__] raises exactly when [end <= start]; for
    [start < end] it returns the entity with the given ends and type; and
    every entity it returns has [start < stop]. *)
Theorem entity_init_span (s e : Z) (ty : string) :
  (Entity.init (s, e) ty = None ↔ e <= s)
  ∧ (s < e ↔ Entity.init (s, e) ty = Some (Entity.mk s e ty))
  ∧ (∀ ent, Entity.init (s, e) ty = Some ent → Entity.wf ent).
Proof.
  unfold Entity.init, Entity.wf; simpl.
  destruct (Z.ltb_spec s e) as [Hlt | Hge]; repeat split; try done; try lia.
  intros ent [= <-]. done.
Qed.

(** C3, at the spans [(3,5)] and [(0,10)]: the first lies strictly inside
    the second, so the half-open intervals intersect, yet [overlaps]
    answers [False] one way round and [True] the other. *)
Theorem overlaps_inner_outer :
  let a := Entity.mk 3 5 "X" in
  let b := Entity.mk 0 10 "Y" in
  Entity.intersects a b
  ∧ Entity.overlaps a b = false
  ∧ Entity.overlaps b a = true.
Proof. simpl. split; [|done]. exists 3. simpl. lia. Qed.

(** ** merge_datasets *)

Section merge.
Context {E : Type}.
Implicit Types (ds : InternalBioNerDataset E) (dss : list (InternalBioNerDataset E)).

Let merge_from (acc : InternalBioNerDataset E) dss : InternalBioNerDataset E :=
  foldl (λ acc ds,
           mkDataset (documents ds ∪ documents acc)
                     (entities_per_document ds ∪ entities_per_document acc))
        acc dss.

Lemma merge_from_lookup dss acc k :
  documents (merge_from acc dss) !! k
  = match last_binding k (documents <$> dss) with
    | Some v => Some v
    | None => documents acc !! k
    end
  ∧ entities_per_document (merge_from acc dss) !! k
  = match last_binding k (entities_per_document <$> dss) with
    | Some v => Some v
    | None => entities_per_document acc !! k
    end.
Proof.
  revert acc. induction dss as [|ds dss IH]; intros acc; [done|].
  rewrite !fmap_cons. unfold merge_from in *. cbn [foldl last_binding].
  destruct (IH (mkDataset (documents ds ∪ documents acc)
                  (entities_per_document ds ∪ entities_per_document acc)))
    as [-> ->]. cbn [documents entities_per_document].
  split.
  - destruct (last_binding k (documents <$> dss)); [done|].
    rewrite lookup_union. destruct (documents ds !! k), (documents acc !! k); done.
  - destruct (last_binding k (entities_per_document <$> dss)); [done|].
    rewrite lookup_union.
    destruct (entities_per_document ds !! k), (entities_per_document acc !! k); done.
Qed.

Lemma last_binding_is_Some {V : Type} (k : string) (ms : list (gmap string V)) :
  is_Some (last_binding k ms) ↔ ∃ m, m ∈ ms ∧ is_Some (m !! k).
Proof.
  induction ms as [|m ms IH]; simpl.
  - split; [by intros [? ?]|]. intros (m & Hm & _). by apply elem_of_nil in Hm.
  - destruct (last_binding k ms) as [v|] eqn:Hl.
    + split; [|by eauto]. intros _. destruct IH as [IH _].
      destruct IH as (m' & ? & ?); [by eauto|]. exists m'. split; [by right|done].
    + split.
      * intros ?. exists m. split; [by left|done].
      * intros (m' & [->|Hin]%elem_of_cons & Hs); [done|].
        destruct IH as [_ IH]. destruct IH as [? ?]; [by eauto|done].
Qed.

End merge.

(** C9. In the collection [merge_datasets] returns, the document mapping
    and the entity mapping each bind a key exactly when one of the inputs'
    mappings does, and bind it to the value of the last input that has
    it. *)
Theorem merge_datasets_last_wins {E : Type} (dss : list (InternalBioNerDataset E))
    (k : string) :
  documents (merge_datasets dss) !! k = last_binding k (documents <$> dss)
  ∧ entities_per_document (merge_datasets dss) !! k
    = last_binding k (entities_per_document <$> dss)
  ∧ (is_Some (documents (merge_datasets dss) !! k)
     ↔ ∃ ds, ds ∈ dss ∧ is_Some (documents ds !! k))
  ∧ (is_Some (entities_per_document (merge_datasets dss) !! k)
     ↔ ∃ ds, ds ∈ dss ∧ is_Some (entities_per_document ds !! k)).
Proof.
  destruct (merge_from_lookup dss (mkDataset ∅ ∅) k) as [Hd He].
  unfold merge_datasets. simpl in Hd, He.
  assert (Hd' : documents (foldl (λ acc ds,
           mkDataset (documents ds ∪ documents acc)
                     (entities_per_document ds ∪ entities_per_document acc))
        (mkDataset ∅ ∅) dss) !! k = last_binding k (documents <$> dss)).
  { rewrite Hd. by destruct (last_binding k (documents <$> dss)). }
  assert (He' : entities_per_document (foldl (λ acc ds,
           mkDataset (documents ds ∪ documents acc)
                     (entities_per_document ds ∪ entities_per_document acc))
        (mkDataset ∅ ∅) dss) !! k = last_binding k (entities_per_document <$> dss)).
  { rewrite He. by destruct (last_binding k (entities_per_document <$> dss)). }
  rewrite Hd', He'. repeat split; try done.
  - rewrite last_binding_is_Some. intros (m & (ds & -> & Hin)%list_elem_of_fmap & Hs). eauto.
  - rewrite last_binding_is_Some. intros (ds & Hin & Hs).
    exists (documents ds). split; [|done]. apply list_elem_of_fmap. eauto.
  - rewrite last_binding_is_Some. intros (m & (ds & -> & Hin)%list_elem_of_fmap & Hs). eauto.
  - rewrite last_binding_is_Some. intros (ds & Hin & Hs).
    exists (entities_per_document ds). split; [|done]. apply list_elem_of_fmap. eauto.
Qed.

(** ** filter_and_map_entities *)

Section filter_and_map.
Variable type_map : gmap string string.
Implicit Types (h : Heap) (ls : list loc) (vals : list Entity).

(** References read the same in a store that has only grown. *)
Lemma reads_prefix h h' ls vals :
  h `prefix_of` h' →
  Forall2 (λ l e, h !! l = Some e) ls vals →
  Forall2 (λ l e, h' !! l = Some e) ls vals.
Proof.
  intros Hp H. eapply Forall2_impl; [exact H|].
  intros l e Hl. exact (prefix_lookup_Some h h' l e Hl Hp).
Qed.

Lemma reads_valid h ls :
  Forall (λ l, (l < length h)%nat) ls → ∃ vals, Forall2 (λ l e, h !! l = Some e) ls vals.
Proof.
  induction 1 as [|l ls Hl _ [vals IH]]; [by exists []|].
  destruct (lookup_lt_is_Some_2 h l Hl) as [e He].
  exists (e :: vals). by constructor.
Qed.

(** The objects allocated after [h] are read back by consecutive references. *)
Lemma reads_fresh h vals :
  Forall2 (λ l e, (h ++ vals) !! l = Some e) (seq (length h) (length vals)) vals.
Proof.
  revert h. induction vals as [|x vals IH]; intros h; [constructor|].
  simpl. constructor; [by apply list_lookup_middle|].
  specialize (IH (h ++ [x])).
  rewrite <- app_assoc, length_app in IH. simpl in IH.
  by replace (length h + 1)%nat with (S (length h)) in IH by lia.
Qed.

(** The inner loop appends the relabelled copies to the store, in order,
    and returns the references to them. *)
Lemma map_entities_spec ls : ∀ h vals,
  Forall2 (λ l e, h !! l = Some e) ls vals →
  map_entities type_map h ls
  = Some (h ++ omap (relabel type_map) vals,
          seq (length h) (length (omap (relabel type_map) vals))).
Proof.
  induction ls as [|l ls IH]; intros h vals H.
  - apply Forall2_nil_inv_l in H as ->. simpl. by rewrite app_nil_r.
  - apply Forall2_cons_inv_l in H as (e & vals' & He & Hrest & ->).
    cbn [map_entities]. rewrite He. cbn [mbind option_bind].
    assert (Hom : omap (relabel type_map) (e :: vals')
                  = match relabel type_map e with
                    | Some y => y :: omap (relabel type_map) vals'
                    | None => omap (relabel type_map) vals'
                    end) by reflexivity.
    rewrite Hom. clear Hom.
    destruct (type_map !! Entity.type e) as [canonical|] eqn:Hty.
    + set (e' := Entity.mk (Entity.start e) (Entity.stop e) canonical).
      assert (Hr : relabel type_map e = Some e').
      { unfold relabel. by rewrite Hty. }
      assert (Hc : heap_copy h l = Some (h ++ [e], length h)).
      { unfold heap_copy. by rewrite He. }
      assert (Hs : heap_set_type (h ++ [e]) (length h) canonical = Some (h ++ [e'])).
      { unfold heap_set_type.
        assert ((h ++ [e]) !! length h = Some e) as -> by (by apply list_lookup_middle).
        cbn [mbind option_bind]. f_equal.
        rewrite insert_app_r_alt by lia. by rewrite Nat.sub_diag. }
      rewrite Hr, Hc. cbn [mbind option_bind]. rewrite Hs. cbn [mbind option_bind].
      rewrite (IH (h ++ [e']) vals').
      2:{ eapply reads_prefix; [|exact Hrest]. by apply prefix_app_r. }
      cbn [mbind option_bind]. rewrite <- app_assoc, length_app. simpl.
      by replace (length h + 1)%nat with (S (length h)) by lia.
    + assert (Hr : relabel type_map e = None).
      { unfold relabel. by rewrite Hty. }
      rewrite Hr. by apply IH.
Qed.

End filter_and_map.

(** C8. Run on a store in which every entity reference of the collection
    is live, [filter_and_map_entities] returns; every object that was in
    the store is unchanged afterwards; the documents are the same; and each
    document's new entity list refers to fresh objects whose values are the
    input entities with a type in [type_map], relabelled, in input order. *)
Theorem filter_and_map_entities_spec (h : Heap) (dataset : InternalBioNerDataset loc)
    (type_map : gmap string string) :
  (∀ id ls, entities_per_document dataset !! id = Some ls →
            Forall (λ l, (l < length h)%nat) ls) →
  ∃ h' dataset',
    filter_and_map_entities h dataset type_map = Some (h', dataset')
    ∧ (∀ l e, h !! l = Some e → h' !! l = Some e)
    ∧ documents dataset' = documents dataset
    ∧ ∀ id,
        match entities_per_document dataset !! id with
        | None => entities_per_document dataset' !! id = None
        | Some ls =>
            ∃ ls' vals,
              entities_per_document dataset' !! id = Some ls'
              ∧ deref h ls = Some vals
              ∧ deref h' ls' = Some (omap (relabel type_map) vals)
              ∧ Forall (λ l, (length h ≤ l)%nat) ls'
        end.
Proof.
  unfold filter_and_map_entities.
  set (f := λ (id : string) (entities : list loc) (acc : option (Heap * gmap string (list loc))),
              '(h0, mapped) ← acc;
              '(h1, new_entities) ← map_entities type_map h0 entities;
              Some (h1, <[id := new_entities]> mapped)).
  intros Hvalid.
  assert (Hfold :
    ∃ h' mapped,
      map_fold f (Some (h, ∅)) (entities_per_document dataset) = Some (h', mapped)
      ∧ h `prefix_of` h'
      ∧ ∀ id,
          match entities_per_document dataset !! id with
          | None => mapped !! id = None
          | Some ls =>
              ∃ ls' vals,
                mapped !! id = Some ls'
                ∧ Forall2 (λ l e, h !! l = Some e) ls vals
                ∧ Forall2 (λ l e, h' !! l = Some e) ls' (omap (relabel type_map) vals)
                ∧ Forall (λ l, (length h ≤ l)%nat) ls'
          end).
  { revert Hvalid.
    apply (map_fold_weak_ind (λ r m,
      (∀ id ls, m !! id = Some ls → Forall (λ l, (l < length h)%nat) ls) →
      ∃ h' mapped, r = Some (h', mapped) ∧ h `prefix_of` h'
        ∧ ∀ id, match m !! id with
                | None => mapped !! id = None
                | Some ls =>
                    ∃ ls' vals,
                      mapped !! id = Some ls'
                      ∧ Forall2 (λ l e, h !! l = Some e) ls vals
                      ∧ Forall2 (λ l e, h' !! l = Some e) ls' (omap (relabel type_map) vals)
                      ∧ Forall (λ l, (length h ≤ l)%nat) ls'
                end)).
    - intros _. exists h, ∅. split; [done|]. split; [done|].
      intros id. by rewrite !lookup_empty.
    - intros i x m r Hi IH Hv.
      destruct IH as (h0 & mapped & -> & Hpre & Hm).
      { intros id ls Hl. apply (Hv id). rewrite lookup_insert_ne; [done|].
        intros ->. congruence. }
      destruct (reads_valid h x) as [vals Hvals].
      { apply (Hv i). by rewrite lookup_insert_eq. }
      unfold f. cbn [mbind option_bind].
      rewrite (map_entities_spec type_map x h0 vals) by (by eapply reads_prefix).
      cbn [mbind option_bind].
      eexists _, _. split; [done|]. split.
      { etrans; [exact Hpre|]. by apply prefix_app_r. }
      intros id. destruct (decide (id = i)) as [->|Hne].
      + rewrite !lookup_insert_eq. eexists _, vals. split; [done|]. split; [done|].
        split; [apply reads_fresh|].
        apply Forall_forall. intros l Hl%list_elem_of_In%in_seq.
        apply prefix_length in Hpre. lia.
      + rewrite !lookup_insert_ne by done. specialize (Hm id).
        destruct (m !! id) as [ls|]; [|done].
        destruct Hm as (ls' & vs & ? & ? & ? & ?). exists ls', vs.
        split; [done|]. split; [done|]. split; [|done].
        eapply reads_prefix; [|done]. by apply prefix_app_r. }
  destruct Hfold as (h' & mapped & -> & Hpre & Hm).
  cbn [mbind option_bind]. eexists _, _. split; [done|].
  split; [intros l e Hl; exact (prefix_lookup_Some h h' l e Hl Hpre)|].
  split; [done|].
  intros id. specialize (Hm id). cbn [entities_per_document].
  destruct (entities_per_document dataset !! id) as [ls|]; [|done].
  destruct Hm as (ls' & vs & ? & ? & ? & ?). exists ls', vs.
  unfold deref. rewrite !mapM_Some. done.
Qed.

(** ** filter_nested_entities: the table *)

Section python_lists.
Context {A : Type}.
Implicit Types l : list A.

Lemma getitem_nat l (i : nat) : getitem l (Z.of_nat i) = l !! i.
Proof.
  unfold getitem. destruct (Z.leb_spec 0 (Z.of_nat i)); [|lia].
  by rewrite Nat2Z.id.
Qed.

Lemma getitem_last l : getitem l (-1) = last l.
Proof.
  unfold getitem. simpl.
  destruct l as [|x l _] using rev_ind; [done|].
  rewrite length_app, last_snoc. simpl.
  destruct (Z.leb_spec (- Z.of_nat (length l + 1)) (-1)); [|lia].
  replace (Z.to_nat (Z.of_nat (length l + 1) + -1)) with (length l) by lia.
  by apply list_lookup_middle.
Qed.

Lemma elem_of_rev l (x : A) : x ∈ rev l ↔ x ∈ l.
Proof. rewrite !list_elem_of_In. symmetry. apply in_rev. Qed.

End python_lists.

Section lex.
Implicit Types x y z : Z * Z.

Lemma lex_le_refl x : lex_le x x.
Proof. unfold lex_le. lia. Qed.

Lemma lex_le_trans x y z : lex_le x y → lex_le y z → lex_le x z.
Proof. unfold lex_le. lia. Qed.

(** The test of [dp_step] is the strict lexicographic order. *)
Lemma improves_false (c1 l1 c2 l2 : Z) :
  (c1 >? c2) || ((c1 =? c2) && (l1 >? l2)) = false → lex_le (c1, l1) (c2, l2).
Proof. unfold lex_le. simpl. lia. Qed.

Lemma improves_true (c1 l1 c2 l2 : Z) :
  (c1 >? c2) || ((c1 =? c2) && (l1 >? l2)) = true → lex_le (c2, l2) (c1, l1).
Proof. unfold lex_le. simpl. lia. Qed.

End lex.

Section independent_facts.
Implicit Types (s : list Entity) (e : Entity).

Lemma total_length_app s1 s2 : total_length (s1 ++ s2) = total_length s1 + total_length s2.
Proof. induction s1 as [|a s1 IH]; simpl; [done|]. unfold total_length in *. simpl. lia. Qed.

Lemma objective_snoc s e :
  objective (s ++ [e]) = ((objective s).1 + 1, (objective s).2 + Entity.span_len e).
Proof.
  unfold objective. rewrite length_app, total_length_app. simpl.
  unfold total_length. simpl. f_equal; lia.
Qed.

Lemma independent_snoc s e :
  independent (s ++ [e]) ↔ independent s ∧ Forall (λ a, ¬ Entity.intersects a e) s.
Proof.
  induction s as [|a s IH]; simpl.
  - split; [done|]. intros _. split; [constructor|done].
  - rewrite Forall_app, Forall_singleton, Forall_cons, IH. tauto.
Qed.

Lemma independent_sublist s1 s2 : s1 `sublist_of` s2 → independent s2 → independent s1.
Proof.
  induction 1 as [|x s1 s2 Hs IH|x s1 s2 Hs IH]; simpl; [done|..].
  - intros [Hx ?]. split; [|by apply IH].
    eapply Forall_forall. intros b Hb. eapply Forall_forall in Hx; [exact Hx|].
    by (eapply elem_of_sublist; [exact Hb|exact Hs]).
  - intros [_ ?]. by apply IH.
Qed.

Lemma independent_perm s1 s2 : s1 ≡ₚ s2 → independent s1 → independent s2.
Proof.
  induction 1 as [|x s1 s2 Hp IH|x y s|s1 s2 s3 _ IH1 _ IH2]; simpl; [done|..].
  - intros [Hx ?]. split; [by rewrite <- Hp|by apply IH].
  - intros [[Hyx Hy]%Forall_cons [Hx ?]]. repeat split; try done.
    constructor; [|done]. intros ?. apply Hyx. by apply intersects_sym.
  - intros ?. by apply IH2, IH1.
Qed.

Lemma objective_perm s1 s2 : s1 ≡ₚ s2 → objective s1 = objective s2.
Proof.
  intros Hp. unfold objective. f_equal; [by rewrite Hp|].
  induction Hp as [|x s1 s2 Hp IH|x y s|s1 s2 s3 _ IH1 _ IH2]; unfold total_length in *; simpl;
    [done|lia|lia|congruence].
Qed.

(** An entity that ends no later than [e] and does not intersect it ends
    before [e] starts. *)
Lemma disjoint_before a e :
  Entity.wf a → Entity.wf e → Entity.stop a <= Entity.stop e →
  ¬ Entity.intersects a e → Entity.stop a <= Entity.start e.
Proof.
  intros Ha He Hle Hn. destruct (Z.le_gt_cases (Entity.stop a) (Entity.start e)); [done|].
  exfalso. apply Hn. apply intersects_iff; [done..|]. unfold Entity.wf in *. lia.
Qed.

Lemma before_disjoint a e :
  Entity.stop a <= Entity.start e → ¬ Entity.intersects a e.
Proof. intros Hle (x & ? & ?). lia. Qed.

End independent_facts.

Section table.
Implicit Types (dp : list DPRow) (l s : list Entity) (e : Entity).

(** Started at index [i], with every row above [i] ending after [start]
    and the first row ending at or before it, the backward search stops at
    the last row that ends at or before [start]. *)
Lemma search_back_from dp start : ∀ i : nat,
  (i < length dp)%nat →
  (∃ r0, dp !! 0%nat = Some r0 ∧ position_end r0 <= start) →
  (∀ j r', (i < j)%nat → dp !! j = Some r' → start < position_end r') →
  ∃ (i' : nat) r,
    search_back dp start (S (i + length dp)) = Some (Z.of_nat i')
    ∧ dp !! i' = Some r ∧ position_end r <= start
    ∧ ∀ j r', (i' < j)%nat → dp !! j = Some r' → start < position_end r'.
Proof.
  induction i as [|i IH]; intros Hi H0 Habove.
  - destruct H0 as (r0 & Hr0 & Hle). exists 0%nat, r0.
    cbn [search_back].
    replace (Z.of_nat (0 + length dp) - Z.of_nat (length dp)) with (Z.of_nat 0) by lia.
    rewrite getitem_nat, Hr0. cbn [mbind option_bind].
    destruct (Z.gtb_spec (position_end r0) start); [lia|]. done.
  - destruct (lookup_lt_is_Some_2 dp (S i) Hi) as [r Hr].
    cbn [search_back].
    replace (Z.of_nat (S i + length dp) - Z.of_nat (length dp)) with (Z.of_nat (S i)) by lia.
    rewrite getitem_nat, Hr. cbn [mbind option_bind].
    destruct (Z.gtb_spec (position_end r) start) as [Hgt|Hle].
    + replace (S i + length dp)%nat with (S (i + length dp)) by lia.
      apply IH; [lia|done|].
      intros j r' Hj Hr'. destruct (decide (j = S i)) as [->|].
      * rewrite Hr in Hr'. injection Hr' as <-. lia.
      * apply (Habove j); [lia|done].
    + exists (S i), r. done.
Qed.

Lemma search_back_spec l dp e :
  dp_inv l dp → 0 <= Entity.start e →
  ∃ (i : nat) r,
    search_back dp (Entity.start e) (2 * length dp) = Some (Z.of_nat i)
    ∧ dp !! i = Some r ∧ position_end r <= Entity.start e
    ∧ ∀ j r', (i < j)%nat → dp !! j = Some r' → Entity.start e < position_end r'.
Proof.
  intros Hinv Hs.
  pose proof (inv_head _ _ Hinv) as H0.
  assert (0 < length dp)%nat as Hlen by (by eapply lookup_lt_Some).
  replace (2 * length dp)%nat with (S ((length dp - 1) + length dp)) by lia.
  apply search_back_from; [lia| |].
  - eexists. split; [exact H0|]. simpl. lia.
  - intros j r' Hj Hr'. apply lookup_lt_Some in Hr'. lia.
Qed.

(** One step of the loop keeps the invariant, provided the new entity ends
    no earlier than those before it. *)
Lemma dp_step_inv l dp e :
  dp_inv l dp → Forall valid_entity l → valid_entity e →
  Forall (λ a, Entity.stop a <= Entity.stop e) l →
  ∃ dp', dp_step dp e = Some dp' ∧ dp_inv (l ++ [e]) dp'.
Proof.
  intros Hinv Hvl [Hs Hwf] Hsorted.
  destruct (search_back_spec l dp e Hinv Hs) as (i & ri & Hsearch & Hi & Hend & Habove).
  pose proof (inv_head _ _ Hinv) as H0.
  destruct (last dp) as [rl|] eqn:Hlast.
  2:{ apply last_None in Hlast. by subst. }
  assert (Hlast_idx : dp !! (length dp - 1)%nat = Some rl).
  { rewrite last_lookup in Hlast. by replace (length dp - 1)%nat with (pred (length dp)) by lia. }
  assert (Hlex_last : ∀ k r, dp !! k = Some r → lex_le (row_value r) (row_value rl)).
  { intros k r Hk. apply (inv_mono _ _ Hinv k (length dp - 1)%nat); [|done..].
    apply lookup_lt_Some in Hk. lia. }
  assert (Hends : ∀ r, r ∈ dp → position_end r <= Entity.stop e).
  { intros r Hr. destruct (inv_ends _ _ Hinv r Hr) as [->|(a & Ha & ->)].
    - unfold Entity.wf in Hwf. lia.
    - eapply Forall_forall in Hsorted; [exact Hsorted|done]. }
  unfold dp_step. rewrite Hsearch. cbn [mbind option_bind].
  rewrite getitem_nat, Hi. cbn [mbind option_bind].
  rewrite getitem_last, Hlast. cbn [mbind option_bind].
  set (cand := mkRow (Entity.stop e) (num_entities ri + 1)
                     (sum_lengths ri + Entity.span_len e) (Some e)).
  set (test := (num_entities ri + 1 >? num_entities rl)
               || ((num_entities ri + 1 =? num_entities rl)
                   && (sum_lengths ri + Entity.span_len e >? sum_lengths rl))).
  (* the row that is appended, in either branch *)
  assert (Hnew : ∃ rn, (if test then Some (dp ++ [cand]) else Some (dp ++ [rl])) = Some (dp ++ [rn])
                       ∧ (rn = cand ∨ rn = rl)
                       ∧ lex_le (row_value cand) (row_value rn)
                       ∧ lex_le (row_value rl) (row_value rn)).
  { destruct test eqn:Htest.
    - exists cand. repeat split; [by left|apply lex_le_refl|].
      by apply improves_true in Htest.
    - exists rl. repeat split; [by right| |apply lex_le_refl].
      by apply improves_false in Htest. }
  destruct Hnew as (rn & -> & Hrn & Hcand & Hrl).
  exists (dp ++ [rn]). split; [done|].
  assert (Hrn_end : position_end rn <= Entity.stop e).
  { destruct Hrn as [->| ->]; [simpl; lia|]. apply Hends. by eapply list_elem_of_lookup_2. }
  constructor.
  - by apply lookup_app_l_Some.
  - intros r [Hr|Hr%list_elem_of_singleton]%elem_of_app.
    + destruct (inv_ends _ _ Hinv r Hr) as [?|(a & Ha & ?)]; [by left|].
      right. exists a. split; [|done]. apply elem_of_app. by left.
    + subst r. destruct Hrn as [->| ->].
      * right. exists e. split; [|done]. apply elem_of_app. right. by apply list_elem_of_singleton.
      * assert (rl ∈ dp) as Hin by (by eapply list_elem_of_lookup_2).
        destruct (inv_ends _ _ Hinv rl Hin) as [?|(a & Ha & ?)]; [by left|].
        right. exists a. split; [|done]. apply elem_of_app. by left.
  - intros a b r r' Hab Ha Hb.
    destruct (decide (b < length dp)%nat) as [Hlt|Hge].
    + rewrite lookup_app_l in Ha by lia. rewrite lookup_app_l in Hb by lia.
      by eapply (inv_mono _ _ Hinv a b).
    + assert (b = length dp) as ->.
      { apply lookup_lt_Some in Hb. rewrite length_app in Hb. simpl in Hb. lia. }
      rewrite list_lookup_middle in Hb by done. injection Hb as <-.
      destruct (decide (a < length dp)%nat) as [Hlt|Hge'].
      * rewrite lookup_app_l in Ha by lia.
        eapply lex_le_trans; [by eapply Hlex_last|done].
      * assert (a = length dp) as -> by lia.
        rewrite list_lookup_middle in Ha by done. injection Ha as <-. apply lex_le_refl.
  - intros s t Hsub Hind Hfit Ht.
    apply sublist_app_r in Hsub as (s1 & s2 & -> & Hs1 & Hs2).
    apply sublist_cons_r in Hs2 as [Hs2|(s2' & -> & Hs2)].
    + apply sublist_nil_r in Hs2 as ->. rewrite app_nil_r in *.
      destruct (inv_opt _ _ Hinv s1 t Hs1 Hind Hfit Ht) as (k & r & Hk & ? & ?).
      exists k, r. split; [by apply lookup_app_l_Some|done].
    + apply sublist_nil_r in Hs2 as ->.
      apply independent_snoc in Hind as [Hind Hdisj].
      apply Forall_app in Hfit as [Hfit1 Hfite]. apply Forall_inv in Hfite.
      assert (Hbefore : Forall (λ a, Entity.stop a <= Entity.start e) s1).
      { apply Forall_forall. intros a Ha.
        assert (a ∈ l) as Hal by (by eapply elem_of_sublist).
        apply disjoint_before; [|done| |].
        - eapply Forall_forall in Hvl; [|exact Hal]. by destruct Hvl.
        - eapply Forall_forall in Hsorted; [exact Hsorted|done].
        - eapply Forall_forall in Hdisj; [exact Hdisj|done]. }
      destruct (inv_opt _ _ Hinv s1 (Entity.start e) Hs1 Hind Hbefore Hs)
        as (k & r & Hk & Hkend & Hkval).
      assert (k ≤ i)%nat as Hki.
      { destruct (decide (k ≤ i)%nat); [done|].
        specialize (Habove k r ltac:(lia) Hk). lia. }
      pose proof (inv_mono _ _ Hinv k i r ri Hki Hk Hi) as Hmono.
      exists (length dp), rn. split; [by apply list_lookup_middle|]. split; [lia|].
      eapply lex_le_trans; [|exact Hcand].
      rewrite objective_snoc. unfold lex_le, row_value in *. simpl in *. lia.
  - intros r [Hr|Hr%list_elem_of_singleton]%elem_of_app.
    + destruct (inv_ach _ _ Hinv r Hr) as (s & ? & ? & ? & ?).
      exists s. split; [|done]. by apply sublist_inserts_r.
    + subst r. destruct Hrn as [->| ->].
      * assert (ri ∈ dp) as Hin by (by eapply list_elem_of_lookup_2).
        destruct (inv_ach _ _ Hinv ri Hin) as (s & Hsub & Hind & Hfit & Hval).
        exists (s ++ [e]). split; [by apply sublist_app|]. split.
        { apply independent_snoc. split; [done|].
          eapply Forall_impl; [exact Hfit|]. intros a Ha. apply before_disjoint. simpl in Ha. lia. }
        split.
        { apply Forall_app. split; [|by apply Forall_singleton].
          eapply Forall_impl; [exact Hfit|]. intros a Ha. simpl in *.
          unfold Entity.wf in Hwf. lia. }
        rewrite objective_snoc, Hval. done.
      * assert (rl ∈ dp) as Hin by (by eapply list_elem_of_lookup_2).
        destruct (inv_ach _ _ Hinv rl Hin) as (s & ? & ? & ? & ?).
        exists s. split; [|done]. by apply sublist_inserts_r.
Qed.

End table.

Section sorting_facts.
Context {A : Type} (le : A → A → bool).
Hypothesis le_total : ∀ x y, le x y = false → le y x = true.
Hypothesis le_trans : ∀ x y z, le x y = true → le y z = true → le x z = true.

Lemma insert_by_perm x l : insert_by le x l ≡ₚ x :: l.
Proof.
  induction l as [|y l IH]; simpl; [done|].
  destruct (le x y); [done|]. rewrite IH. apply Permutation_swap.
Qed.

Lemma sorted_by_perm l : sorted_by le l ≡ₚ l.
Proof.
  induction l as [|x l IH]; simpl; [done|].
  rewrite insert_by_perm. by rewrite IH.
Qed.

Lemma insert_by_sorted x l :
  StronglySorted (λ a b, le a b = true) l →
  StronglySorted (λ a b, le a b = true) (insert_by le x l).
Proof.
  induction 1 as [|y l Hl IH Hy]; simpl; [repeat constructor|].
  destruct (le x y) eqn:Hxy.
  - constructor; [by constructor|]. constructor; [done|].
    eapply Forall_impl; [exact Hy|]. intros z Hz. by eapply le_trans.
  - constructor; [done|]. rewrite insert_by_perm. constructor; [|done].
    by apply le_total.
Qed.

Lemma sorted_by_sorted l : StronglySorted (λ a b, le a b = true) (sorted_by le l).
Proof. induction l as [|x l IH]; simpl; [constructor|]. by apply insert_by_sorted. Qed.

End sorting_facts.

Section table_run.
Implicit Types (dp : list DPRow) (l s : list Entity) (e : Entity).

Lemma dp_inv_initial : dp_inv [] [mkRow 0 0 0 None].
Proof.
  constructor.
  - done.
  - intros r ->%list_elem_of_singleton. by left.
  - intros [|i] [|j] r r' _ Hi Hj; try done. injection Hi as <-. injection Hj as <-.
    apply lex_le_refl.
  - intros s t ->%sublist_nil_r _ _ Ht. exists 0%nat, (mkRow 0 0 0 None).
    split; [done|]. split; [done|]. apply lex_le_refl.
  - intros r ->%list_elem_of_singleton. exists []. by repeat split.
Qed.

Lemma dp_run_inv rest : ∀ l dp,
  dp_inv l dp →
  Forall valid_entity l → Forall valid_entity rest →
  Forall (λ a, Forall (λ b, Entity.stop a <= Entity.stop b) rest) l →
  StronglySorted (λ a b, Entity.le_stop a b = true) rest →
  ∃ dp', dp_run dp rest = Some dp' ∧ dp_inv (l ++ rest) dp'.
Proof.
  induction rest as [|e rest IH]; intros l dp Hinv Hvl Hvr Hlr Hsorted.
  - exists dp. by rewrite app_nil_r.
  - apply Forall_cons in Hvr as [Hve Hvr].
    apply StronglySorted_inv in Hsorted as [Hsorted He].
    destruct (dp_step_inv l dp e Hinv Hvl Hve) as (dp1 & Hstep & Hinv1).
    { eapply Forall_impl; [exact Hlr|]. intros a Ha. by apply Forall_inv in Ha. }
    destruct (IH (l ++ [e]) dp1 Hinv1) as (dp' & Hrun & Hinv'); [| done | | done |].
    + apply Forall_app. split; [done|]. by apply Forall_singleton.
    + apply Forall_app. split.
      * eapply Forall_impl; [exact Hlr|]. intros a Ha. by apply Forall_inv_tail in Ha.
      * apply Forall_singleton. eapply Forall_impl; [exact He|].
        intros b Hb. unfold Entity.le_stop in Hb. lia.
    + exists dp'. cbn [dp_run]. rewrite Hstep. cbn [mbind option_bind].
      split; [done|]. by rewrite <- app_assoc in Hinv'.
Qed.

(** On entities with non-negative starts the table is built without an
    exception, and it has the properties of [dp_inv] for the sorted input. *)
Lemma dp_table_inv l :
  Forall valid_entity l →
  ∃ dp, dp_table l = Some dp ∧ dp_inv (sorted_by Entity.le_stop l) dp.
Proof.
  intros Hv. unfold dp_table.
  destruct (dp_run_inv (sorted_by Entity.le_stop l) [] [mkRow 0 0 0 None])
    as (dp & Hrun & Hinv); [apply dp_inv_initial|constructor| |constructor| |by exists dp].
  - by rewrite sorted_by_perm.
  - apply sorted_by_sorted; unfold Entity.le_stop; intros; lia.
Qed.

Lemma stops_bounded s : ∃ t, 0 <= t ∧ Forall (λ a, Entity.stop a <= t) s.
Proof.
  induction s as [|a s (t & Ht & IH)]; [exists 0; by split|].
  exists (Z.max t (Entity.stop a)). split; [lia|]. constructor; [lia|].
  eapply Forall_impl; [exact IH|]. intros b Hb. simpl in Hb. lia.
Qed.

(** The last row of the table is the optimum over the selections of input
    entities in which no two intersect, and one such selection has its
    value. *)
Lemma dp_table_optimal l :
  Forall valid_entity l →
  ∃ dp row_last,
    dp_table l = Some dp ∧ last dp = Some row_last
    ∧ (∀ s, s ⊆+ l → independent s → lex_le (objective s) (row_value row_last))
    ∧ (∃ s, s ⊆+ l ∧ independent s ∧ objective s = row_value row_last).
Proof.
  intros Hv. destruct (dp_table_inv l Hv) as (dp & Htable & Hinv).
  pose proof (inv_head _ _ Hinv) as H0.
  destruct (last dp) as [rl|] eqn:Hlast.
  2:{ apply last_None in Hlast. by subst. }
  assert (Hlast_idx : dp !! (length dp - 1)%nat = Some rl).
  { rewrite last_lookup in Hlast. by replace (length dp - 1)%nat with (pred (length dp)) by lia. }
  exists dp, rl. split; [done|]. split; [done|]. split.
  - intros s Hs Hind.
    rewrite <- (sorted_by_perm Entity.le_stop l) in Hs.
    apply submseteq_sublist_r in Hs as (s' & Hperm & Hsub).
    destruct (stops_bounded s') as (t & Ht & Hfit).
    destruct (inv_opt _ _ Hinv s' t Hsub (independent_perm _ _ Hperm Hind) Hfit Ht)
      as (k & r & Hk & _ & Hle).
    rewrite (objective_perm _ _ Hperm).
    eapply lex_le_trans; [exact Hle|].
    apply (inv_mono _ _ Hinv k (length dp - 1)%nat); [|done..].
    apply lookup_lt_Some in Hk. lia.
  - destruct (inv_ach _ _ Hinv rl) as (s & Hsub & Hind & _ & Hval).
    { by eapply list_elem_of_lookup_2. }
    exists s. split; [|done].
    rewrite <- (sorted_by_perm Entity.le_stop l). by apply sublist_submseteq.
Qed.

End table_run.

(** ** filter_nested_entities: the backward walk *)

Section walk.
Implicit Types (dp : list DPRow) (l s : list Entity) (e : Entity).

(** Every row but the first of the table took an entity, and ends where
    that entity ends. *)
Lemma chain_ok_rows xs : ∀ y ys,
  chain_ok (xs ++ y :: ys) →
  Forall (λ r, ∃ e, last_entity r = Some e ∧ Entity.wf e
                    ∧ position_end r = Entity.stop e) xs.
Proof.
  induction xs as [|x xs IH]; intros y ys H; [constructor|].
  inversion H as [Heq|r e seg ri rest He Hwf Hend Hseg Hri Hn Hs Hrest [Hx Heq]].
  - by destruct xs.
  - subst x. constructor; [by exists e|].
    rewrite Heq in Hrest. by eapply IH.
Qed.

Lemma wf_intersects_self e : Entity.wf e → Entity.intersects e e.
Proof. intros Hwf. apply intersects_iff; unfold Entity.wf in *; [done..|lia]. Qed.

(** One step of the table loop keeps the shape the walk relies on, and the
    rows hold entities of the input. *)
Lemma dp_step_chain l dp e :
  dp_inv l dp → chain_ok (rev dp) →
  (∀ r a, r ∈ dp → last_entity r = Some a → a ∈ l) →
  valid_entity e → Forall (λ a, Entity.stop a <= Entity.stop e) l →
  ∀ dp', dp_step dp e = Some dp' →
  chain_ok (rev dp') ∧ (∀ r a, r ∈ dp' → last_entity r = Some a → a ∈ l ++ [e]).
Proof.
  intros Hinv Hchain Hmem [Hs Hwf] Hsorted dp'.
  destruct (search_back_spec l dp e Hinv Hs) as (i & ri & Hsearch & Hi & Hend & Habove).
  destruct (last dp) as [rl|] eqn:Hlast.
  2:{ apply last_None in Hlast. subst dp. by pose proof (inv_head _ _ Hinv). }
  unfold dp_step. rewrite Hsearch. cbn [mbind option_bind].
  rewrite getitem_nat, Hi. cbn [mbind option_bind].
  rewrite getitem_last, Hlast. cbn [mbind option_bind].
  assert (Hcnt : 0 <= num_entities ri).
  { destruct (inv_ach _ _ Hinv ri) as (s & _ & _ & _ & Hval);
      [by eapply list_elem_of_lookup_2|].
    unfold objective, row_value in Hval. injection Hval as Hval _. lia. }
  assert (Hsplit : rev dp = rev (drop (S i) dp) ++ ri :: rev (take i dp)).
  { rewrite <- (take_drop (S i) dp) at 1. rewrite rev_app_distr.
    rewrite (take_S_r dp i ri Hi), rev_app_distr. simpl. done. }
  destruct (_ || _) eqn:Htest; intros [= <-].
  - (* a new row for [e] *)
    rewrite rev_app_distr. simpl. split.
    + rewrite Hsplit. eapply (chain_cons _ e); try done.
      * rewrite Hsplit in Hchain. apply chain_ok_rows in Hchain.
        apply Forall_forall. intros rj Hrj.
        pose proof Hrj as Hfacts.
        eapply Forall_forall in Hfacts; [|exact Hchain].
        destruct Hfacts as (ej & Hej & Hwfj & Hendj). exists ej. split; [done|].
        apply (proj1 (elem_of_rev _ _)), list_elem_of_lookup in Hrj as [j Hj].
        rewrite lookup_drop in Hj.
        pose proof (Habove (S i + j)%nat rj ltac:(lia) Hj) as Hgt.
        assert (position_end rj <= Entity.stop e) as Hle.
        { destruct (inv_ends _ _ Hinv rj) as [H0|(a & Ha & Hpa)];
            [by eapply list_elem_of_lookup_2|unfold Entity.wf in Hwf; lia|].
          rewrite Hpa. eapply Forall_forall in Hsorted; [exact Hsorted|done]. }
        apply intersects_iff; [done..|]. unfold Entity.wf in *. lia.
      * by rewrite <- Hsplit.
    + intros r a [Hr|Hr%list_elem_of_singleton]%elem_of_app Ha.
      * apply elem_of_app. left. by eapply Hmem.
      * subst r. simpl in Ha. injection Ha as <-. apply elem_of_app. right.
        by apply list_elem_of_singleton.
  - (* the last row again *)
    rewrite rev_app_distr. simpl. split.
    + assert (Hrev : rev dp = rl :: rev (removelast dp)).
      { destruct dp as [|x dp _] using rev_ind; [done|].
        rewrite last_snoc in Hlast. injection Hlast as ->.
        rewrite removelast_last, rev_app_distr. done. }
      rewrite Hrev in Hchain |- *.
      inversion Hchain as [[Hrl Htail]|r e0 seg ri0 rest He0 Hwf0 Hend0 Hseg Hri0 Hn0 Hs0 Hrest [Hr Htail]].
      * (* the table is the first row alone: the test cannot fail *)
        exfalso. subst rl.
        assert (dp = [mkRow 0 0 0 None]) as ->.
        { apply (f_equal (@rev DPRow)) in Hrev. rewrite rev_involutive in Hrev.
          rewrite Hrev, <- Htail. done. }
        destruct i as [|i]; [|done]. injection Hi as <-. simpl in Htest. done.
      * subst r. rewrite <- Htail in *.
        apply (chain_cons rl e0 (rl :: seg) ri0 rest); try done.
        constructor; [|done]. exists e0. split; [done|]. by apply wf_intersects_self.
    + intros r a [Hr|Hr%list_elem_of_singleton]%elem_of_app Ha.
      * apply elem_of_app. left. by eapply Hmem.
      * subst r. apply elem_of_app. left. eapply Hmem; [|done].
        rewrite last_lookup in Hlast. by eapply list_elem_of_lookup_2.
Qed.

Lemma dp_run_chain rest : ∀ l dp dp',
  dp_inv l dp → chain_ok (rev dp) →
  (∀ r a, r ∈ dp → last_entity r = Some a → a ∈ l) →
  Forall valid_entity l → Forall valid_entity rest →
  Forall (λ a, Forall (λ b, Entity.stop a <= Entity.stop b) rest) l →
  StronglySorted (λ a b, Entity.le_stop a b = true) rest →
  dp_run dp rest = Some dp' →
  chain_ok (rev dp') ∧ (∀ r a, r ∈ dp' → last_entity r = Some a → a ∈ l ++ rest).
Proof.
  induction rest as [|e rest IH]; intros l dp dp' Hinv Hchain Hmem Hvl Hvr Hlr Hsorted Hrun.
  - injection Hrun as <-. by rewrite app_nil_r.
  - apply Forall_cons in Hvr as [Hve Hvr].
    apply StronglySorted_inv in Hsorted as [Hsorted He].
    assert (Hle : Forall (λ a, Entity.stop a <= Entity.stop e) l).
    { eapply Forall_impl; [exact Hlr|]. intros a Ha. by apply Forall_inv in Ha. }
    destruct (dp_step_inv l dp e Hinv Hvl Hve Hle) as (dp1 & Hstep & Hinv1).
    cbn [dp_run] in Hrun. rewrite Hstep in Hrun. cbn [mbind option_bind] in Hrun.
    destruct (dp_step_chain l dp e Hinv Hchain Hmem Hve Hle dp1 Hstep) as [Hchain1 Hmem1].
    replace (l ++ e :: rest) with ((l ++ [e]) ++ rest) by (by rewrite <- app_assoc).
    eapply (IH (l ++ [e]) dp1); try done.
    + apply Forall_app. split; [done|]. by apply Forall_singleton.
    + apply Forall_app. split.
      * eapply Forall_impl; [exact Hlr|]. intros a Ha. by apply Forall_inv_tail in Ha.
      * apply Forall_singleton. eapply Forall_impl; [exact He|].
        intros b Hb. unfold Entity.le_stop in Hb. lia.
Qed.

(** The walk only returns entities held by the rows it reads. *)
Lemma walk_back_elem reversed : ∀ p a,
  a ∈ walk_back reversed p → ∃ r, r ∈ reversed ∧ last_entity r = Some a.
Proof.
  induction reversed as [|r reversed IH]; intros p a Ha; simpl in Ha.
  - by apply elem_of_nil in Ha.
  - destruct (last_entity r) as [e|] eqn:He; [|by apply elem_of_nil in Ha].
    destruct (position_end r <=? p).
    + apply elem_of_cons in Ha as [->|Ha].
      * exists r. split; [by left|done].
      * destruct (IH _ _ Ha) as (r' & ? & ?). exists r'. split; [by right|done].
    + destruct (IH _ _ Ha) as (r' & ? & ?). exists r'. split; [by right|done].
Qed.

(** Rows whose entities intersect [e] contribute nothing to a walk whose
    result avoids [e]. *)
Lemma walk_back_skip e seg : ∀ rest p,
  Forall (λ rj, ∃ ej, last_entity rj = Some ej ∧ Entity.intersects e ej) seg →
  Forall (λ b, ¬ Entity.intersects e b) (walk_back (seg ++ rest) p) →
  walk_back (seg ++ rest) p = walk_back rest p.
Proof.
  induction seg as [|rj seg IH]; intros rest p Hseg Hfree; [done|].
  apply Forall_cons in Hseg as [(ej & Hej & Hint) Hseg].
  simpl in *. rewrite Hej in *.
  destruct (position_end rj <=? p).
  - apply Forall_inv in Hfree. done.
  - by apply IH.
Qed.

(** The shape holds from any row downwards. *)
Lemma chain_ok_suffix xs : ∀ y ys, chain_ok (xs ++ y :: ys) → chain_ok (y :: ys).
Proof.
  induction xs as [|x xs IH]; intros y ys H; [done|].
  inversion H as [Heq|r e seg ri rest He Hwf Hend Hseg Hri Hn Hs Hrest [Hx Heq]].
  - by destruct xs.
  - rewrite Heq in Hrest. by eapply IH.
Qed.

(** Read from a row that ends at or before [p], a walk whose result is
    independent is worth at least that row. *)
Lemma walk_back_lower (n : nat) : ∀ reversed,
  (length reversed ≤ n)%nat → chain_ok reversed →
  ∀ p r rest, reversed = r :: rest → position_end r <= p →
  independent (walk_back reversed p) →
  lex_le (row_value r) (objective (walk_back reversed p)).
Proof.
  induction n as [|n IH]; intros reversed Hlen Hchain p r0 rest0 Heq Hp Hind.
  { subst reversed. simpl in Hlen. lia. }
  destruct Hchain as [|r e seg ri rest He Hwf Hend Hseg Hri Hn Hs Hrest].
  - injection Heq as <- <-. simpl. apply lex_le_refl.
  - injection Heq as <- <-. cbn [walk_back] in *. rewrite He in *.
    destruct (Z.leb_spec (position_end r) p); [|lia].
    cbn [independent] in Hind. destruct Hind as [Hfree Hind].
    rewrite (walk_back_skip e seg) in * by done.
    assert (Hp' : position_end ri <= p - Entity.span_len e).
    { rewrite span_len_wf by done. lia. }
    assert (Hlen' : (length (ri :: rest) ≤ n)%nat).
    { simpl in Hlen. rewrite length_app in Hlen. simpl in *. lia. }
    pose proof (IH (ri :: rest) Hlen' (chain_ok_suffix seg ri rest Hrest)
                   (p - Entity.span_len e) ri rest eq_refl Hp' Hind) as Hlow.
    unfold lex_le, row_value, objective, total_length in *. simpl in *.
    pose proof (span_len_wf e Hwf). lia.
Qed.

Lemma independent_NoDup s : Forall Entity.wf s → independent s → NoDup s.
Proof.
  induction s as [|a s IH]; intros Hwf Hind; [constructor|].
  apply Forall_cons in Hwf as [Ha Hwf]. destruct Hind as [Hfree Hind].
  constructor; [|by apply IH].
  intros Hin. eapply Forall_forall in Hfree; [|exact Hin].
  apply Hfree. by apply wf_intersects_self.
Qed.

Lemma lex_le_antisym (x y : Z * Z) : lex_le x y → lex_le y x → x = y.
Proof. destruct x, y. unfold lex_le. simpl. intros ? ?. f_equal; lia. Qed.

(** When the list the resolver returns is independent, it is a selection
    of input entities with the value of the last row of the table. *)
Lemma resolve_nested_independent l out :
  Forall valid_entity l →
  resolve_nested l = Some out → independent out →
  out ⊆+ l
  ∧ ∃ dp row_last, dp_table l = Some dp ∧ last dp = Some row_last
                   ∧ objective out = row_value row_last.
Proof.
  intros Hv Hout Hind.
  destruct (dp_table_optimal l Hv) as (dp & rl & Htable & Hlast & Hopt & _).
  destruct (dp_table_inv l Hv) as (dp0 & Htable0 & Hinv).
  rewrite Htable in Htable0. injection Htable0 as <-.
  assert (Hsorted_valid : Forall valid_entity (sorted_by Entity.le_stop l)).
  { by rewrite sorted_by_perm. }
  destruct (dp_run_chain (sorted_by Entity.le_stop l) [] [mkRow 0 0 0 None] dp)
    as [Hchain Hmem]; try done.
  { apply dp_inv_initial. }
  { constructor. }
  { intros r a ->%list_elem_of_singleton. done. }
  { apply sorted_by_sorted; unfold Entity.le_stop; intros; lia. }
  simpl in Hmem.
  unfold resolve_nested, independent_set in Hout. rewrite Htable in Hout.
  cbn [mbind option_bind] in Hout. rewrite getitem_last, Hlast in Hout.
  cbn [mbind option_bind] in Hout. injection Hout as <-.
  assert (Hsub : walk_back (rev dp) (position_end rl) ⊆+ l).
  { apply NoDup_submseteq.
    - apply independent_NoDup; [|done]. apply Forall_forall. intros a Ha.
      apply walk_back_elem in Ha as (r & Hr & Ha).
      apply (proj1 (elem_of_rev _ _)) in Hr.
      eapply Forall_forall in Hsorted_valid; [|by eapply Hmem].
      by destruct Hsorted_valid.
    - intros a Ha. apply walk_back_elem in Ha as (r & Hr & Ha).
      apply (proj1 (elem_of_rev _ _)) in Hr.
      rewrite <- (sorted_by_perm Entity.le_stop l). by eapply Hmem. }
  split; [done|]. exists dp, rl. split; [done|]. split; [done|].
  apply lex_le_antisym; [by apply Hopt|].
  assert (Hrev : ∃ rest, rev dp = rl :: rest).
  { destruct dp as [|x dp _] using rev_ind; [done|].
    rewrite last_snoc in Hlast. injection Hlast as ->.
    rewrite rev_app_distr. by eexists. }
  destruct Hrev as [rest Hrev].
  by eapply (walk_back_lower (length (rev dp)) (rev dp) (le_n _) Hchain
               (position_end rl) rl rest).
Qed.

End walk.

(** ** filter_nested_entities: the selected entities *)

Lemma resolve_nested_returns (l : list Entity) :
  Forall valid_entity l → is_Some (resolve_nested l).
Proof.
  intros Hv. destruct (dp_table_optimal l Hv) as (dp & rl & Htable & Hlast & _).
  unfold resolve_nested, independent_set. rewrite Htable. cbn [mbind option_bind].
  rewrite getitem_last, Hlast. by eexists.
Qed.

(** C1, at the document [(0,3) (1,5) (20,22)]: the resolver returns all
    three entities, although [(0,3)] and [(1,5)] overlap; the entity list it
    produces is not pairwise non-overlapping. *)
Theorem resolver_keeps_overlap :
  let a := Entity.mk 0 3 "A" in
  let b := Entity.mk 1 5 "B" in
  let c := Entity.mk 20 22 "C" in
  resolve_nested [a; b; c] = Some [c; b; a]
  ∧ Entity.overlaps a b = true
  ∧ Entity.intersects a b
  ∧ ¬ independent [c; b; a].
Proof.
  simpl. split; [by vm_compute|]. split; [done|].
  assert (Hab : Entity.intersects (Entity.mk 0 3 "A") (Entity.mk 1 5 "B")).
  { exists 1. simpl. lia. }
  split; [done|].
  intros (_ & Hb & _). apply Forall_inv in Hb. apply Hb. by apply intersects_sym.
Qed.

(** C2 as stated fails at its own example: on
    [(0,5,X) (3,10,Y) (10,15,X)] the resolver returns [(10,15,X)] and
    [(3,10,Y)], which is not the set [{(0,5,X), (10,15,X)}]. *)
Theorem resolver_example_output :
  let input := [Entity.mk 0 5 "X"; Entity.mk 3 10 "Y"; Entity.mk 10 15 "X"] in
  resolve_nested input = Some [Entity.mk 10 15 "X"; Entity.mk 3 10 "Y"]
  ∧ ¬ (∃ out, resolve_nested input = Some out
              ∧ out ≡ₚ [Entity.mk 0 5 "X"; Entity.mk 10 15 "X"]).
Proof.
  simpl.
  assert (Hrun : resolve_nested [Entity.mk 0 5 "X"; Entity.mk 3 10 "Y"; Entity.mk 10 15 "X"]
                 = Some [Entity.mk 10 15 "X"; Entity.mk 3 10 "Y"]) by (by vm_compute).
  split; [done|]. intros (out & Hout & Hperm). rewrite Hrun in Hout. injection Hout as <-.
  assert (Hin : Entity.mk 3 10 "Y" ∈ [Entity.mk 0 5 "X"; Entity.mk 10 15 "X"]).
  { rewrite <- Hperm. apply elem_of_cons. right. by apply list_elem_of_singleton. }
  repeat (apply elem_of_cons in Hin as [Hin|Hin]; [discriminate|]).
  by apply elem_of_nil in Hin.
Qed.

(** C2, amended. For entities with [0 <= start < stop] the table is built
    without an exception and its last row is optimal for the two-level
    objective: no selection of input entities in which no two intersect
    has more entities, or as many and a larger total length, and one such
    selection has exactly the row's count and total length. Whenever the
    list the resolver returns is pairwise non-intersecting, it is such an
    optimal selection. On [(0,5,X) (3,10,Y) (10,15,X)] the resolver returns
    [(10,15,X)] and [(3,10,Y)]: count 2, total length 12. *)
Theorem resolver_table_optimal (entities : list Entity)
    (Hvalid : Forall valid_entity entities) :
  (∃ dp_array row_last,
     dp_table entities = Some dp_array
     ∧ getitem dp_array (-1) = Some row_last
     ∧ (∀ s, s ⊆+ entities → independent s →
             lex_le (objective s) (num_entities row_last, sum_lengths row_last))
     ∧ (∃ s, s ⊆+ entities ∧ independent s
             ∧ objective s = (num_entities row_last, sum_lengths row_last))
     ∧ (∀ out, resolve_nested entities = Some out → independent out →
               out ⊆+ entities
               ∧ objective out = (num_entities row_last, sum_lengths row_last)))
  ∧ resolve_nested [Entity.mk 0 5 "X"; Entity.mk 3 10 "Y"; Entity.mk 10 15 "X"]
    = Some [Entity.mk 10 15 "X"; Entity.mk 3 10 "Y"]
  ∧ objective [Entity.mk 10 15 "X"; Entity.mk 3 10 "Y"] = (2, 12).
Proof.
  split; [|split; by vm_compute].
  destruct (dp_table_optimal entities Hvalid) as (dp & rl & Htable & Hlast & Hopt & Hach).
  exists dp, rl. rewrite getitem_last. do 4 (split; [done|]).
  intros out Hout Hind.
  destruct (resolve_nested_independent entities out Hvalid Hout Hind)
    as (Hsub & dp' & rl' & Htable' & Hlast' & Hval).
  rewrite Htable in Htable'. injection Htable' as <-.
  rewrite Hlast in Hlast'. injection Hlast' as <-. done.
Qed.

(** The table theorem at the example of the specification. *)
Lemma resolver_table_optimal_witness :
  Forall valid_entity [Entity.mk 0 5 "X"; Entity.mk 3 10 "Y"; Entity.mk 10 15 "X"]
  ∧ ∃ dp_array row_last,
      dp_table [Entity.mk 0 5 "X"; Entity.mk 3 10 "Y"; Entity.mk 10 15 "X"] = Some dp_array
      ∧ getitem dp_array (-1) = Some row_last
      ∧ (num_entities row_last, sum_lengths row_last) = (2, 12).
Proof.
  assert (Hv : Forall valid_entity
                 [Entity.mk 0 5 "X"; Entity.mk 3 10 "Y"; Entity.mk 10 15 "X"]).
  { repeat constructor; unfold Entity.wf; simpl; lia. }
  split; [exact Hv|].
  destruct (resolver_table_optimal _ Hv) as [(dp & rl & Htable & Hlast & _) _].
  exists dp, rl. split; [done|]. split; [done|].
  vm_compute in Htable. injection Htable as <-. vm_compute in Hlast. by injection Hlast as <-.
Defined.

(** ** filter_nested_entities: the warning *)

Lemma dict_mapM_Some {A B : Type} (f : A → option B) (d : gmap string A) :
  (∀ k x, d !! k = Some x → is_Some (f x)) → dict_mapM f d = Some (omap f d).
Proof.
  intros H. unfold dict_mapM. destruct (decide _) as [|Hn]; [done|].
  exfalso. apply Hn. by apply map_Forall_lookup.
Qed.

(** On a dataset of entities with [0 <= start < stop] the resolver returns;
    [warn] is called exactly when the total length of the lists after
    differs from the total before, with the difference as its number; and
    when every list is empty, every list stays empty and [warn] is not
    called. *)
Lemma filter_nested_entities_warns (dataset : InternalBioNerDataset Entity)
    (Hvalid : ∀ id es, entities_per_document dataset !! id = Some es →
                       Forall valid_entity es) :
  ∃ dataset' warning,
    filter_nested_entities dataset = Some (dataset', warning)
    ∧ documents dataset' = documents dataset
    ∧ (∀ id, entities_per_document dataset' !! id
             = entities_per_document dataset !! id ≫= resolve_nested)
    ∧ (is_Some warning
       ↔ count_entities (entities_per_document dataset')
         ≠ count_entities (entities_per_document dataset))
    ∧ (∀ removed, warning = Some removed →
         removed = count_entities (entities_per_document dataset)
                   - count_entities (entities_per_document dataset'))
    ∧ ((∀ id es, entities_per_document dataset !! id = Some es → es = []) →
       warning = None
       ∧ ∀ id es, entities_per_document dataset' !! id = Some es → es = []).
Proof.
  unfold filter_nested_entities.
  rewrite dict_mapM_Some.
  2:{ intros k es Hk. apply resolve_nested_returns. by eapply Hvalid. }
  cbn [mbind option_bind]. eexists _, _. split; [done|]. split; [done|].
  cbn [entities_per_document].
  set (before := count_entities (entities_per_document dataset)).
  set (after := count_entities (omap resolve_nested (entities_per_document dataset))).
  split; [intros id; apply lookup_omap|].
  split.
  { destruct (decide (before ≠ after)) as [Hne|Heq].
    - split; [intros _; congruence|by eexists].
    - split; [by intros [? ?]|]. intros Hne. exfalso. apply Heq. congruence. }
  split.
  { intros removed. destruct (decide (before ≠ after)); [|done]. by intros [= <-]. }
  intros Hempty.
  assert (Hsame : omap resolve_nested (entities_per_document dataset)
                  = entities_per_document dataset).
  { apply map_eq. intros id. rewrite lookup_omap.
    destruct (entities_per_document dataset !! id) as [es|] eqn:Hid; [|done].
    rewrite (Hempty id es Hid). done. }
  split.
  - subst before after. rewrite Hsame. destruct (decide _) as [Hne|]; [|done]. by destruct Hne.
  - intros id es. rewrite Hsame. apply Hempty.
Qed.

(** C7, at one document with the entities
    [(0,2,A) (1,3,B) (1,3,B2) (2,4,C) (6,7,D)]: the resolver returns
    [D, C, A, A] and [warn] reports 1 removed entity, although two entities
    of the document, [B] and [B2], are removed. The number reported is the
    difference of the list lengths, and the new list holds [A] twice: the
    backward walk lowers [p] by the length of the entity it takes, so the
    two rows that repeat the row of [A] both pass [dp_entry[0] <= p]. *)
Theorem filter_nested_entities_miscount :
  let a := Entity.mk 0 2 "A" in
  let b := Entity.mk 1 3 "B" in
  let b2 := Entity.mk 1 3 "B2" in
  let c := Entity.mk 2 4 "C" in
  let d := Entity.mk 6 7 "D" in
  let dataset := mkDataset {["doc" := "ab cd  e"]} {["doc" := [a; b; b2; c; d]]} in
  Forall valid_entity [a; b; b2; c; d]
  ∧ filter_nested_entities dataset
    = Some (mkDataset {["doc" := "ab cd  e"]} {["doc" := [d; c; a; a]]}, Some 1)
  ∧ removed_entities [a; b; b2; c; d] [d; c; a; a] = [b; b2]
  ∧ Z.of_nat (length (removed_entities [a; b; b2; c; d] [d; c; a; a])) ≠ 1
  ∧ ¬ NoDup [d; c; a; a].
Proof.
  simpl. split; [repeat constructor; unfold Entity.wf; simpl; lia|].
  split; [by vm_compute|]. split; [by vm_compute|]. split; [by vm_compute|].
  intros Hnd. apply NoDup_cons in Hnd as [_ Hnd]. apply NoDup_cons in Hnd as [_ Hnd].
  apply NoDup_cons in Hnd as [Hnin _]. apply Hnin. by left.
Qed.

(** ** CoNLLWriter: the token loop *)

Section token_loop_facts.
Variables (document_text sentence : string) (sentence_offset : Z).
Implicit Types (c : Cursor) (e : Entity) (tokens : list (string * Z)) (rows : list Row).

Lemma str_getitem_nat (s : string) (i : Z) :
  0 <= i → str_getitem s i = list_ascii_of_string s !! Z.to_nat i.
Proof.
  intros Hi. unfold str_getitem, getitem. by destruct (Z.leb_spec 0 i); [|lia].
Qed.

Lemma length_list_ascii (s : string) :
  length (list_ascii_of_string s) = String.length s.
Proof. induction s as [|a s IH]; simpl; [done|]. by rewrite IH. Qed.

(** The subscript of the marker does not raise when the sentence lies
    inside the text. *)
Lemma whitespace_marker_returns (next_token_offset sentence_end_offset : Z) :
  0 <= next_token_offset → sentence_end_offset <= str_len document_text →
  is_Some (whitespace_marker document_text next_token_offset sentence_end_offset).
Proof.
  intros Hn Hend. unfold whitespace_marker.
  destruct (Z.ltb_spec next_token_offset sentence_end_offset); [|by eexists].
  rewrite str_getitem_nat by done.
  destruct (lookup_lt_is_Some_2 (list_ascii_of_string document_text)
              (Z.to_nat next_token_offset)) as [ch ->].
  { rewrite length_list_ascii. unfold str_len in Hend. lia. }
  by eexists.
Qed.

Lemma str_len_nonneg (s : string) : 0 <= str_len s.
Proof. unfold str_len. lia. Qed.

Lemma token_step_returns st token token_offset :
  0 <= sentence_offset + token_offset →
  sentence_offset + str_len sentence <= str_len document_text →
  is_Some (token_step document_text sentence sentence_offset st token token_offset).
Proof.
  intros Ho Hfit. unfold token_step.
  destruct (advance _ _ _) as [c in_entity].
  destruct (assign_tag _ _ _) as [tag in_entity'].
  destruct (whitespace_marker_returns
              (sentence_offset + token_offset + str_len (strip token))
              (sentence_offset + str_len sentence)) as [w ->]; [|done|by eexists].
  pose proof (str_len_nonneg (strip token)). lia.
Qed.

Lemma token_loop_returns tokens : ∀ st,
  Forall (λ t, 0 <= sentence_offset + t.2) tokens →
  sentence_offset + str_len sentence <= str_len document_text →
  is_Some (token_loop document_text sentence sentence_offset st tokens).
Proof.
  induction tokens as [|[token token_offset] tokens IH]; intros st Hoff Hfit; [by eexists|].
  apply Forall_cons in Hoff as [Ho Hoff]. cbn [token_loop].
  destruct (token_step_returns st token token_offset Ho Hfit) as [[st1 row] ->].
  cbn [mbind option_bind].
  destruct (IH st1 Hoff Hfit) as [[st2 rows] ->]. by eexists.
Qed.

Lemma token_loop_app tokens1 tokens2 st :
  token_loop document_text sentence sentence_offset st (tokens1 ++ tokens2)
  = '(st1, rows1) ← token_loop document_text sentence sentence_offset st tokens1;
    '(st2, rows2) ← token_loop document_text sentence sentence_offset st1 tokens2;
    Some (st2, rows1 ++ rows2).
Proof.
  revert st. induction tokens1 as [|[token token_offset] tokens1 IH]; intros st.
  - cbn [app token_loop mbind option_bind].
    destruct (token_loop _ _ _ st tokens2) as [[st2 rows2]|]; done.
  - cbn [app token_loop].
    destruct (token_step _ _ _ st token token_offset) as [[st1 row]|]; [|done].
    cbn [mbind option_bind]. rewrite IH.
    destruct (token_loop _ _ _ st1 tokens1) as [[st1' rows1]|]; [|done].
    cbn [mbind option_bind].
    destruct (token_loop _ _ _ st1' tokens2) as [[st2 rows2]|]; done.
Qed.

Lemma token_loop_length tokens : ∀ st st' rows,
  token_loop document_text sentence sentence_offset st tokens = Some (st', rows) →
  length rows = length tokens.
Proof.
  induction tokens as [|[token token_offset] tokens IH]; intros st st' rows H.
  - by injection H as <- <-.
  - cbn [token_loop] in H.
    destruct (token_step _ _ _ st token token_offset) as [[st1 row]|]; [|done].
    cbn [mbind option_bind] in H.
    destruct (token_loop _ _ _ st1 tokens) as [[st2 rows2]|] eqn:Hl; [|done].
    injection H as <- <-. simpl. f_equal. by eapply IH.
Qed.

(** A token that starts before the end of the current entity leaves the
    cursor alone, and its tag is [assign_tag] of the flag as it was. *)
Lemma token_step_current c e in_entity token token_offset st' row :
  current_entity c = Some e →
  sentence_offset + token_offset < Entity.stop e →
  token_step document_text sentence sentence_offset (c, in_entity) token token_offset
  = Some (st', row) →
  st'.1 = c
  ∧ row_token row = strip token
  ∧ (row_tag row, st'.2) = assign_tag (sentence_offset + token_offset) (Some e) in_entity.
Proof.
  intros Hc Hlt. unfold token_step, advance. cbn [fst snd]. rewrite Hc.
  destruct (Z.geb_spec (sentence_offset + token_offset) (Entity.stop e)); [lia|].
  rewrite Hc. destruct (assign_tag _ _ _) as [tag flag].
  destruct (whitespace_marker _ _ _) as [w|]; [|done].
  cbn [mbind option_bind]. by intros [= <- <-].
Qed.

(** Tokens that start before the current entity are tagged [O] and leave
    the cursor and a cleared flag as they were. *)
Lemma token_loop_before c e tokens : ∀ st' rows,
  current_entity c = Some e →
  Forall (λ t, sentence_offset + t.2 < Entity.start e) tokens →
  Entity.wf e →
  token_loop document_text sentence sentence_offset (c, false) tokens = Some (st', rows) →
  st' = (c, false) ∧ Forall (λ r, row_tag r = "O") rows.
Proof.
  induction tokens as [|[token token_offset] tokens IH]; intros st' rows Hc Hbefore Hwf H.
  - injection H as <- <-. by split.
  - apply Forall_cons in Hbefore as [Ho Hbefore]. cbn [token_loop] in H. simpl in Ho.
    destruct (token_step _ _ _ (c, false) token token_offset) as [[st1 row]|] eqn:Hstep; [|done].
    cbn [mbind option_bind] in H.
    destruct (token_loop _ _ _ st1 tokens) as [[st2 rows2]|] eqn:Hl; [|done].
    injection H as <- <-.
    destruct (token_step_current c e false token token_offset st1 row Hc) as (H1 & _ & Htag);
      [unfold Entity.wf in Hwf; lia|done|].
    unfold assign_tag, in_range in Htag.
    destruct (Z.leb_spec (Entity.start e) (sentence_offset + token_offset)); [lia|].
    cbn [andb] in Htag. injection Htag as Htag Hflag.
    destruct st1 as [c1 f1]. simpl in H1, Hflag. subst c1 f1.
    destruct (IH st2 rows2 Hc Hbefore Hwf Hl) as [-> Hrows]. split; [done|].
    by constructor.
Qed.

(** Tokens that start before the end of the current entity leave the
    cursor as it was. *)
Lemma token_loop_cursor c e tokens : ∀ in_entity st' rows,
  current_entity c = Some e →
  Forall (λ t, sentence_offset + t.2 < Entity.stop e) tokens →
  token_loop document_text sentence sentence_offset (c, in_entity) tokens = Some (st', rows) →
  st'.1 = c.
Proof.
  induction tokens as [|[token token_offset] tokens IH]; intros in_entity st' rows Hc Hlt H.
  - by injection H as <- <-.
  - apply Forall_cons in Hlt as [Ho Hlt]. cbn [token_loop] in H. simpl in Ho.
    destruct (token_step _ _ _ (c, in_entity) token token_offset) as [[[c1 f1] row]|] eqn:Hstep;
      [|done].
    cbn [mbind option_bind] in H.
    destruct (token_loop _ _ _ (c1, f1) tokens) as [[st2 rows2]|] eqn:Hl; [|done].
    injection H as <- <-.
    destruct (token_step_current c e in_entity token token_offset _ row Hc Ho Hstep)
      as (H1 & _ & _). simpl in H1. subst c1. by eapply IH.
Qed.

(** The first token inside the current entity, after tokens that start
    before it, is tagged [B-]; a token inside the entity that follows it
    directly is tagged [I-]. *)
Lemma token_loop_first_covered c e before token token_offset after st' rows :
  current_entity c = Some e → Entity.wf e →
  Forall (λ t, sentence_offset + t.2 < Entity.start e) before →
  in_range (sentence_offset + token_offset) (Entity.start e) (Entity.stop e) = true →
  token_loop document_text sentence sentence_offset (c, false)
             (before ++ (token, token_offset) :: after) = Some (st', rows) →
  rows !! length before = Some (mkOutRow (strip token) ("B-" +:+ Entity.type e)
                                  (default "" (row_whitespace_after <$> rows !! length before)))
  ∧ ∀ token2 token_offset2 after',
      after = (token2, token_offset2) :: after' →
      in_range (sentence_offset + token_offset2) (Entity.start e) (Entity.stop e) = true →
      rows !! S (length before)
      = Some (mkOutRow (strip token2) ("I-" +:+ Entity.type e)
                (default "" (row_whitespace_after <$> rows !! S (length before)))).
Proof.
  intros Hc Hwf Hbefore Hin H. rewrite token_loop_app in H.
  destruct (token_loop _ _ _ (c, false) before) as [[st1 rows1]|] eqn:Hl1; [|done].
  cbn [mbind option_bind] in H.
  destruct (token_loop_before c e before st1 rows1 Hc Hbefore Hwf Hl1) as [-> _].
  apply token_loop_length in Hl1.
  cbn [token_loop] in H.
  destruct (token_step _ _ _ (c, false) token token_offset) as [[[c1 f1] row]|] eqn:Hstep; [|done].
  cbn [mbind option_bind] in H.
  destruct (token_loop _ _ _ (c1, f1) after) as [[st2 rows2]|] eqn:Hl2; [|done].
  cbn [mbind option_bind] in H. injection H as <- <-.
  unfold in_range in Hin.
  destruct (token_step_current c e false token token_offset _ row Hc ltac:(lia) Hstep)
    as (H1 & Htok & Htag).
  simpl in H1. subst c1. unfold assign_tag in Htag. unfold in_range in Htag.
  rewrite Hin in Htag. cbn [negb] in Htag. injection Htag as Htag Hflag. simpl in Hflag. subst f1.
  split.
  - rewrite <- Hl1, list_lookup_middle by done. simpl. f_equal.
    destruct row; simpl in *; by subst.
  - intros token2 token_offset2 after' -> Hin2. cbn [token_loop] in Hl2.
    destruct (token_step _ _ _ (c, true) token2 token_offset2) as [[st3 row2]|] eqn:Hstep2; [|done].
    cbn [mbind option_bind] in Hl2.
    destruct (token_loop _ _ _ st3 after') as [[st4 rows4]|]; [|done].
    cbn [mbind option_bind] in Hl2. injection Hl2 as <- <-.
    unfold in_range in Hin2.
    destruct (token_step_current c e true token2 token_offset2 _ row2 Hc ltac:(lia) Hstep2)
      as (_ & Htok2 & Htag2).
    unfold assign_tag in Htag2. unfold in_range in Htag2.
    rewrite Hin2 in Htag2. cbn [negb] in Htag2. injection Htag2 as Htag2 _.
    replace (S (length rows1)) with (length (rows1 ++ [row])) by (rewrite length_app; simpl; lia).
    rewrite <- Hl1.
    replace (rows1 ++ row :: row2 :: rows4) with ((rows1 ++ [row]) ++ row2 :: rows4)
      by (by rewrite <- app_assoc).
    replace (S (length rows1)) with (length (rows1 ++ [row])) by (rewrite length_app; simpl; lia).
    rewrite list_lookup_middle by done. simpl. f_equal.
    destruct row2; simpl in *; by subst.
Qed.

End token_loop_facts.

Section marker_facts.
Variables (document_text sentence : string) (sentence_offset : Z).

Lemma token_step_marker st token token_offset st' row :
  0 <= sentence_offset + token_offset →
  token_step document_text sentence sentence_offset st token token_offset = Some (st', row) →
  marker_spec document_text sentence sentence_offset (token, token_offset) row.
Proof.
  intros Ho. unfold token_step, marker_spec. cbn [fst snd].
  destruct (advance _ _ _) as [c in_entity].
  destruct (assign_tag _ _ _) as [tag in_entity'].
  set (next := sentence_offset + token_offset + str_len (strip token)).
  assert (0 <= next) as Hnext.
  { pose proof (str_len_nonneg (strip token)). lia. }
  unfold whitespace_marker. rewrite str_getitem_nat by done.
  destruct (Z.ltb_spec next (sentence_offset + str_len sentence)) as [Hlt|Hge].
  - destruct (list_ascii_of_string document_text !! Z.to_nat next) as [ch|] eqn:Hch; [|done].
    cbn [mbind option_bind]. intros [= <- <-]. cbn [row_token row_whitespace_after].
    split; [done|]. destruct (isspace ch) eqn:Hsp; cbn [negb].
    + split.
      * split; [done|]. intros (ch' & [= <-] & _ & ?). congruence.
      * done.
    + split.
      * split; [|done]. intros _. by exists ch.
      * intros Hn. exfalso. apply Hn. by exists ch.
  - cbn [mbind option_bind]. intros [= <- <-]. cbn [row_token row_whitespace_after].
    split; [done|]. split; [|done].
    split; [done|]. intros (ch & _ & ? & _). lia.
Qed.

Lemma token_loop_marker tokens : ∀ st st' rows,
  Forall (λ t, 0 <= sentence_offset + t.2) tokens →
  token_loop document_text sentence sentence_offset st tokens = Some (st', rows) →
  Forall2 (marker_spec document_text sentence sentence_offset) tokens rows.
Proof.
  induction tokens as [|[token token_offset] tokens IH]; intros st st' rows Hoff H.
  - injection H as <- <-. constructor.
  - apply Forall_cons in Hoff as [Ho Hoff]. cbn [token_loop] in H.
    destruct (token_step _ _ _ st token token_offset) as [[st1 row]|] eqn:Hstep; [|done].
    cbn [mbind option_bind] in H.
    destruct (token_loop _ _ _ st1 tokens) as [[st2 rows2]|] eqn:Hl; [|done].
    injection H as <- <-. constructor; [by eapply token_step_marker|by eapply IH].
Qed.

End marker_facts.

Section writer_facts.
Variable tokenizer : string → list string * list Z.

(** The tokens of a sentence with their offsets, as the loop pairs them. *)
Let tokens_of (sentence : string) : list (string * Z) :=
  zip (tokenizer sentence).1 (tokenizer sentence).2.

Lemma sentence_step_unfold document_text c sentence sentence_offset :
  sentence_step tokenizer document_text c sentence sentence_offset
  = '(st, rows) ← token_loop document_text sentence sentence_offset (c, false)
                             (tokens_of sentence);
    Some (st.1, rows).
Proof. unfold sentence_step, tokens_of. by destruct (tokenizer sentence). Qed.

Lemma sentence_step_returns document_text c sentence sentence_offset :
  Forall (λ t, 0 <= sentence_offset + t.2) (tokens_of sentence) →
  sentence_offset + str_len sentence <= str_len document_text →
  is_Some (sentence_step tokenizer document_text c sentence sentence_offset).
Proof.
  intros Hoff Hfit. rewrite sentence_step_unfold.
  destruct (token_loop_returns document_text sentence sentence_offset
              (tokens_of sentence) (c, false) Hoff Hfit) as [[st rows] ->].
  by eexists.
Qed.

End writer_facts.

(** C5. In a sentence whose tokens start at non-negative positions of the
    text, every row the token loop produces carries the marker [-] exactly
    when the character at [offset + len(token)] of the fixed text exists,
    lies before the end offset of the sentence and is not whitespace, and
    the marker [+] in every other case; and the loop does produce the rows
    when the sentence lies inside the text. *)
Theorem whitespace_marker_correct (tokenizer : string → list string * list Z)
    (document_text sentence : string) (sentence_offset : Z) (c : Cursor)
    (Hoffsets : Forall (λ t, 0 <= sentence_offset + t.2)
                       (zip (tokenizer sentence).1 (tokenizer sentence).2)) :
  (∀ c' rows,
     sentence_step tokenizer document_text c sentence sentence_offset = Some (c', rows) →
     Forall2 (marker_spec document_text sentence sentence_offset)
             (zip (tokenizer sentence).1 (tokenizer sentence).2) rows)
  ∧ (sentence_offset + str_len sentence <= str_len document_text →
     is_Some (sentence_step tokenizer document_text c sentence sentence_offset)).
Proof.
  split.
  - intros c' rows. rewrite sentence_step_unfold.
    destruct (token_loop _ _ _ _ _) as [[st rows0]|] eqn:Hl; [|done].
    cbn [mbind option_bind]. intros [= <- <-]. by eapply token_loop_marker.
  - by apply sentence_step_returns.
Qed.

(** C4. In a sentence processed with [e] as the current entity, let two
    consecutive tokens start inside the span of [e] and all the tokens
    before them start before it. Then the row of the first has tag
    [B-<type>] and the row of the second has tag [I-<type>]; and the rows
    are produced when the sentence lies inside the text and its tokens
    start at non-negative positions. *)
Theorem tag_continuation (tokenizer : string → list string * list Z)
    (document_text sentence : string) (sentence_offset : Z) (c : Cursor) (e : Entity)
    (before after : list (string * Z)) (token1 token2 : string) (offset1 offset2 : Z)
    (Hcurrent : current_entity c = Some e)
    (Htokens : zip (tokenizer sentence).1 (tokenizer sentence).2
               = before ++ (token1, offset1) :: (token2, offset2) :: after)
    (Hbefore : Forall (λ t, sentence_offset + t.2 < Entity.start e) before)
    (Hfirst : Entity.start e <= sentence_offset + offset1 < Entity.stop e)
    (Hsecond : Entity.start e <= sentence_offset + offset2 < Entity.stop e) :
  (∀ c' rows,
     sentence_step tokenizer document_text c sentence sentence_offset = Some (c', rows) →
     row_token <$> rows !! length before = Some (strip token1)
     ∧ row_tag <$> rows !! length before = Some ("B-" +:+ Entity.type e)
     ∧ row_token <$> rows !! S (length before) = Some (strip token2)
     ∧ row_tag <$> rows !! S (length before) = Some ("I-" +:+ Entity.type e))
  ∧ (Forall (λ t, 0 <= sentence_offset + t.2)
            (zip (tokenizer sentence).1 (tokenizer sentence).2) →
     sentence_offset + str_len sentence <= str_len document_text →
     is_Some (sentence_step tokenizer document_text c sentence sentence_offset)).
Proof.
  split; [|by apply sentence_step_returns].
  intros c' rows. rewrite sentence_step_unfold. rewrite Htokens.
  destruct (token_loop _ _ _ _ _) as [[st rows0]|] eqn:Hl; [|done].
  cbn [mbind option_bind]. intros [= <- <-].
  assert (Entity.wf e) as Hwf by (unfold Entity.wf; lia).
  destruct (token_loop_first_covered document_text sentence sentence_offset c e before
              token1 offset1 ((token2, offset2) :: after) st rows0 Hcurrent Hwf Hbefore)
    as [H1 H2];
    [unfold in_range; lia|exact Hl|].
  specialize (H2 token2 offset2 after eq_refl). rewrite H1.
  rewrite H2 by (unfold in_range; lia). done.
Qed.

(** C10. Let two sentences be processed one after the other with [e] as
    the current entity. In the first, a token starts inside the span of
    [e], the tokens before it start before the span and those after it
    start before its end; in the second, a token starts inside the span and
    the tokens before it start before the span. Then in each of the two
    sentences the row of that token has tag [B-<type>]; and the rows are
    produced when both sentences lie inside the text and their tokens start
    at non-negative positions. *)
Theorem sentence_start_resets_tag (tokenizer : string → list string * list Z)
    (document_text : string) (c : Cursor) (e : Entity)
    (sentence1 sentence2 : string) (offset1 offset2 : Z)
    (before1 after1 before2 after2 : list (string * Z))
    (token1 token2 : string) (token_offset1 token_offset2 : Z)
    (Hcurrent : current_entity c = Some e)
    (Htokens1 : zip (tokenizer sentence1).1 (tokenizer sentence1).2
                = before1 ++ (token1, token_offset1) :: after1)
    (Htokens2 : zip (tokenizer sentence2).1 (tokenizer sentence2).2
                = before2 ++ (token2, token_offset2) :: after2)
    (Hbefore1 : Forall (λ t, offset1 + t.2 < Entity.start e) before1)
    (Hinside1 : Entity.start e <= offset1 + token_offset1 < Entity.stop e)
    (Hafter1 : Forall (λ t, offset1 + t.2 < Entity.stop e) after1)
    (Hbefore2 : Forall (λ t, offset2 + t.2 < Entity.start e) before2)
    (Hinside2 : Entity.start e <= offset2 + token_offset2 < Entity.stop e) :
  (∀ rest c' rowss,
     sentence_loop tokenizer document_text c
                   ((sentence1, offset1) :: (sentence2, offset2) :: rest) = Some (c', rowss) →
     ∃ rows1 rows2 rowss',
       rowss = rows1 :: rows2 :: rowss'
       ∧ row_tag <$> rows1 !! length before1 = Some ("B-" +:+ Entity.type e)
       ∧ row_tag <$> rows2 !! length before2 = Some ("B-" +:+ Entity.type e))
  ∧ (Forall (λ t, 0 <= offset1 + t.2) (zip (tokenizer sentence1).1 (tokenizer sentence1).2) →
     Forall (λ t, 0 <= offset2 + t.2) (zip (tokenizer sentence2).1 (tokenizer sentence2).2) →
     offset1 + str_len sentence1 <= str_len document_text →
     offset2 + str_len sentence2 <= str_len document_text →
     is_Some (sentence_loop tokenizer document_text c
                            [(sentence1, offset1); (sentence2, offset2)])).
Proof.
  assert (Entity.wf e) as Hwf by (unfold Entity.wf; lia).
  assert (Hstep1 : ∀ c1 rows1,
    sentence_step tokenizer document_text c sentence1 offset1 = Some (c1, rows1) →
    c1 = c ∧ row_tag <$> rows1 !! length before1 = Some ("B-" +:+ Entity.type e)).
  { intros c1 rows1. rewrite sentence_step_unfold, Htokens1.
    destruct (token_loop _ _ _ _ _) as [[st rows0]|] eqn:Hl; [|done].
    cbn [mbind option_bind]. intros [= <- <-]. split.
    - eapply (token_loop_cursor document_text sentence1 offset1 c e); [done| |exact Hl].
      apply Forall_app. split.
      + eapply Forall_impl; [exact Hbefore1|]. intros t Ht. simpl in Ht. lia.
      + constructor; [simpl; lia|done].
    - destruct (token_loop_first_covered document_text sentence1 offset1 c e before1
                  token1 token_offset1 after1 st rows0 Hcurrent Hwf Hbefore1) as [H1 _];
        [unfold in_range; lia|exact Hl|].
      by rewrite H1. }
  assert (Hstep2 : ∀ c2 rows2,
    sentence_step tokenizer document_text c sentence2 offset2 = Some (c2, rows2) →
    row_tag <$> rows2 !! length before2 = Some ("B-" +:+ Entity.type e)).
  { intros c2 rows2. rewrite sentence_step_unfold, Htokens2.
    destruct (token_loop _ _ _ _ _) as [[st rows0]|] eqn:Hl; [|done].
    cbn [mbind option_bind]. intros [= <- <-].
    destruct (token_loop_first_covered document_text sentence2 offset2 c e before2
                token2 token_offset2 after2 st rows0 Hcurrent Hwf Hbefore2) as [H1 _];
      [unfold in_range; lia|exact Hl|].
    by rewrite H1. }
  split.
  - intros rest c' rowss. cbn [sentence_loop].
    destruct (sentence_step tokenizer document_text c sentence1 offset1)
      as [[c1 rows1]|] eqn:Hs1; [|done].
    cbn [mbind option_bind]. destruct (Hstep1 c1 rows1 eq_refl) as [-> Htag1].
    destruct (sentence_step tokenizer document_text c sentence2 offset2)
      as [[c2 rows2]|] eqn:Hs2; [|done].
    cbn [mbind option_bind].
    destruct (sentence_loop tokenizer document_text c2 rest) as [[c3 rowss3]|]; [|done].
    cbn [mbind option_bind]. intros [= <- <-].
    exists rows1, rows2, rowss3. split; [done|]. split; [done|].
    exact (Hstep2 c2 rows2 eq_refl).
  - intros Hoff1 Hoff2 Hfit1 Hfit2. cbn [sentence_loop].
    destruct (sentence_step_returns tokenizer document_text c sentence1 offset1 Hoff1 Hfit1)
      as [[c1 rows1] Hs1].
    rewrite Hs1. cbn [mbind option_bind]. destruct (Hstep1 c1 rows1 Hs1) as [-> _].
    destruct (sentence_step_returns tokenizer document_text c sentence2 offset2 Hoff2 Hfit2)
      as [[c2 rows2] ->].
    cbn [mbind option_bind]. by eexists.
Qed.

(** ** The theorems at concrete inputs *)

(** Three objects of types A, B, A and the map A to X: two fresh objects of
    type X are appended and the store's first three objects stay. *)
Lemma filter_and_map_entities_spec_witness :
  let h := [Entity.mk 0 5 "A"; Entity.mk 3 10 "B"; Entity.mk 10 15 "A"] in
  let dataset : InternalBioNerDataset loc :=
    mkDataset {["d" := "some text here"]} {["d" := [0; 1; 2]%nat]} in
  let type_map : gmap string string := {["A" := "X"]} in
  (∀ id ls, entities_per_document dataset !! id = Some ls →
            Forall (λ l, (l < length h)%nat) ls)
  ∧ ∃ h' dataset',
      filter_and_map_entities h dataset type_map = Some (h', dataset')
      ∧ h' = h ++ [Entity.mk 0 5 "X"; Entity.mk 10 15 "X"]
      ∧ entities_per_document dataset' !! "d" = Some [3; 4]%nat.
Proof.
  intros h dataset type_map.
  assert (Hlive : ∀ id ls, entities_per_document dataset !! id = Some ls →
                           Forall (λ l, (l < length h)%nat) ls).
  { intros id ls Hid. unfold dataset in Hid. cbn [entities_per_document] in Hid.
    apply lookup_singleton_Some in Hid as [_ <-]. repeat constructor. }
  split; [exact Hlive|].
  destruct (filter_and_map_entities_spec h dataset type_map Hlive)
    as (h' & dataset' & Hrun & _).
  exists h', dataset'. split; [exact Hrun|].
  assert (Hh : fst <$> filter_and_map_entities h dataset type_map
               = Some (h ++ [Entity.mk 0 5 "X"; Entity.mk 10 15 "X"])) by (by vm_compute).
  assert (Hd : (λ r, entities_per_document r.2 !! "d")
                 <$> filter_and_map_entities h dataset type_map
               = Some (Some [3; 4]%nat)) by (by vm_compute).
  rewrite Hrun in Hh, Hd. simpl in Hh, Hd.
  injection Hh as Hh. injection Hd as Hd. split; [exact Hh|exact Hd].
Defined.

(** The text [foo-bar] cut into [foo], [-], [bar]. *)
Lemma whitespace_marker_correct_witness :
  let tokenizer := λ _ : string, (["foo"; "-"; "bar"], [0; 3; 4]) in
  Forall (λ t : string * Z, 0 <= 0 + t.2)
         (zip (tokenizer "foo-bar").1 (tokenizer "foo-bar").2)
  ∧ ∃ rows,
      sentence_step tokenizer "foo-bar" (mkCursor None []) "foo-bar" 0
      = Some (mkCursor None [], rows)
      ∧ rows = [mkOutRow "foo" "O" "-"; mkOutRow "-" "O" "-"; mkOutRow "bar" "O" "+"]
      ∧ Forall2 (marker_spec "foo-bar" "foo-bar" 0)
                (zip (tokenizer "foo-bar").1 (tokenizer "foo-bar").2) rows.
Proof.
  intros tokenizer.
  assert (Hoff : Forall (λ t : string * Z, 0 <= 0 + t.2)
                        (zip (tokenizer "foo-bar").1 (tokenizer "foo-bar").2)).
  { repeat constructor; simpl; lia. }
  split; [exact Hoff|].
  destruct (whitespace_marker_correct tokenizer "foo-bar" "foo-bar" 0 (mkCursor None []) Hoff)
    as [Hspec _].
  exists [mkOutRow "foo" "O" "-"; mkOutRow "-" "O" "-"; mkOutRow "bar" "O" "+"].
  assert (Hrun : sentence_step tokenizer "foo-bar" (mkCursor None []) "foo-bar" 0
                 = Some (mkCursor None [],
                         [mkOutRow "foo" "O" "-"; mkOutRow "-" "O" "-"; mkOutRow "bar" "O" "+"]))
    by (by vm_compute).
  split; [exact Hrun|]. split; [done|]. by eapply Hspec.
Defined.

(** [a big red dog] with an entity over [big red]. *)
Lemma tag_continuation_witness :
  let e := Entity.mk 2 9 "X" in
  let c := mkCursor (Some e) [] in
  let text := "a big red dog" in
  current_entity c = Some e
  ∧ zip (whitespace_tokenize text).1 (whitespace_tokenize text).2
    = [("a", 0)] ++ ("big", 2) :: ("red", 6) :: [("dog", 10)]
  ∧ Forall (λ t : string * Z, 0 + t.2 < Entity.start e) [("a", 0)]
  ∧ Entity.start e <= 0 + 2 < Entity.stop e
  ∧ Entity.start e <= 0 + 6 < Entity.stop e
  ∧ ∃ c' rows,
      sentence_step whitespace_tokenize text c text 0 = Some (c', rows)
      ∧ row_tag <$> rows !! 1%nat = Some "B-X"
      ∧ row_tag <$> rows !! 2%nat = Some "I-X".
Proof.
  intros e c text.
  assert (Htokens : zip (whitespace_tokenize text).1 (whitespace_tokenize text).2
                    = [("a", 0)] ++ ("big", 2) :: ("red", 6) :: [("dog", 10)])
    by (by vm_compute).
  assert (Hbefore : Forall (λ t : string * Z, 0 + t.2 < Entity.start e) [("a", 0)]).
  { repeat constructor. }
  assert (Hfirst : Entity.start e <= 0 + 2 < Entity.stop e) by (simpl; lia).
  assert (Hsecond : Entity.start e <= 0 + 6 < Entity.stop e) by (simpl; lia).
  repeat (split; [done|]).
  destruct (tag_continuation whitespace_tokenize text text 0 c e [("a", 0)] [("dog", 10)]
              "big" "red" 2 6 eq_refl Htokens Hbefore Hfirst Hsecond) as [Htags Hreturns].
  destruct Hreturns as [[c' rows] Hrun].
  { rewrite Htokens. repeat constructor; simpl; lia. }
  { by vm_compute. }
  exists c', rows. split; [exact Hrun|].
  destruct (Htags c' rows Hrun) as (_ & HB & _ & HI). by split.
Defined.

(** The same entity, with a line break between [big] and [red]. *)
Lemma sentence_start_resets_tag_witness :
  let e := Entity.mk 2 9 "X" in
  let c := mkCursor (Some e) [] in
  let text := "a big" +:+ String "010" "red dog" in
  current_entity c = Some e
  ∧ zip (whitespace_tokenize "a big").1 (whitespace_tokenize "a big").2
    = [("a", 0)] ++ ("big", 2) :: []
  ∧ zip (whitespace_tokenize "red dog").1 (whitespace_tokenize "red dog").2
    = [] ++ ("red", 0) :: [("dog", 4)]
  ∧ Forall (λ t : string * Z, 0 + t.2 < Entity.start e) [("a", 0)]
  ∧ Entity.start e <= 0 + 2 < Entity.stop e
  ∧ Forall (λ t : string * Z, 0 + t.2 < Entity.stop e) []
  ∧ Forall (λ t : string * Z, 6 + t.2 < Entity.start e) []
  ∧ Entity.start e <= 6 + 0 < Entity.stop e
  ∧ sentence_split_at_newline text = (["a big"; "red dog"], [0; 6])
  ∧ ∃ c' rows1 rows2,
      sentence_loop whitespace_tokenize text c [("a big", 0); ("red dog", 6)]
      = Some (c', [rows1; rows2])
      ∧ row_tag <$> rows1 !! 1%nat = Some "B-X"
      ∧ row_tag <$> rows2 !! 0%nat = Some "B-X".
Proof.
  intros e c text.
  assert (Htokens1 : zip (whitespace_tokenize "a big").1 (whitespace_tokenize "a big").2
                     = [("a", 0)] ++ ("big", 2) :: []) by (by vm_compute).
  assert (Htokens2 : zip (whitespace_tokenize "red dog").1 (whitespace_tokenize "red dog").2
                     = [] ++ ("red", 0) :: [("dog", 4)]) by (by vm_compute).
  assert (Hbefore1 : Forall (λ t : string * Z, 0 + t.2 < Entity.start e) [("a", 0)]).
  { repeat constructor. }
  assert (Hinside1 : Entity.start e <= 0 + 2 < Entity.stop e) by (simpl; lia).
  assert (Hinside2 : Entity.start e <= 6 + 0 < Entity.stop e) by (simpl; lia).
  do 8 (split; [done|]). split; [by vm_compute|].
  destruct (sentence_start_resets_tag whitespace_tokenize text c e "a big" "red dog" 0 6
              [("a", 0)] [] [] [("dog", 4)] "big" "red" 2 0
              eq_refl Htokens1 Htokens2 Hbefore1 Hinside1 (Forall_nil_2 _)
              (Forall_nil_2 _) Hinside2) as [Htags Hreturns].
  destruct Hreturns as [[c' rowss] Hrun].
  { rewrite Htokens1. repeat constructor; simpl; lia. }
  { rewrite Htokens2. repeat constructor; simpl; lia. }
  { by vm_compute. }
  { by vm_compute. }
  destruct (Htags [] c' rowss Hrun) as (rows1 & rows2 & rowss' & -> & H1 & H2).
  assert (rowss' = []) as ->.
  { assert (Hlen : length <$> (snd <$> sentence_loop whitespace_tokenize text c
                                 [("a big", 0); ("red dog", 6)]) = Some 2%nat)
      by (by vm_compute).
    rewrite Hrun in Hlen. simpl in Hlen. injection Hlen as Hlen.
    by destruct rowss'. }
  exists c', rows1, rows2. by repeat split.
Defined.

(** The whole writer on that document: [big] and [red] are both tagged
    [B-X], and each sentence is closed by an empty line. *)
Example write_to_conll_two_sentences :
  write_to_conll (λ s, s) whitespace_tokenize sentence_split_at_newline None
    (mkDataset {["d1" := "a big" +:+ String "010" "red dog"]}
               {["d1" := [Entity.mk 2 9 "X"]]})
    ["d1"]
  = Some ["a O +" +:+ String "010" ""; "big B-X +" +:+ String "010" ""; String "010" "";
          "red B-X +" +:+ String "010" ""; "dog O +" +:+ String "010" ""; String "010" ""].
Proof. by vm_compute. Qed.

(** * Further properties *)

(** ** Strings *)

Section string_facts.
Implicit Types (s t u : string) (c : ascii).

Lemma append_cons c s t : String c s +:+ t = String c (s +:+ t).
Proof. reflexivity. Qed.

Lemma append_nil_l t : "" +:+ t = t.
Proof. reflexivity. Qed.

Lemma append_nil_r s : s +:+ "" = s.
Proof. induction s as [|c s IH]; [done|]. by rewrite append_cons, IH. Qed.

Lemma append_assoc s t u : (s +:+ t) +:+ u = s +:+ (t +:+ u).
Proof. induction s as [|c s IH]; [done|]. by rewrite !append_cons, IH. Qed.

Lemma length_append s t : String.length (s +:+ t) = (String.length s + String.length t)%nat.
Proof. induction s as [|c s IH]; [done|]. rewrite append_cons. simpl. by rewrite IH. Qed.

Lemma str_len_append s t : str_len (s +:+ t) = str_len s + str_len t.
Proof. unfold str_len. rewrite length_append. lia. Qed.

Lemma chars_append s t :
  list_ascii_of_string (s +:+ t) = list_ascii_of_string s ++ list_ascii_of_string t.
Proof. induction s as [|c s IH]; [done|]. rewrite append_cons. simpl. by rewrite IH. Qed.

Lemma substring_prefix s t : String.substring 0 (String.length s) (s +:+ t) = s.
Proof.
  induction s as [|c s IH]; [by destruct t|]. rewrite append_cons. simpl. by rewrite IH.
Qed.

(** The piece [t] is read back from [s ++ t ++ u] at the length of [s]. *)
Lemma substring_middle s t u :
  String.substring (String.length s) (String.length t) (s +:+ t +:+ u) = t.
Proof.
  induction s as [|c s IH]; [exact (substring_prefix t u)|]. rewrite append_cons. by simpl.
Qed.

Lemma append_inj_length s t s' t' :
  s +:+ t = s' +:+ t' → String.length s = String.length s' → s = s' ∧ t = t'.
Proof.
  revert s'. induction s as [|c s IH]; intros [|c' s'] Heq Hlen; simpl in Hlen; try done.
  rewrite !append_cons in Heq. injection Heq as -> Heq. injection Hlen as Hlen.
  destruct (IH s' Heq Hlen) as [-> ->]. done.
Qed.

Lemma prefix_append s t : String.prefix s t = true → ∃ u, t = s +:+ u.
Proof.
  revert t. induction s as [|c s IH]; intros t H.
  - by exists t.
  - destruct t as [|c' t]; simpl in H; [done|].
    destruct (ascii_dec c c') as [->|]; [|done].
    destruct (IH t H) as [u ->]. by exists u.
Qed.

End string_facts.

(** ** The splitters and the tokenizer *)

Section splitter_facts.
Implicit Types (s t cur sep text : string) (ss : list string).

Lemma concat_cons sep s ss :
  ss ≠ [] → String.concat sep (s :: ss) = s +:+ sep +:+ String.concat sep ss.
Proof. by destruct ss. Qed.

(** In a text made of pieces joined by [sep], the running offsets with gap
    [len(sep)] locate every piece. *)
Lemma running_offsets_located sep ss : ∀ pre,
  Forall2 (located (pre +:+ String.concat sep ss)) ss
          (running_offsets (str_len sep) (str_len pre) ss).
Proof.
  induction ss as [|s ss IH]; intros pre; [constructor|].
  cbn [running_offsets]. destruct ss as [|s' ss].
  - cbn [String.concat running_offsets]. constructor; [|constructor].
    unfold located. rewrite str_len_append. split; [apply str_len_nonneg|].
    split; [lia|]. unfold str_len. rewrite Nat2Z.id.
    rewrite <- (append_nil_r s) at 2. apply substring_middle.
  - rewrite concat_cons by done.
    constructor.
    + unfold located. rewrite !str_len_append. split; [apply str_len_nonneg|].
      split.
      * pose proof (str_len_nonneg sep). pose proof (str_len_nonneg (String.concat sep (s' :: ss))).
        lia.
      * unfold str_len. rewrite Nat2Z.id. apply substring_middle.
    + specialize (IH (pre +:+ s +:+ sep)).
      rewrite !str_len_append in IH. rewrite !append_assoc in IH.
      by rewrite Z.add_assoc in IH.
Qed.

Lemma split_on_nonempty c s cur : split_on c s cur ≠ [].
Proof.
  revert cur. induction s as [|c' s IH]; intros cur; simpl; [done|].
  destruct (Ascii.eqb c' c); [done|apply IH].
Qed.

Lemma split_on_concat c s : ∀ cur,
  String.concat (String c "") (split_on c s cur) = cur +:+ s.
Proof.
  induction s as [|c' s IH]; intros cur; simpl.
  - by rewrite append_nil_r.
  - destruct (Ascii.eqb_spec c' c) as [->|Hne].
    + rewrite concat_cons by apply split_on_nonempty. by rewrite IH.
    + rewrite IH, append_assoc. done.
Qed.

Lemma split_on_free c s : ∀ cur,
  c ∉ list_ascii_of_string cur →
  Forall (λ piece, c ∉ list_ascii_of_string piece) (split_on c s cur).
Proof.
  induction s as [|c' s IH]; intros cur Hcur; simpl.
  - by constructor.
  - destruct (Ascii.eqb_spec c' c) as [->|Hne].
    + constructor; [done|]. apply IH. simpl. apply not_elem_of_nil.
    + apply IH. rewrite chars_append. simpl.
      intros [?|Hin%list_elem_of_singleton]%elem_of_app; [done|congruence].
Qed.

Lemma split_sep_nonempty sep s : ∀ cur k, split_sep sep s cur k ≠ [].
Proof.
  induction s as [|c s IH]; intros cur k; cbn [split_sep]; [done|].
  destruct k; [|apply IH]. destruct (String.prefix sep (String c s)); [done|apply IH].
Qed.

(** Joining the pieces gives back what was read and what was left to read
    after the characters passed over. *)
Lemma split_sep_concat sep s : sep ≠ "" → ∀ cur (k : nat),
  (k ≤ String.length s)%nat →
  ∃ pre rest, s = pre +:+ rest ∧ String.length pre = k
              ∧ String.concat sep (split_sep sep s cur k) = cur +:+ rest.
Proof.
  intros Hsep. induction s as [|c s IH]; intros cur k Hk.
  - exists "", "". simpl in *. repeat split; [lia|]. by rewrite append_nil_r.
  - cbn [split_sep]. destruct k as [|k].
    + destruct (String.prefix sep (String c s)) eqn:Hpre.
      * destruct (prefix_append _ _ Hpre) as [u Hu].
        destruct sep as [|c0 sep']; [done|]. simpl in Hu. injection Hu as <- Hs.
        destruct (IH "" (String.length (String c sep') - 1)%nat) as (pre & rest & Hs' & Hlen & Hcat).
        { simpl. rewrite Hs, length_append. lia. }
        assert (pre = sep' ∧ rest = u) as [-> ->].
        { simpl in Hlen. rewrite Nat.sub_0_r in Hlen.
          rewrite Hs in Hs'. symmetry in Hs'.
          by destruct (append_inj_length _ _ _ _ Hs' Hlen). }
        exists "", (String c s). split; [done|]. split; [done|].
        rewrite concat_cons by apply split_sep_nonempty.
        rewrite Hcat, Hs. done.
      * destruct (IH (cur +:+ String c "") 0%nat) as (pre & rest & Hs' & Hlen & Hcat);
          [lia|].
        destruct pre; [|done]. rewrite append_nil_l in Hs'. subst rest.
        exists "", (String c s). split; [done|]. split; [done|].
        rewrite Hcat, append_assoc. done.
    + destruct (IH cur k) as (pre & rest & Hs' & Hlen & Hcat); [simpl in Hk; lia|].
      exists (String c pre), rest. rewrite append_cons, <- Hs'. simpl. by rewrite Hlen.
Qed.

End splitter_facts.

(** X1. [sentence_split_at_newline] loses nothing: joined by newlines the
    sentences are the text, no sentence contains a newline, and every
    sentence is found in the text at its offset. *)
Theorem sentence_split_at_newline_located (text : string) :
  String.concat (String "010" "") (sentence_split_at_newline text).1 = text
  ∧ Forall (λ sentence, "010"%char ∉ list_ascii_of_string sentence)
           (sentence_split_at_newline text).1
  ∧ Forall2 (located text) (sentence_split_at_newline text).1
            (sentence_split_at_newline text).2.
Proof.
  unfold sentence_split_at_newline. cbn [fst snd].
  pose proof (split_on_concat "010" text "") as Hcat. rewrite append_nil_l in Hcat.
  split; [done|]. split; [apply split_on_free; simpl; apply not_elem_of_nil|].
  pose proof (running_offsets_located (String "010" "") (split_on "010" text "") "") as H.
  rewrite Hcat in H. exact H.
Qed.

(** X2. [sentence_split_at_tag] loses nothing: joined by the sentence tag
    the sentences are the text, and every sentence is found in the text at
    its offset. *)
Theorem sentence_split_at_tag_located (text : string) :
  String.concat SENTENCE_TAG (sentence_split_at_tag text).1 = text
  ∧ Forall2 (located text) (sentence_split_at_tag text).1 (sentence_split_at_tag text).2.
Proof.
  unfold sentence_split_at_tag. cbn [fst snd].
  destruct (split_sep_concat SENTENCE_TAG text ltac:(done) "" 0%nat ltac:(lia))
    as (pre & rest & Htext & Hlen & Hcat).
  destruct pre; [|done]. rewrite append_nil_l in Htext, Hcat. subst rest.
  split; [done|].
  pose proof (running_offsets_located SENTENCE_TAG (split_sep SENTENCE_TAG text "" 0) "") as H.
  rewrite Hcat in H. exact H.
Qed.

Section tokenizer_facts.
Implicit Types (s t cur text : string) (ts : list string).

(** The characters a list of tokens takes up, counting one separator after
    each. *)
Let room ts : Z := foldr (λ t acc, str_len t + 1 + acc) 0 ts.

Lemma split_ws_tokens s : ∀ cur,
  ws_free cur → Forall (λ t, t ≠ "" ∧ ws_free t) (split_ws s cur).
Proof.
  induction s as [|c s IH]; intros cur Hcur; cbn [split_ws].
  - destruct cur; [constructor|]. constructor; [by split|constructor].
  - destruct (isspace c) eqn:Hc.
    + destruct cur; [by apply IH|]. constructor; [by split|]. apply IH. constructor.
    + apply IH. unfold ws_free. rewrite chars_append. apply Forall_app. split; [done|].
      by repeat constructor.
Qed.

Lemma split_ws_room s : ∀ cur, room (split_ws s cur) <= str_len cur + str_len s + 1.
Proof.
  induction s as [|c s IH]; intros cur; cbn [split_ws].
  - destruct cur; unfold room, str_len; simpl; lia.
  - assert (str_len (String c s) = str_len s + 1) as -> by (unfold str_len; simpl; lia).
    destruct (isspace c).
    + destruct cur as [|c' cur].
      * specialize (IH ""). unfold str_len in *. simpl in *. lia.
      * specialize (IH ""). unfold room in *. cbn [foldr]. unfold str_len in *. simpl in *. lia.
    + specialize (IH (cur +:+ String c "")). rewrite str_len_append in IH.
      unfold str_len in *. simpl in *. lia.
Qed.

Lemma running_offsets_room ts : ∀ offset,
  Forall2 (λ t o, offset <= o ∧ o + str_len t + 1 <= offset + room ts)
          ts (running_offsets 1 offset ts).
Proof.
  induction ts as [|t ts IH]; intros offset; [constructor|].
  cbn [running_offsets]. pose proof (str_len_nonneg t).
  assert (0 <= room ts) as Hroom.
  { clear. induction ts as [|t' ts IH]; unfold room in *; simpl; [done|].
    pose proof (str_len_nonneg t'). lia. }
  constructor.
  - unfold room in *. cbn [foldr]. lia.
  - eapply Forall2_impl; [apply (IH (offset + str_len t + 1))|].
    intros t' o [? ?]. unfold room in *. cbn [foldr]. lia.
Qed.

Lemma running_offsets_length gap ts : ∀ offset,
  length (running_offsets gap offset ts) = length ts.
Proof. induction ts as [|t ts IH]; intros offset; simpl; [done|]. by rewrite IH. Qed.

(** A token is read whole into the run. *)
Lemma split_ws_token t : ∀ rest cur,
  ws_free t → split_ws (t +:+ rest) cur = split_ws rest (cur +:+ t).
Proof.
  induction t as [|c t IH]; intros rest cur Ht.
  - by rewrite append_nil_l, append_nil_r.
  - apply Forall_cons in Ht as [Hc Ht]. rewrite append_cons. cbn [split_ws]. rewrite Hc.
    rewrite IH by done. by rewrite append_assoc.
Qed.

Lemma split_ws_joined ts :
  Forall (λ t, t ≠ "" ∧ ws_free t) ts →
  split_ws (String.concat " " ts) "" = ts.
Proof.
  induction 1 as [|t ts [Hne Ht] Hts IH]; [done|].
  destruct ts as [|t' ts].
  - cbn [String.concat]. rewrite <- (append_nil_r t) at 1.
    rewrite split_ws_token by done. cbn [split_ws]. rewrite append_nil_l.
    by destruct t.
  - rewrite concat_cons by done. rewrite split_ws_token by done.
    rewrite append_nil_l, append_cons, append_nil_l. cbn [split_ws].
    replace (isspace " ") with true by done.
    destruct t; [done|]. by rewrite IH.
Qed.

End tokenizer_facts.

(** X3. Whatever the text, [whitespace_tokenize] returns tokens that are
    not empty and contain no whitespace, one offset for each token, and
    offsets at which the token still fits into the text. *)
Theorem whitespace_tokenize_tokens (text : string) :
  Forall (λ t, t ≠ "" ∧ ws_free t) (whitespace_tokenize text).1
  ∧ length (whitespace_tokenize text).2 = length (whitespace_tokenize text).1
  ∧ Forall2 (λ t o, 0 <= o ∧ o + str_len t <= str_len text)
            (whitespace_tokenize text).1 (whitespace_tokenize text).2.
Proof.
  unfold whitespace_tokenize. cbn [fst snd].
  split; [apply split_ws_tokens; constructor|].
  split; [apply running_offsets_length|].
  pose proof (split_ws_room text "") as Hroom.
  eapply Forall2_impl; [apply (running_offsets_room (split_ws text "") 0)|].
  intros t o [? ?]. change (str_len "") with 0 in Hroom. simpl in *. lia.
Qed.

(** X4. On a text made of tokens joined by single spaces,
    [whitespace_tokenize] returns these tokens, and every token is found in
    the text at its offset. *)
Theorem whitespace_tokenize_joined (tokens : list string)
    (Htokens : Forall (λ t, t ≠ "" ∧ ws_free t) tokens) :
  whitespace_tokenize (String.concat " " tokens) = (tokens, running_offsets 1 0 tokens)
  ∧ Forall2 (located (String.concat " " tokens)) tokens (running_offsets 1 0 tokens).
Proof.
  unfold whitespace_tokenize. rewrite split_ws_joined by done. split; [done|].
  exact (running_offsets_located " " tokens "").
Qed.

Lemma whitespace_tokenize_joined_witness :
  Forall (λ t, t ≠ "" ∧ ws_free t) ["John"; "has"; "flu"]
  ∧ whitespace_tokenize "John has flu" = (["John"; "has"; "flu"], [0; 5; 9])
  ∧ Forall2 (located "John has flu") ["John"; "has"; "flu"] [0; 5; 9].
Proof.
  assert (H : Forall (λ t, t ≠ "" ∧ ws_free t) ["John"; "has"; "flu"]).
  { repeat constructor; done. }
  split; [exact H|]. exact (whitespace_tokenize_joined _ H).
Defined.

(** ** The writer on the splitters and the tokenizer of the source *)

Section writer_returns.
Variable fix_text : string → string.
Variable tokenizer : string → list string * list Z.
Hypothesis tokenizer_offsets : ∀ sentence, Forall (λ o, 0 <= o) (tokenizer sentence).2.

Lemma Forall2_zip {A B : Type} (P : A → B → Prop) (l : list A) (k : list B) :
  Forall2 P l k → Forall (λ p, P p.1 p.2) (zip l k).
Proof. induction 1; simpl; by constructor. Qed.

Lemma Forall_zip_r {A B : Type} (P : B → Prop) (l : list A) : ∀ k : list B,
  Forall P k → Forall (λ p, P p.2) (zip l k).
Proof.
  induction l as [|x l IH]; intros k Hk; [constructor|].
  destruct Hk as [|y k Hy Hk]; simpl; [constructor|]. constructor; [done|by apply IH].
Qed.

Lemma sentence_loop_returns document_text sentences : ∀ c,
  Forall (λ p, located document_text p.1 p.2) sentences →
  is_Some (sentence_loop tokenizer document_text c sentences).
Proof.
  induction sentences as [|[sentence offset] sentences IH]; intros c Hfit; [by eexists|].
  apply Forall_cons in Hfit as [(Ho & Hfit & _) Hrest]. cbn [fst snd] in Ho, Hfit.
  cbn [sentence_loop].
  destruct (sentence_step_returns tokenizer document_text c sentence offset)
    as [[c1 rows] ->]; [|done|].
  - eapply Forall_impl; [apply Forall_zip_r, tokenizer_offsets|].
    intros p Hp. simpl in Hp. lia.
  - cbn [mbind option_bind]. destruct (IH c1 Hrest) as [[c2 rowss] ->]. by eexists.
Qed.

Lemma document_rows_returns sentence_splitter text entities :
  Forall2 (located (fix_text text)) (sentence_splitter (fix_text text)).1
          (sentence_splitter (fix_text text)).2 →
  is_Some (document_rows fix_text tokenizer sentence_splitter text entities).
Proof.
  intros Hfit. unfold document_rows.
  destruct (sentence_splitter (fix_text text)) as [sentences offsets]. cbn [fst snd] in Hfit.
  destruct (sentence_loop_returns (fix_text text) (zip sentences offsets)
              (initial_cursor entities)) as [[c rowss] ->]; [by apply Forall2_zip|].
  by eexists.
Qed.

End writer_returns.

Lemma whitespace_tokenize_offsets (sentence : string) :
  Forall (λ o, 0 <= o) (whitespace_tokenize sentence).2.
Proof.
  unfold whitespace_tokenize. cbn [snd].
  assert (∀ ts offset, 0 <= offset → Forall (λ o, 0 <= o) (running_offsets 1 offset ts)) as H.
  { induction ts as [|t ts IH]; intros offset Ho; simpl; constructor; [done|].
    apply IH. pose proof (str_len_nonneg t). lia. }
  by apply H.
Qed.

Lemma one_sentence_located (text : string) :
  Forall2 (located text) (sentence_split_one_sentence_per_doc text).1
          (sentence_split_one_sentence_per_doc text).2.
Proof.
  simpl. constructor; [|constructor]. unfold located. split; [done|]. split; [lia|].
  simpl. rewrite <- (append_nil_r text) at 2. exact (substring_prefix text "").
Qed.

Lemma newline_sentences_located (text : string) :
  Forall2 (located text) (sentence_split_at_newline text).1 (sentence_split_at_newline text).2.
Proof.
  unfold sentence_split_at_newline. cbn [fst snd].
  pose proof (split_on_concat "010" text "") as Hcat. rewrite append_nil_l in Hcat.
  pose proof (running_offsets_located (String "010" "") (split_on "010" text "") "") as H.
  rewrite Hcat in H. exact H.
Qed.

Lemma tag_sentences_located (text : string) :
  Forall2 (located text) (sentence_split_at_tag text).1 (sentence_split_at_tag text).2.
Proof.
  unfold sentence_split_at_tag. cbn [fst snd].
  destruct (split_sep_concat SENTENCE_TAG text ltac:(done) "" 0%nat ltac:(lia))
    as (pre & rest & Htext & Hlen & Hcat).
  destruct pre; [|done]. rewrite append_nil_l in Htext, Hcat. subst rest.
  pose proof (running_offsets_located SENTENCE_TAG (split_sep SENTENCE_TAG text "" 0) "") as H.
  rewrite Hcat in H. exact H.
Qed.

(** X5. With [whitespace_tokenize] and any of the three sentence splitters
    of the source, the token loop never raises: for every text, every
    repair function and every entity list the rows of the document are
    produced. *)
Theorem writer_never_raises (fix_text : string → string) (text : string)
    (entities : list Entity) :
  is_Some (document_rows fix_text whitespace_tokenize sentence_split_one_sentence_per_doc
                         text entities)
  ∧ is_Some (document_rows fix_text whitespace_tokenize sentence_split_at_newline
                           text entities)
  ∧ is_Some (document_rows fix_text whitespace_tokenize sentence_split_at_tag
                           text entities).
Proof.
  repeat split; apply document_rows_returns;
    auto using whitespace_tokenize_offsets, one_sentence_located,
               newline_sentences_located, tag_sentences_located.
Qed.

Lemma mapM_None_elem {A B : Type} (f : A → option B) (l : list A) (x : A) :
  x ∈ l → f x = None → mapM f l = None.
Proof.
  intros Hx Hf. induction l as [|a l IH]; [by apply elem_of_nil in Hx|].
  cbn [mapM]. apply elem_of_cons in Hx as [<-|Hx].
  - by rewrite Hf.
  - destruct (f a); [|done]. cbn [mbind option_bind]. by rewrite IH.
Qed.

Lemma mapM_is_Some_all {A B : Type} (f : A → option B) (l : list A) :
  Forall (λ x, is_Some (f x)) l → is_Some (mapM f l).
Proof.
  induction 1 as [|a l [y Hy] _ [k IH]]; [by eexists|].
  cbn [mapM]. rewrite Hy. cbn [mbind option_bind]. rewrite IH. by eexists.
Qed.

Lemma mapM_pointwise {A B : Type} (f g : A → option B) (l : list A) :
  (∀ x, f x = g x) → mapM f l = mapM g l.
Proof.
  intros Hfg. induction l as [|a l IH]; [done|]. cbn [mapM]. by rewrite Hfg, IH.
Qed.

Section subscript_facts.
Context {V : Type}.
Implicit Types (d : gmap string V) (k : string) (default_factory : option V).

Lemma subscript_lookup default_factory d k :
  subscript default_factory d k
  = match d !! k with Some v => Some v | None => default_factory end.
Proof.
  unfold subscript, getitem_missing. destruct (d !! k); [done|]. by destruct default_factory.
Qed.

Lemma subscript_dict d k : subscript None d k = d !! k.
Proof. rewrite subscript_lookup. by destruct (d !! k). Qed.

Lemma subscript_present default_factory d k v :
  d !! k = Some v → subscript default_factory d k = Some v.
Proof. intros H. by rewrite subscript_lookup, H. Qed.

(** After [d[k]] every key reads as it did before, also the key the
    subscript may have stored. *)
Lemma subscript_stored default_factory d k v d' :
  getitem_missing default_factory d k = Some (v, d') →
  ∀ k', subscript default_factory d' k' = subscript default_factory d k'.
Proof.
  unfold getitem_missing. destruct (d !! k) as [v0|] eqn:Hk.
  - by intros [= <- <-].
  - destruct default_factory as [v0|]; [|done]. cbn [mbind option_bind].
    intros [= <- <-] k'. rewrite !subscript_lookup.
    destruct (decide (k' = k)) as [->|Hne].
    + by rewrite lookup_insert_eq, Hk.
    + by rewrite lookup_insert_ne.
Qed.

End subscript_facts.

Lemma resolved_insert_empty (m : gmap string (list Entity)) (id : string) :
  m !! id = None →
  dict_mapM resolve_nested (<[id := []]> m)
  = (λ resolved, <[id := []]> resolved) <$> dict_mapM resolve_nested m.
Proof.
  intros Hid. unfold dict_mapM.
  assert (Hempty : resolve_nested [] = Some []) by (by vm_compute).
  destruct (decide (map_Forall _ m)) as [Hall|Hnot].
  - destruct (decide (map_Forall _ (<[id := []]> m))) as [_|Hn].
    + cbn [fmap option_fmap option_map]. f_equal. by apply omap_insert_Some.
    + exfalso. apply Hn. apply map_Forall_insert; [done|]. split; [by eexists|done].
  - destruct (decide (map_Forall _ (<[id := []]> m))) as [Hall|_]; [|done].
    exfalso. apply Hnot. apply map_Forall_insert in Hall; [|done]. by destruct Hall.
Qed.

(** X6. A document id that [write_to_conll] is given and that has no entry
    in [entities_per_document]: with a [dict] the subscript raises
    ([KeyError]), whatever the tokenizer and the splitter; with a
    [defaultdict(list)] the subscript gives the empty list, and what is
    written is what is written for the dataset that holds the empty list
    under that id. *)
Theorem write_to_conll_missing_entities (fix_text : string → string)
    (tokenizer sentence_splitter : string → list string * list Z)
    (dataset : InternalBioNerDataset Entity) (keys : list string) (document_id : string)
    (Hkey : document_id ∈ keys)
    (Hmissing : entities_per_document dataset !! document_id = None) :
  write_to_conll fix_text tokenizer sentence_splitter None dataset keys = None
  ∧ write_to_conll fix_text tokenizer sentence_splitter (Some []) dataset keys
    = write_to_conll fix_text tokenizer sentence_splitter (Some [])
        (mkDataset (documents dataset)
                   (<[document_id := []]> (entities_per_document dataset))) keys.
Proof.
  unfold write_to_conll, filter_nested_entities.
  cbn [documents entities_per_document]. rewrite resolved_insert_empty by done.
  destruct (dict_mapM resolve_nested (entities_per_document dataset)) as [resolved|] eqn:Hres;
    [|done].
  cbn [fmap option_fmap option_map mbind option_bind documents entities_per_document].
  assert (resolved !! document_id = None) as Hnone.
  { unfold dict_mapM in Hres. destruct (decide _); [|done]. injection Hres as <-.
    by rewrite lookup_omap, Hmissing. }
  split.
  - rewrite (mapM_None_elem _ keys document_id Hkey); [done|].
    destruct (documents dataset !! document_id); [|done].
    cbn [mbind option_bind]. by rewrite subscript_dict, Hnone.
  - f_equal. apply mapM_pointwise. intros id.
    destruct (documents dataset !! id); [|done]. cbn [mbind option_bind].
    rewrite !subscript_lookup. destruct (decide (id = document_id)) as [->|Hne].
    + by rewrite lookup_insert_eq, Hnone.
    + by rewrite lookup_insert_ne.
Qed.

(** Two documents, the second without an entry: a [dict] raises, and a
    [defaultdict(list)] writes the second document with every token
    tagged [O]. *)
Lemma write_to_conll_missing_entities_witness :
  let dataset : InternalBioNerDataset Entity :=
    mkDataset {["d1" := "a b"; "d2" := "c d"]} {["d1" := [Entity.mk 0 1 "X"]]} in
  "d2" ∈ ["d1"; "d2"]
  ∧ entities_per_document dataset !! "d2" = None
  ∧ write_to_conll (λ s, s) whitespace_tokenize sentence_split_at_newline None
      dataset ["d1"; "d2"] = None
  ∧ write_to_conll (λ s, s) whitespace_tokenize sentence_split_at_newline (Some [])
      dataset ["d1"; "d2"]
    = Some ["a B-X +" +:+ String "010" ""; "b O +" +:+ String "010" ""; String "010" "";
            "c O +" +:+ String "010" ""; "d O +" +:+ String "010" ""; String "010" ""].
Proof.
  intros dataset.
  assert (H1 : "d2" ∈ ["d1"; "d2"]) by (apply elem_of_cons; right; by apply list_elem_of_singleton).
  assert (H2 : entities_per_document dataset !! "d2" = None) by done.
  split; [exact H1|]. split; [exact H2|].
  destruct (write_to_conll_missing_entities (λ s, s) whitespace_tokenize
              sentence_split_at_newline dataset ["d1"; "d2"] "d2" H1 H2) as [Hraise Hsame].
  split; [exact Hraise|]. rewrite Hsame. by vm_compute.
Defined.

(** X7. On a dataset whose entities have [0 <= start < stop],
    [write_to_conll] with [whitespace_tokenize] and the newline splitter
    returns for every list of document ids that all have a text and an
    entity list, whether [entities_per_document] is a [dict] or a
    [defaultdict]. *)
Theorem write_to_conll_returns (fix_text : string → string)
    (default_factory : option (list Entity))
    (dataset : InternalBioNerDataset Entity) (keys : list string)
    (Hvalid : ∀ id es, entities_per_document dataset !! id = Some es →
                       Forall valid_entity es)
    (Hkeys : Forall (λ id, is_Some (documents dataset !! id)
                           ∧ is_Some (entities_per_document dataset !! id)) keys) :
  is_Some (write_to_conll fix_text whitespace_tokenize sentence_split_at_newline
                          default_factory dataset keys).
Proof.
  unfold write_to_conll, filter_nested_entities.
  rewrite dict_mapM_Some.
  2:{ intros k es Hk. apply resolve_nested_returns. by eapply Hvalid. }
  cbn [mbind option_bind documents entities_per_document].
  match goal with |- is_Some (mapM ?f keys ≫= _) =>
    destruct (mapM_is_Some_all f keys) as [outs ->] end; [|by eexists].
  eapply Forall_impl; [exact Hkeys|]. intros id [[text Ht] [es He]]. cbn beta.
  rewrite Ht. cbn [mbind option_bind].
  destruct (resolve_nested_returns es (Hvalid id es He)) as [out Hout].
  rewrite (subscript_present _ _ _ out) by (by rewrite lookup_omap, He).
  cbn [mbind option_bind].
  destruct (document_rows_returns fix_text whitespace_tokenize whitespace_tokenize_offsets
              sentence_split_at_newline text out (newline_sentences_located _)) as [rowss ->].
  by eexists.
Qed.

Lemma write_to_conll_returns_witness :
  let dataset : InternalBioNerDataset Entity :=
    mkDataset {["d1" := "a big" +:+ String "010" "red dog"]}
              {["d1" := [Entity.mk 2 9 "X"; Entity.mk 0 5 "Y"]]} in
  (∀ id es, entities_per_document dataset !! id = Some es → Forall valid_entity es)
  ∧ Forall (λ id, is_Some (documents dataset !! id)
                  ∧ is_Some (entities_per_document dataset !! id)) ["d1"]
  ∧ is_Some (write_to_conll (λ s, s) whitespace_tokenize sentence_split_at_newline
                            None dataset ["d1"]).
Proof.
  intros dataset.
  assert (Hvalid : ∀ id es, entities_per_document dataset !! id = Some es →
                            Forall valid_entity es).
  { intros id es Hid. unfold dataset in Hid. cbn [entities_per_document] in Hid.
    apply lookup_singleton_Some in Hid as [_ <-].
    repeat constructor; unfold Entity.wf; simpl; lia. }
  assert (Hkeys : Forall (λ id, is_Some (documents dataset !! id)
                                ∧ is_Some (entities_per_document dataset !! id)) ["d1"]).
  { repeat constructor; by eexists. }
  split; [exact Hvalid|]. split; [exact Hkeys|].
  exact (write_to_conll_returns _ None dataset ["d1"] Hvalid Hkeys).
Defined.

(** ** The tags of a sentence *)

Section tag_facts.
Variables (document_text sentence : string) (sentence_offset : Z).
Implicit Types (c : Cursor) (e : Entity) (tokens : list (string * Z)) (rows : list Row).

Lemma tag_I_inj (a b : string) : "I-" +:+ a = "I-" +:+ b → a = b.
Proof. intros H. injection H as H. done. Qed.

Lemma tag_I_not_B (a b : string) : "I-" +:+ a ≠ "B-" +:+ b.
Proof. intros H. injection H as H. done. Qed.

Lemma tag_I_not_O (a : string) : "I-" +:+ a ≠ "O".
Proof. intros H. injection H as H. done. Qed.

(** The three ways a token is tagged: [O] with the flag cleared; [B-] with
    the flag set; [I-], which needs the flag to have been set and leaves the
    cursor where it was. *)
Lemma token_step_cases c in_entity token token_offset c' in_entity' row :
  token_step document_text sentence sentence_offset (c, in_entity) token token_offset
  = Some ((c', in_entity'), row) →
  (row_tag row = "O" ∧ in_entity' = false)
  ∨ (∃ e, current_entity c' = Some e ∧ in_entity' = true
          ∧ in_range (sentence_offset + token_offset) (Entity.start e) (Entity.stop e) = true
          ∧ (row_tag row = "B-" +:+ Entity.type e
             ∨ (row_tag row = "I-" +:+ Entity.type e ∧ in_entity = true ∧ c' = c))).
Proof.
  unfold token_step. cbn [fst snd].
  destruct (advance _ c in_entity) as [c1 f1] eqn:Hadv.
  destruct (assign_tag _ (current_entity c1) f1) as [tag f2] eqn:Htag.
  destruct (whitespace_marker _ _ _) as [w|]; [|done].
  cbn [mbind option_bind]. intros [= <- <- <-]. cbn [row_tag].
  unfold assign_tag in Htag.
  destruct (current_entity c1) as [e|] eqn:Hcur.
  2:{ injection Htag as <- <-. by left. }
  destruct (in_range _ _ _) eqn:Hin.
  2:{ injection Htag as <- <-. by left. }
  right. exists e. injection Htag as <- <-. split; [done|]. split; [done|]. split; [done|].
  destruct f1; cbn [negb]; [|by left]. right. split; [done|].
  unfold advance in Hadv. destruct (current_entity c) as [e0|].
  - destruct (_ >=? _); [done|]. by injection Hadv as <- <-.
  - by injection Hadv as <- <-.
Qed.

(** Over a run of tokens, an [I-] tag follows a [B-] or [I-] tag of the
    same type: in the row before it, or, for the first row, in the tag
    [previous] that set the flag. *)
Lemma token_loop_inside tokens : ∀ c in_entity previous st' rows,
  (in_entity = true → ∃ e, current_entity c = Some e
     ∧ (previous = "B-" +:+ Entity.type e ∨ previous = "I-" +:+ Entity.type e)) →
  token_loop document_text sentence sentence_offset (c, in_entity) tokens = Some (st', rows) →
  ∀ (k : nat) row ty, rows !! k = Some row → row_tag row = "I-" +:+ ty →
  match k with
  | O => in_entity = true ∧ (previous = "B-" +:+ ty ∨ previous = "I-" +:+ ty)
  | S k' => ∃ before, rows !! k' = Some before
                      ∧ (row_tag before = "B-" +:+ ty ∨ row_tag before = "I-" +:+ ty)
  end.
Proof.
  induction tokens as [|[token token_offset] tokens IH];
    intros c in_entity previous st' rows Hflag H k row ty Hk Hty.
  { injection H as <- <-. by rewrite lookup_nil in Hk. }
  cbn [token_loop] in H.
  destruct (token_step _ _ _ (c, in_entity) token token_offset) as [[[c1 f1] row0]|] eqn:Hstep;
    [|done].
  cbn [mbind option_bind] in H.
  destruct (token_loop _ _ _ (c1, f1) tokens) as [[st2 rows2]|] eqn:Hl; [|done].
  injection H as <- <-.
  pose proof (token_step_cases _ _ _ _ _ _ _ Hstep) as Hcases.
  destruct k as [|k].
  - injection Hk as ->.
    destruct Hcases as [[HO _]|(e & He & _ & _ & [HB|(HI & -> & ->)])].
    + rewrite HO in Hty. symmetry in Hty. by apply tag_I_not_O in Hty.
    + rewrite HB in Hty. symmetry in Hty. by apply tag_I_not_B in Hty.
    + split; [done|]. rewrite HI in Hty. apply tag_I_inj in Hty as <-.
      destruct (Hflag eq_refl) as (e0 & He0 & Hprev). rewrite He in He0.
      by injection He0 as <-.
  - cbn [lookup list_lookup] in Hk.
    assert (Hflag1 : f1 = true → ∃ e, current_entity c1 = Some e
              ∧ (row_tag row0 = "B-" +:+ Entity.type e ∨ row_tag row0 = "I-" +:+ Entity.type e)).
    { intros ->. destruct Hcases as [[_ ?]|(e & He & _ & _ & [HB|(HI & _ & _)])]; [done|..];
        exists e; auto. }
    pose proof (IH c1 f1 (row_tag row0) st2 rows2 Hflag1 Hl k row ty Hk Hty) as Hres.
    destruct k as [|k].
    + destruct Hres as [_ Hprev]. exists row0. by split.
    + destruct Hres as (before & Hb & Hprev). exists before. by split.
Qed.

(** The token of a row is the token of the loop, stripped. *)
Lemma token_loop_tokens tokens : ∀ st st' rows,
  token_loop document_text sentence sentence_offset st tokens = Some (st', rows) →
  Forall2 (λ t row, row_token row = strip t.1) tokens rows.
Proof.
  induction tokens as [|[token token_offset] tokens IH]; intros st st' rows H.
  - injection H as <- <-. constructor.
  - cbn [token_loop] in H.
    destruct (token_step _ _ _ st token token_offset) as [[st1 row]|] eqn:Hstep; [|done].
    cbn [mbind option_bind] in H.
    destruct (token_loop _ _ _ st1 tokens) as [[st2 rows2]|] eqn:Hl; [|done].
    injection H as <- <-. constructor; [|by eapply IH].
    unfold token_step in Hstep.
    destruct (advance _ _ _) as [c1 f1]. destruct (assign_tag _ _ _) as [tag f2].
    destruct (whitespace_marker _ _ _) as [w|]; [|done].
    cbn [mbind option_bind] in Hstep. by injection Hstep as <- <-.
Qed.

(** When no token is blank every row is written. *)
Lemma written_all tokens rows :
  Forall (λ t : string * Z, strip t.1 ≠ "") tokens →
  Forall2 (λ t row, row_token row = strip t.1) tokens rows →
  filter (λ r, written r = true) rows = rows.
Proof.
  intros Hblank Hrows. revert Hblank.
  induction Hrows as [|t row tokens rows Ht _ IH]; intros Hblank; [done|].
  apply Forall_cons in Hblank as [Hnb Hblank].
  rewrite filter_cons_True; [by rewrite IH|].
  unfold written. rewrite Ht. unfold str_len.
  destruct (strip t.1); [done|]. cbn [String.length]. apply Z.ltb_lt. lia.
Qed.

End tag_facts.

(** X8. In a sentence none of whose tokens is blank (each has a character
    left after [strip], as the tokens of [whitespace_tokenize] have), every
    row is written, and the tags written are well-formed IOB2: the first
    line never has an [I-] tag, and a line with tag [I-<type>] comes
    directly after a line with tag [B-<type>] or [I-<type>]. A blank token
    is tagged and not written, and the line after it can then open the
    sentence with [I-] (example [blank_token_hides_tag]). *)
Theorem sentence_tags_iob2 (tokenizer : string → list string * list Z)
    (document_text sentence : string) (sentence_offset : Z) (c c' : Cursor)
    (rows : list Row)
    (Hblank : Forall (λ t : string * Z, strip t.1 ≠ "")
                     (zip (tokenizer sentence).1 (tokenizer sentence).2))
    (Hrows : sentence_step tokenizer document_text c sentence sentence_offset
             = Some (c', rows)) :
  let lines := filter (λ r, written r = true) rows in
  lines = rows
  ∧ ∀ (k : nat) (row : Row) (ty : string),
      lines !! k = Some row → row_tag row = "I-" +:+ ty →
      ∃ k' before, k = S k' ∧ lines !! k' = Some before
                   ∧ (row_tag before = "B-" +:+ ty ∨ row_tag before = "I-" +:+ ty).
Proof.
  rewrite sentence_step_unfold in Hrows.
  destruct (token_loop _ _ _ _ _) as [[st rows0]|] eqn:Hl; [|done].
  cbn [mbind option_bind] in Hrows. injection Hrows as <- <-.
  assert (Hall : filter (λ r, written r = true) rows0 = rows0).
  { eapply written_all; [exact Hblank|]. by eapply token_loop_tokens. }
  cbn zeta. rewrite Hall. split; [done|]. intros k row ty Hk Hty.
  pose proof (token_loop_inside document_text sentence sentence_offset _ c false ""
                st rows0 ltac:(done) Hl k row ty Hk Hty) as Hres.
  destruct k as [|k]; [by destruct Hres|].
  destruct Hres as (before & ? & ?). by exists k, before.
Qed.

Lemma sentence_tags_iob2_witness :
  let rows := [mkOutRow "a" "O" "+"; mkOutRow "big" "B-X" "+"; mkOutRow "red" "I-X" "+";
               mkOutRow "dog" "O" "+"] in
  Forall (λ t : string * Z, strip t.1 ≠ "")
         (zip (whitespace_tokenize "a big red dog").1 (whitespace_tokenize "a big red dog").2)
  ∧ sentence_step whitespace_tokenize "a big red dog" (mkCursor (Some (Entity.mk 2 9 "X")) [])
                  "a big red dog" 0
    = Some (mkCursor None [], rows)
  ∧ filter (λ r, written r = true) rows = rows
  ∧ ∃ k' before, 2%nat = S k'
      ∧ filter (λ r, written r = true) rows !! k' = Some before
      ∧ (row_tag before = "B-" +:+ "X" ∨ row_tag before = "I-" +:+ "X").
Proof.
  intros rows.
  assert (Hblank : Forall (λ t : string * Z, strip t.1 ≠ "")
            (zip (whitespace_tokenize "a big red dog").1
                 (whitespace_tokenize "a big red dog").2)).
  { assert (Htokens : zip (whitespace_tokenize "a big red dog").1
                          (whitespace_tokenize "a big red dog").2
                      = [("a", 0); ("big", 2); ("red", 6); ("dog", 10)]) by (by vm_compute).
    rewrite Htokens. repeat constructor; by vm_compute. }
  assert (Hrun : sentence_step whitespace_tokenize "a big red dog"
                   (mkCursor (Some (Entity.mk 2 9 "X")) []) "a big red dog" 0
                 = Some (mkCursor None [], rows))
    by (by vm_compute).
  split; [exact Hblank|]. split; [exact Hrun|].
  destruct (sentence_tags_iob2 whitespace_tokenize _ _ _ _ _ _ Hblank Hrun) as [Hall Htags].
  split; [exact Hall|].
  apply (Htags 2%nat (mkOutRow "red" "I-X" "+") "X"); [by rewrite Hall|done].
Defined.

(** The sentence [ b] cut into a blank token and [b], under an entity over
    both: the blank token takes the [B-] tag and is not written, and the
    sentence is written with [I-X] on its first line. *)
Example blank_token_hides_tag :
  let tokenizer := λ _ : string, ([" "; "b"], [0; 1]) in
  let rows := [mkOutRow "" "B-X" "+"; mkOutRow "b" "I-X" "+"] in
  sentence_step tokenizer " b" (mkCursor (Some (Entity.mk 0 2 "X")) []) " b" 0
  = Some (mkCursor (Some (Entity.mk 0 2 "X")) [], rows)
  ∧ sentence_output rows = ["b I-X +" +:+ String "010" ""; String "010" ""].
Proof. by vm_compute. Qed.

(** ** Which tokens are tagged *)

Section coverage.
Variables (document_text : string).
Implicit Types (c : Cursor) (e : Entity) (tokens : list (string * Z)) (rows : list Row)
               (all : list Entity).

(** Dropping the finished entities removes from the front of the cursor
    entities that end at or before [offset], and stops at one that ends
    after it. *)
Lemma skip_finished_spec offset entities : ∀ current,
  ∃ dropped,
    cursor_entities (mkCursor current entities)
    = dropped ++ cursor_entities (skip_finished offset current entities)
    ∧ Forall (λ d, Entity.stop d <= offset) dropped
    ∧ ∀ e, current_entity (skip_finished offset current entities) = Some e →
           offset < Entity.stop e.
Proof.
  induction entities as [|e' entities IH]; intros [e|]; cbn [skip_finished];
    try (exists []; split; [done|]; split; [constructor|done]).
  - destruct (Z.geb_spec offset (Entity.stop e)).
    + exists [e]. split; [done|]. split; [by repeat constructor|done].
    + exists []. split; [done|]. split; [constructor|]. by intros ? [= <-].
  - destruct (Z.geb_spec offset (Entity.stop e)).
    + destruct (IH (Some e')) as (dropped & Heq & Hdrop & Hcur).
      exists (e :: dropped). split; [|split; [by constructor; [lia|]|done]].
      unfold cursor_entities in *. cbn [current_entity pending] in *. by rewrite Heq.
    + exists []. split; [done|]. split; [constructor|]. by intros ? [= <-].
Qed.

Lemma advance_spec offset c in_entity :
  ∃ dropped,
    cursor_entities c = dropped ++ cursor_entities (advance offset c in_entity).1
    ∧ Forall (λ d, Entity.stop d <= offset) dropped
    ∧ ∀ e, current_entity (advance offset c in_entity).1 = Some e → offset < Entity.stop e.
Proof.
  unfold advance. destruct c as [[e|] entities]; cbn [current_entity pending].
  - destruct (Z.geb_spec offset (Entity.stop e)); cbn [fst].
    + apply skip_finished_spec.
    + exists []. split; [done|]. split; [constructor|]. by intros ? [= <-].
  - exists []. split; [done|]. split; [constructor|done].
Qed.

Lemma token_step_unfold sentence sentence_offset c in_entity token token_offset st' row :
  token_step document_text sentence sentence_offset (c, in_entity) token token_offset
  = Some (st', row) →
  st'.1 = (advance (sentence_offset + token_offset) c in_entity).1
  ∧ (row_tag row, st'.2)
    = assign_tag (sentence_offset + token_offset)
                 (current_entity (advance (sentence_offset + token_offset) c in_entity).1)
                 (advance (sentence_offset + token_offset) c in_entity).2.
Proof.
  unfold token_step. cbn [fst snd].
  destruct (advance _ c in_entity) as [c1 f1]. cbn [fst snd].
  destruct (assign_tag _ (current_entity c1) f1) as [tag f2].
  destruct (whitespace_marker _ _ _) as [w|]; [|done].
  cbn [mbind option_bind]. by intros [= <- <-].
Qed.

Lemma chain_app_r (es1 es2 : list Entity) : chain (es1 ++ es2) → chain es2.
Proof. unfold chain. induction es1 as [|a es1 IH]; [done|]. intros H. apply IH. by inversion H. Qed.

(** The tag of one token, when the cursor is a chain that still holds every
    entity that covers this or a later position. *)
Lemma token_step_tag_spec sentence sentence_offset c in_entity token token_offset st' row
    all (lb : Z) :
  chain (cursor_entities c) →
  (∀ e, e ∈ cursor_entities c → e ∈ all) →
  (∀ e o, e ∈ all → lb <= o → covers e o → e ∈ cursor_entities c) →
  lb <= sentence_offset + token_offset →
  token_step document_text sentence sentence_offset (c, in_entity) token token_offset
  = Some (st', row) →
  tag_spec all (sentence_offset + token_offset) row
  ∧ chain (cursor_entities st'.1)
  ∧ (∀ e, e ∈ cursor_entities st'.1 → e ∈ all)
  ∧ (∀ e o, e ∈ all → sentence_offset + token_offset <= o → covers e o →
            e ∈ cursor_entities st'.1).
Proof.
  intros Hchain Hsub Hheld Hlb Hstep.
  apply token_step_unfold in Hstep as [Hc Htag].
  set (o := sentence_offset + token_offset) in *.
  destruct (advance_spec o c in_entity) as (dropped & Heq & Hdrop & Hcur).
  rewrite <- Hc in *. clear Hc.
  assert (Hgone : ∀ e o', e ∈ dropped → o <= o' → ¬ covers e o').
  { intros e o' He Ho' Hcov. eapply Forall_forall in Hdrop; [|exact He].
    unfold covers, in_range in Hcov. simpl in Hdrop. lia. }
  assert (Hheld1 : ∀ e o', e ∈ all → o <= o' → covers e o' → e ∈ cursor_entities st'.1).
  { intros e o' He Ho' Hcov. pose proof (Hheld e o' He ltac:(lia) Hcov) as Hin.
    rewrite Heq in Hin. apply elem_of_app in Hin as [Hin|Hin]; [|done].
    by destruct (Hgone e o' Hin Ho' Hcov). }
  assert (Hchain1 : chain (cursor_entities st'.1)).
  { rewrite Heq in Hchain. by eapply chain_app_r. }
  assert (Hsub1 : ∀ e, e ∈ cursor_entities st'.1 → e ∈ all).
  { intros e He. apply Hsub. rewrite Heq. apply elem_of_app. by right. }
  split; [|done].
  unfold assign_tag in Htag. unfold cursor_entities in Hchain1, Hsub1, Hheld1.
  destruct (current_entity st'.1) as [e'|] eqn:He'.
  - destruct (in_range o (Entity.start e') (Entity.stop e')) eqn:Hin.
    + left. exists e'. split; [apply Hsub1; by left|]. split; [done|].
      destruct (negb _); injection Htag as -> _; auto.
    + right. injection Htag as -> _. split; [done|].
      intros e He Hcov. pose proof (Hheld1 e o He ltac:(lia) Hcov) as Hin'.
      apply elem_of_cons in Hin' as [->|Hin']; [unfold covers in Hcov; congruence|].
      apply StronglySorted_inv in Hchain1 as [_ Hbefore].
      eapply Forall_forall in Hbefore; [|exact Hin'].
      unfold Entity.is_before in Hbefore. specialize (Hcur e' eq_refl).
      unfold covers, in_range in Hcov. lia.
  - right. injection Htag as -> _. split; [done|].
    intros e He Hcov. pose proof (Hheld1 e o He ltac:(lia) Hcov) as Hin'.
    by apply elem_of_nil in Hin'.
Qed.

Lemma token_loop_tag_spec sentence sentence_offset tokens : ∀ c in_entity st' rows all (lb : Z),
  chain (cursor_entities c) →
  (∀ e, e ∈ cursor_entities c → e ∈ all) →
  (∀ e o, e ∈ all → lb <= o → covers e o → e ∈ cursor_entities c) →
  StronglySorted Z.le ((λ t : string * Z, sentence_offset + t.2) <$> tokens) →
  Forall (λ o, lb <= o) ((λ t : string * Z, sentence_offset + t.2) <$> tokens) →
  token_loop document_text sentence sentence_offset (c, in_entity) tokens = Some (st', rows) →
  Forall2 (λ t row, tag_spec all (sentence_offset + t.2) row) tokens rows
  ∧ chain (cursor_entities st'.1)
  ∧ (∀ e, e ∈ cursor_entities st'.1 → e ∈ all)
  ∧ (∀ ub, lb <= ub →
           Forall (λ o, o <= ub) ((λ t : string * Z, sentence_offset + t.2) <$> tokens) →
           ∀ e o, e ∈ all → ub <= o → covers e o → e ∈ cursor_entities st'.1).
Proof.
  induction tokens as [|[token token_offset] tokens IH];
    intros c in_entity st' rows all lb Hchain Hsub Hheld Hsorted Hlb H.
  - injection H as <- <-. split; [constructor|]. split; [done|]. split; [done|].
    intros ub Hub _ e o He Ho. apply Hheld; [done|lia].
  - cbn [token_loop] in H. rewrite fmap_cons in Hsorted, Hlb. cbn [snd] in Hsorted, Hlb.
    apply StronglySorted_inv in Hsorted as [Hsorted Hfirst].
    apply Forall_cons in Hlb as [Hlb0 Hlb].
    destruct (token_step _ _ _ (c, in_entity) token token_offset) as [[[c1 f1] row]|] eqn:Hstep;
      [|done].
    cbn [mbind option_bind] in H.
    destruct (token_loop _ _ _ (c1, f1) tokens) as [[st2 rows2]|] eqn:Hl; [|done].
    injection H as <- <-.
    destruct (token_step_tag_spec _ _ _ _ _ _ _ _ all lb Hchain Hsub Hheld Hlb0 Hstep)
      as (Htag & Hchain1 & Hsub1 & Hheld1).
    cbn [fst] in Hchain1, Hsub1, Hheld1.
    destruct (IH c1 f1 st2 rows2 all (sentence_offset + token_offset)
                Hchain1 Hsub1 Hheld1 Hsorted Hfirst Hl) as (Hrows & Hchain2 & Hsub2 & Hheld2).
    split; [by constructor|]. split; [done|]. split; [done|].
    intros ub Hub Hall e o He Ho. rewrite fmap_cons in Hall. cbn [snd] in Hall.
    apply Forall_cons in Hall as [Hub0 Hall]. by eapply (Hheld2 ub).
Qed.

End coverage.

Section coverage_document.
Variable tokenizer : string → list string * list Z.
Variable document_text : string.
Implicit Types (c : Cursor) (all : list Entity).

Lemma list_maximum (l : list Z) : l ≠ [] → ∃ m, m ∈ l ∧ Forall (λ x, x <= m) l.
Proof.
  induction l as [|x l IH]; [done|]. intros _. destruct l as [|y l].
  - exists x. split; [by left|]. by repeat constructor.
  - destruct (IH ltac:(done)) as (m & Hm & Hall).
    destruct (Z.le_gt_cases x m).
    + exists m. split; [by right|]. by constructor.
    + exists x. split; [by left|]. constructor; [lia|].
      eapply Forall_impl; [exact Hall|]. intros z Hz. simpl in Hz. lia.
Qed.

Lemma list_lower_bound (l : list Z) : ∃ lb, Forall (λ x, lb <= x) l.
Proof.
  induction l as [|x l [lb IH]]; [by exists 0|].
  exists (Z.min lb x). constructor; [lia|].
  eapply Forall_impl; [exact IH|]. intros z Hz. simpl in Hz. lia.
Qed.

Lemma sentence_loop_tag_spec sentences : ∀ c cfinal rowss all (lb : Z),
  chain (cursor_entities c) →
  (∀ e, e ∈ cursor_entities c → e ∈ all) →
  (∀ e o, e ∈ all → lb <= o → covers e o → e ∈ cursor_entities c) →
  StronglySorted Z.le (document_positions tokenizer sentences) →
  Forall (λ o, lb <= o) (document_positions tokenizer sentences) →
  sentence_loop tokenizer document_text c sentences = Some (cfinal, rowss) →
  Forall2 (λ (p : string * Z) rows,
             Forall2 (λ (t : string * Z) row, tag_spec all (p.2 + t.2) row)
                     (zip (tokenizer p.1).1 (tokenizer p.1).2) rows)
          sentences rowss.
Proof.
  induction sentences as [|[sentence offset] sentences IH];
    intros c cfinal rowss all lb Hchain Hsub Hheld Hsorted Hlb H.
  - injection H as <- <-. constructor.
  - unfold document_positions in Hsorted, Hlb. rewrite fmap_cons in Hsorted, Hlb.
    cbn [concat fst snd] in Hsorted, Hlb.
    fold (document_positions tokenizer sentences) in Hsorted, Hlb.
    apply Forall_app in Hlb as [Hlb1 Hlb2].
    pose proof (StronglySorted_app_1_l _ _ _ Hsorted) as Hsorted1.
    pose proof (StronglySorted_app_1_r _ _ _ Hsorted) as Hsorted2.
    cbn [sentence_loop] in H. rewrite sentence_step_unfold in H.
    destruct (token_loop _ _ _ _ _) as [[st rows]|] eqn:Hl; [|done].
    cbn [mbind option_bind] in H.
    destruct (sentence_loop tokenizer document_text st.1 sentences) as [[c2 rowss2]|] eqn:Hrest;
      [|done].
    cbn [mbind option_bind] in H. injection H as <- <-.
    destruct (token_loop_tag_spec document_text sentence offset _ c false st rows all lb
                Hchain Hsub Hheld Hsorted1 Hlb1 Hl) as (Hrows & Hchain1 & Hsub1 & Hheld1).
    constructor; [exact Hrows|].
    (* a bound between the positions of this sentence and those that follow *)
    assert (∃ ub, lb <= ub
                  ∧ Forall (λ o, o <= ub) (token_positions tokenizer sentence offset)
                  ∧ Forall (λ o, ub <= o) (document_positions tokenizer sentences))
      as (ub & Hub & Hbelow & Habove).
    { destruct (token_positions tokenizer sentence offset) as [|x l] eqn:Hpos.
      - exists lb. split; [lia|]. split; [constructor|done].
      - destruct (list_maximum (x :: l) ltac:(done)) as (m & Hm & Hmax).
        exists m. split; [by eapply Forall_forall in Hlb1; [|exact Hm]|]. split; [done|].
        apply Forall_forall. intros y Hy.
        by eapply (StronglySorted_app_1_elem_of _ _ _ _ _ Hsorted). }
    eapply (IH st.1 c2 rowss2 all ub); try done.
    by apply Hheld1.
Qed.

(** Sorted by start, entities of which no two intersect make a chain. *)
Lemma sorted_independent_chain (es : list Entity) :
  StronglySorted (λ a b, Entity.le_start_stop a b = true) es →
  independent es → Forall Entity.wf es → chain es.
Proof.
  unfold chain. induction 1 as [|a es Hs IH Ha]; intros Hind Hwf; [constructor|].
  destruct Hind as [Hfree Hind]. apply Forall_cons in Hwf as [Hwfa Hwf].
  constructor; [by apply IH|].
  apply Forall_forall. intros b Hb.
  eapply Forall_forall in Ha; [|exact Hb]. eapply Forall_forall in Hfree; [|exact Hb].
  eapply Forall_forall in Hwf; [|exact Hb].
  unfold Entity.is_before. unfold Entity.le_start_stop in Ha.
  destruct (Z.leb_spec (Entity.stop a) (Entity.start b)) as [|Hlt]; [done|].
  exfalso. apply Hfree. apply intersects_iff; [done..|]. unfold Entity.wf in *. lia.
Qed.

Lemma initial_cursor_entities (entities : list Entity) :
  cursor_entities (initial_cursor entities) = sorted_by Entity.le_start_stop entities.
Proof. unfold initial_cursor. by destruct (sorted_by _ _). Qed.

End coverage_document.

(** X9. When no two entities of a document intersect and the tokens come
    in the order of the text, every token is tagged by where it starts:
    [B-] or [I-] with the type of an entity whose span contains the start
    of the token, and [O] when no entity's span contains it. *)
Theorem tokens_tagged_by_position (fix_text : string → string)
    (tokenizer sentence_splitter : string → list string * list Z)
    (text : string) (entities : list Entity) (rowss : list (list Row))
    (Hindependent : independent entities)
    (Hwf : Forall Entity.wf entities)
    (Horder : StronglySorted Z.le
                (document_positions tokenizer
                   (zip (sentence_splitter (fix_text text)).1
                        (sentence_splitter (fix_text text)).2)))
    (Hrows : document_rows fix_text tokenizer sentence_splitter text entities = Some rowss) :
  Forall2 (λ (p : string * Z) rows,
             Forall2 (λ (t : string * Z) row, tag_spec entities (p.2 + t.2) row)
                     (zip (tokenizer p.1).1 (tokenizer p.1).2) rows)
          (zip (sentence_splitter (fix_text text)).1 (sentence_splitter (fix_text text)).2)
          rowss.
Proof.
  unfold document_rows in Hrows.
  destruct (sentence_splitter (fix_text text)) as [sentences offsets]. cbn [fst snd] in *.
  destruct (sentence_loop _ _ _ _) as [[c rowss0]|] eqn:Hloop; [|done].
  cbn [mbind option_bind] in Hrows. injection Hrows as <-.
  destruct (list_lower_bound (document_positions tokenizer (zip sentences offsets)))
    as [lb Hlb].
  assert (Hperm : sorted_by Entity.le_start_stop entities ≡ₚ entities)
    by apply sorted_by_perm.
  eapply (sentence_loop_tag_spec tokenizer (fix_text text) _ _ c rowss0 entities lb);
    [| | |exact Horder|exact Hlb|exact Hloop].
  - rewrite initial_cursor_entities. apply sorted_independent_chain.
    + apply sorted_by_sorted; unfold Entity.le_start_stop; intros; lia.
    + by eapply independent_perm; [symmetry|].
    + by rewrite Hperm.
  - intros e. rewrite initial_cursor_entities. by rewrite Hperm.
  - intros e o He _ _. rewrite initial_cursor_entities. by rewrite Hperm.
Qed.

Lemma tokens_tagged_by_position_witness :
  let entities := [Entity.mk 6 9 "Y"; Entity.mk 0 1 "X"] in
  let text := "a big" +:+ String "010" "red dog" in
  independent entities
  ∧ Forall Entity.wf entities
  ∧ StronglySorted Z.le
      (document_positions whitespace_tokenize
         (zip (sentence_split_at_newline text).1 (sentence_split_at_newline text).2))
  ∧ document_rows (λ s, s) whitespace_tokenize sentence_split_at_newline text entities
    = Some [[mkOutRow "a" "B-X" "+"; mkOutRow "big" "O" "+"];
            [mkOutRow "red" "B-Y" "+"; mkOutRow "dog" "O" "+"]]
  ∧ Forall2 (λ (p : string * Z) rows,
               Forall2 (λ (t : string * Z) row, tag_spec entities (p.2 + t.2) row)
                       (zip (whitespace_tokenize p.1).1 (whitespace_tokenize p.1).2) rows)
            (zip (sentence_split_at_newline text).1 (sentence_split_at_newline text).2)
            [[mkOutRow "a" "B-X" "+"; mkOutRow "big" "O" "+"];
             [mkOutRow "red" "B-Y" "+"; mkOutRow "dog" "O" "+"]].
Proof.
  intros entities text.
  assert (H1 : independent entities).
  { simpl. repeat split; try constructor; [|constructor].
    intros (x & ? & ?). simpl in *. lia. }
  assert (H2 : Forall Entity.wf entities).
  { repeat constructor; unfold Entity.wf; simpl; lia. }
  assert (H3 : StronglySorted Z.le
      (document_positions whitespace_tokenize
         (zip (sentence_split_at_newline text).1 (sentence_split_at_newline text).2))).
  { vm_compute. repeat constructor; intros ?; discriminate. }
  assert (H4 : document_rows (λ s, s) whitespace_tokenize sentence_split_at_newline text entities
    = Some [[mkOutRow "a" "B-X" "+"; mkOutRow "big" "O" "+"];
            [mkOutRow "red" "B-Y" "+"; mkOutRow "dog" "O" "+"]]) by (by vm_compute).
  do 4 (split; [done|]).
  exact (tokens_tagged_by_position _ _ _ text entities _ H1 H2 H3 H4).
Defined.

(** ** The resolver at the edges *)

Section resolver_edges.
Implicit Types (dp : list DPRow) (l : list Entity) (e : Entity).

Lemma getitem_elem {A : Type} (xs : list A) (i : Z) (x : A) : getitem xs i = Some x → x ∈ xs.
Proof.
  unfold getitem. destruct (0 <=? i); [by apply list_elem_of_lookup_2|].
  destruct (_ <=? i); [by apply list_elem_of_lookup_2|done].
Qed.

(** Every step appends one row: a row for the new entity or the last row
    again. *)
Lemma dp_step_row dp e dp' :
  dp_step dp e = Some dp' →
  ∃ r, dp' = dp ++ [r]
       ∧ ((last_entity r = Some e ∧ position_end r = Entity.stop e) ∨ r ∈ dp).
Proof.
  unfold dp_step.
  destruct (search_back _ _ _) as [i|]; [|done]. cbn [mbind option_bind].
  destruct (getitem dp i) as [ri|]; [|done]. cbn [mbind option_bind].
  destruct (getitem dp (-1)) as [rl|] eqn:Hl; [|done]. cbn [mbind option_bind].
  destruct (_ || _); intros [= <-]; eexists; (split; [done|]).
  - by left.
  - right. by eapply getitem_elem.
Qed.

Lemma dp_run_rows l : ∀ dp dp',
  dp_run dp l = Some dp' →
  ∃ rs, dp' = dp ++ rs ∧ length rs = length l
        ∧ ∀ r a, r ∈ rs → last_entity r = Some a → a ∈ l ∨ ∃ r0, r0 ∈ dp ∧ last_entity r0 = Some a.
Proof.
  induction l as [|e l IH]; intros dp dp' H.
  - injection H as <-. exists []. rewrite app_nil_r. split; [done|]. split; [done|].
    intros r a Hr. by apply elem_of_nil in Hr.
  - cbn [dp_run] in H. destruct (dp_step dp e) as [dp1|] eqn:Hstep; [|done].
    cbn [mbind option_bind] in H.
    destruct (dp_step_row dp e dp1 Hstep) as (r1 & -> & Hr1).
    destruct (IH _ _ H) as (rs & -> & Hlen & Hmem).
    exists (r1 :: rs). rewrite <- app_assoc. split; [done|]. split; [simpl; by rewrite Hlen|].
    intros r a [->|Hr]%elem_of_cons Ha.
    + destruct Hr1 as [[He _]|Hin].
      * left. rewrite He in Ha. injection Ha as <-. by left.
      * right. by exists r1.
    + destruct (Hmem r a Hr Ha) as [?|(r0 & [Hr0|Hr0%list_elem_of_singleton]%elem_of_app & Ha0)].
      * left. by right.
      * right. by exists r0.
      * subst r0. destruct Hr1 as [[He _]|Hin].
        -- left. rewrite He in Ha0. injection Ha0 as <-. by left.
        -- right. by exists r1.
Qed.

Lemma walk_back_length rs : ∀ p,
  (length (walk_back (rs ++ [mkRow 0 0 0 None]) p) ≤ length rs)%nat.
Proof.
  induction rs as [|r rs IH]; intros p; [done|]. cbn [app walk_back].
  destruct (last_entity r) as [a|]; [|simpl; lia].
  destruct (_ <=? _); simpl; [specialize (IH (p - Entity.span_len a))|specialize (IH p)]; lia.
Qed.

(** When the search finds every row ending after [start], the subscript
    runs off the table. *)
Lemma search_back_raises dp start (k : nat) :
  (∀ r, r ∈ dp → start < position_end r) → search_back dp start k = None.
Proof.
  intros Hall. induction k as [|k IH]; [done|]. cbn [search_back].
  destruct (getitem dp _) as [row|] eqn:Hrow; [|done]. cbn [mbind option_bind].
  apply getitem_elem in Hrow. specialize (Hall row Hrow).
  by destruct (Z.gtb_spec (position_end row) start); [|lia].
Qed.

Lemma dp_run_negative l : ∀ dp,
  Forall (λ r, 0 <= position_end r) dp → Forall Entity.wf l →
  (∃ e, e ∈ l ∧ Entity.start e < 0) → dp_run dp l = None.
Proof.
  induction l as [|e l IH]; intros dp Hdp Hwf (x & Hx & Hneg).
  { by apply elem_of_nil in Hx. }
  apply Forall_cons in Hwf as [Hwfe Hwf]. cbn [dp_run].
  destruct (dp_step dp e) as [dp1|] eqn:Hstep; [|done]. cbn [mbind option_bind].
  destruct (Z.lt_ge_cases (Entity.start e) 0) as [Hlt|Hge].
  - exfalso. unfold dp_step in Hstep. rewrite search_back_raises in Hstep; [done|].
    intros r Hr. eapply Forall_forall in Hdp; [|exact Hr]. simpl in Hdp. lia.
  - apply IH; [|done|].
    + destruct (dp_step_row dp e dp1 Hstep) as (r & -> & Hr).
      apply Forall_app. split; [done|]. apply Forall_singleton.
      destruct Hr as [[_ ->]|Hin]; [unfold Entity.wf in Hwfe; lia|].
      by eapply Forall_forall in Hdp; [|exact Hin].
    + apply elem_of_cons in Hx as [->|Hx]; [lia|]. by exists x.
Qed.

Lemma search_back_last dp r start :
  last dp = Some r → position_end r <= start →
  search_back dp start (2 * length dp) = Some (Z.of_nat (length dp - 1)).
Proof.
  intros Hlast Hle.
  assert (0 < length dp)%nat as Hlen by (destruct dp; [done|simpl; lia]).
  replace (2 * length dp)%nat with (S ((length dp - 1) + length dp)) by lia.
  cbn [search_back].
  replace (Z.of_nat (length dp - 1 + length dp) - Z.of_nat (length dp))
    with (Z.of_nat (length dp - 1)) by lia.
  rewrite getitem_nat. rewrite last_lookup in Hlast.
  replace (length dp - 1)%nat with (pred (length dp)) by lia. rewrite Hlast.
  cbn [mbind option_bind]. by destruct (Z.gtb_spec (position_end r) start); [lia|].
Qed.

(** On a chain every step adds a row for its entity. *)
Lemma dp_run_chain_rows l : ∀ dp r,
  last dp = Some r → chain l →
  (∀ e, e ∈ l → position_end r <= Entity.start e ∧ Entity.wf e) →
  ∃ rs, dp_run dp l = Some (dp ++ rs)
        ∧ Forall2 (λ row e, last_entity row = Some e ∧ position_end row = Entity.stop e) rs l.
Proof.
  induction l as [|e l IH]; intros dp r Hlast Hchain Hafter.
  - exists []. rewrite app_nil_r. by split.
  - apply StronglySorted_inv in Hchain as [Hchain Hbefore].
    destruct (Hafter e ltac:(by left)) as [Hle Hwf].
    cbn [dp_run]. unfold dp_step.
    rewrite (search_back_last dp r _ Hlast Hle). cbn [mbind option_bind].
    rewrite getitem_nat, getitem_last, Hlast.
    assert (dp !! (length dp - 1)%nat = Some r) as ->.
    { rewrite last_lookup in Hlast. by replace (length dp - 1)%nat with (pred (length dp)) by lia. }
    cbn [mbind option_bind].
    destruct (Z.gtb_spec (num_entities r + 1) (num_entities r)); [|lia]. cbn [orb].
    cbn [mbind option_bind].
    set (row := mkRow (Entity.stop e) (num_entities r + 1)
                      (sum_lengths r + Entity.span_len e) (Some e)).
    destruct (IH (dp ++ [row]) row) as (rs & Hrun & Hrows); [by rewrite last_snoc|done| |].
    + intros e' He'. split; [|by apply Hafter; right].
      eapply Forall_forall in Hbefore; [|exact He']. unfold Entity.is_before in Hbefore.
      simpl. lia.
    + exists (row :: rs). rewrite Hrun, <- app_assoc. split; [done|]. by constructor.
Qed.

(** Walking back over the rows of a chain returns the chain, last entity
    first. *)
Lemma walk_back_chain l : ∀ rs p,
  Forall2 (λ row e, last_entity row = Some e ∧ position_end row = Entity.stop e) rs l →
  chain l → Forall Entity.wf l →
  (∀ e, last l = Some e → Entity.stop e <= p) →
  walk_back (rev rs ++ [mkRow 0 0 0 None]) p = rev l.
Proof.
  induction l as [|e l IH] using rev_ind; intros rs p Hrows Hchain Hwf Hp.
  - apply Forall2_nil_inv_r in Hrows as ->. done.
  - apply Forall2_app_inv_r in Hrows as (rs1 & rs2 & Hrows1 & Hrows2 & ->).
    apply Forall2_cons_inv_r in Hrows2 as (row & rs3 & [He Hend] & Hnil & ->).
    apply Forall2_nil_inv_r in Hnil as ->.
    rewrite !rev_app_distr. cbn [rev app walk_back]. rewrite He.
    specialize (Hp e (last_snoc _ _)).
    destruct (Z.leb_spec (position_end row) p); [|lia].
    apply Forall_app in Hwf as [Hwf Hwfe]. apply Forall_inv in Hwfe.
    f_equal. apply IH; [done|by eapply StronglySorted_app_1_l|done|].
    intros e' He'. rewrite span_len_wf by done.
    assert (Entity.is_before e' e = true) as Hb.
    { eapply (StronglySorted_app_1_elem_of _ _ _ e' e Hchain); [|by left].
      rewrite last_lookup in He'. by eapply list_elem_of_lookup_2. }
    unfold Entity.is_before in Hb. lia.
Qed.

(** Sorted by end, entities of which no two intersect make a chain. *)
Lemma stop_sorted_independent_chain l :
  StronglySorted (λ a b, Entity.le_stop a b = true) l →
  independent l → Forall Entity.wf l → chain l.
Proof.
  unfold chain. induction 1 as [|a l Hs IH Ha]; intros Hind Hwf; [constructor|].
  destruct Hind as [Hfree Hind]. apply Forall_cons in Hwf as [Hwfa Hwf].
  constructor; [by apply IH|].
  apply Forall_forall. intros b Hb.
  eapply Forall_forall in Ha; [|exact Hb]. eapply Forall_forall in Hfree; [|exact Hb].
  eapply Forall_forall in Hwf; [|exact Hb].
  unfold Entity.is_before. unfold Entity.le_stop in Ha.
  apply Z.leb_le. apply disjoint_before; [done..|lia|done].
Qed.

End resolver_edges.

Section resolver_dataset.
Implicit Types (d : gmap string (list Entity)) (l : list Entity).

Lemma count_entities_insert d (id : string) l :
  d !! id = None →
  count_entities (<[id := l]> d) = Z.of_nat (length l) + count_entities d.
Proof.
  intros Hid. unfold count_entities. rewrite map_fold_insert_L; [done| |done].
  intros. lia.
Qed.

(** Rebuilding every list by a function that does not lengthen it does
    not raise the count; one that keeps the lengths keeps the count. *)
Lemma count_entities_omap (f : list Entity → option (list Entity)) d :
  (∀ id l out, d !! id = Some l → f l = Some out → (length out ≤ length l)%nat) →
  count_entities (omap f d) <= count_entities d.
Proof.
  induction d as [|id l d Hid IH] using map_ind; intros Hlen.
  - by rewrite omap_empty.
  - assert (IH' : count_entities (omap f d) <= count_entities d).
    { apply IH. intros id' l' out Hl. apply (Hlen id'). rewrite lookup_insert_ne; [done|].
      intros ->. congruence. }
    rewrite count_entities_insert by done.
    destruct (f l) as [out|] eqn:Hf.
    + rewrite (omap_insert_Some f d id l out Hf).
      rewrite count_entities_insert by (by rewrite lookup_omap, Hid).
      pose proof (Hlen id l out ltac:(by rewrite lookup_insert_eq) Hf). lia.
    + rewrite (omap_insert_None f d id l Hf).
      rewrite delete_id by (by rewrite lookup_omap, Hid). lia.
Qed.

Lemma count_entities_omap_same (f : list Entity → option (list Entity)) d :
  (∀ id l, d !! id = Some l → ∃ out, f l = Some out ∧ length out = length l) →
  count_entities (omap f d) = count_entities d.
Proof.
  induction d as [|id l d Hid IH] using map_ind; intros Hlen.
  - by rewrite omap_empty.
  - assert (IH' : count_entities (omap f d) = count_entities d).
    { apply IH. intros id' l' Hl. apply (Hlen id'). rewrite lookup_insert_ne; [done|].
      intros ->. congruence. }
    rewrite count_entities_insert by done.
    destruct (Hlen id l ltac:(by rewrite lookup_insert_eq)) as (out & Hf & Hout).
    rewrite (omap_insert_Some f d id l out Hf).
    rewrite count_entities_insert by (by rewrite lookup_omap, Hid). lia.
Qed.

Lemma resolve_nested_bounds l out :
  resolve_nested l = Some out →
  (length out ≤ length l)%nat ∧ ∀ e, e ∈ out → e ∈ l.
Proof.
  unfold resolve_nested, dp_table, independent_set.
  destruct (dp_run _ _) as [dp|] eqn:Hrun; [|done]. cbn [mbind option_bind].
  destruct (getitem dp (-1)) as [rl|]; [|done]. cbn [mbind option_bind]. intros [= <-].
  destruct (dp_run_rows _ _ _ Hrun) as (rs & -> & Hlen & Hmem).
  assert (Hrev : rev ([mkRow 0 0 0 None] ++ rs) = rev rs ++ [mkRow 0 0 0 None])
    by (by rewrite rev_app_distr).
  rewrite Hrev. split.
  - etrans; [apply walk_back_length|]. rewrite length_rev, Hlen.
    by rewrite (Permutation_length (sorted_by_perm Entity.le_stop l)).
  - intros e He. apply walk_back_elem in He as (r & Hr & He).
    apply elem_of_app in Hr as [Hr|Hr%list_elem_of_singleton]; [|by subst r].
    apply (proj1 (elem_of_rev _ _)) in Hr.
    destruct (Hmem r e Hr He) as [Hin|(r0 & ->%list_elem_of_singleton & ?)]; [|done].
    by rewrite <- (sorted_by_perm Entity.le_stop l).
Qed.

Lemma resolve_nested_chain l :
  independent l → Forall valid_entity l →
  resolve_nested l = Some (rev (sorted_by Entity.le_stop l)).
Proof.
  intros Hind Hvalid.
  set (sorted := sorted_by Entity.le_stop l).
  assert (Hperm : sorted ≡ₚ l) by apply sorted_by_perm.
  assert (Hwf : Forall Entity.wf sorted).
  { rewrite Hperm. eapply Forall_impl; [exact Hvalid|]. by intros e [_ ?]. }
  assert (Hchain : chain sorted).
  { apply stop_sorted_independent_chain; [|by eapply independent_perm; [symmetry|]|done].
    apply sorted_by_sorted; unfold Entity.le_stop; intros; lia. }
  destruct (dp_run_chain_rows sorted [mkRow 0 0 0 None] (mkRow 0 0 0 None) eq_refl Hchain)
    as (rs & Hrun & Hrows).
  { intros e He. rewrite Hperm in He. eapply Forall_forall in Hvalid; [|exact He].
    destruct Hvalid. by split. }
  unfold resolve_nested, dp_table, independent_set. fold sorted. rewrite Hrun.
  cbn [mbind option_bind]. rewrite getitem_last.
  destruct (last ([mkRow 0 0 0 None] ++ rs)) as [rl|] eqn:Hlast.
  2:{ apply last_None in Hlast. done. }
  cbn [mbind option_bind]. f_equal.
  assert (Hrev : rev ([mkRow 0 0 0 None] ++ rs) = rev rs ++ [mkRow 0 0 0 None])
    by (by rewrite rev_app_distr).
  rewrite Hrev. apply walk_back_chain; [done..|].
  intros e He. pose proof (Forall2_last _ _ _ Hrows) as Hl. rewrite He in Hl.
  inversion Hl as [r ? [_ Hend] Hr|]; subst.
  assert (rl = r) as ->; [|lia].
  destruct rs as [|r0 rs] using rev_ind; [done|].
  rewrite app_assoc, last_snoc in Hlast. rewrite last_snoc in Hr. congruence.
Qed.

End resolver_dataset.

(** X10. On a dataset in which no two entities of a document intersect,
    [filter_nested_entities] keeps every entity: each document's new list is
    its old list sorted by end, last entity first, and [warn] is not
    called. *)
Theorem filter_nested_entities_conflict_free (dataset : InternalBioNerDataset Entity)
    (Hfree : ∀ id es, entities_per_document dataset !! id = Some es →
                      independent es ∧ Forall valid_entity es) :
  ∃ dataset',
    filter_nested_entities dataset = Some (dataset', None)
    ∧ documents dataset' = documents dataset
    ∧ ∀ id es, entities_per_document dataset !! id = Some es →
        ∃ es', entities_per_document dataset' !! id = Some es'
               ∧ es' = rev (sorted_by Entity.le_stop es)
               ∧ es' ≡ₚ es.
Proof.
  unfold filter_nested_entities.
  rewrite dict_mapM_Some.
  2:{ intros k es Hk. destruct (Hfree k es Hk) as [Hind Hv].
      rewrite (resolve_nested_chain es Hind Hv). by eexists. }
  cbn [mbind option_bind].
  rewrite (count_entities_omap_same resolve_nested).
  2:{ intros id es Hid. destruct (Hfree id es Hid) as [Hind Hv].
      rewrite (resolve_nested_chain es Hind Hv). eexists. split; [done|].
      by rewrite length_rev, (Permutation_length (sorted_by_perm Entity.le_stop es)). }
  destruct (decide _) as [Hne|_]; [done|].
  eexists. split; [done|]. split; [done|].
  intros id es Hid. cbn [entities_per_document]. rewrite lookup_omap, Hid.
  destruct (Hfree id es Hid) as [Hind Hv]. cbn [mbind option_bind].
  rewrite (resolve_nested_chain es Hind Hv). eexists. split; [done|]. split; [done|].
  rewrite <- (sorted_by_perm Entity.le_stop es) at 2.
  apply Permutation_sym, Permutation_rev.
Qed.

Lemma filter_nested_entities_conflict_free_witness :
  let dataset : InternalBioNerDataset Entity :=
    mkDataset {["d" := "some text here"]}
              {["d" := [Entity.mk 10 14 "Y"; Entity.mk 0 4 "X"; Entity.mk 5 9 "X"]]} in
  (∀ id es, entities_per_document dataset !! id = Some es →
            independent es ∧ Forall valid_entity es)
  ∧ ∃ dataset',
      filter_nested_entities dataset = Some (dataset', None)
      ∧ entities_per_document dataset' !! "d"
        = Some [Entity.mk 10 14 "Y"; Entity.mk 5 9 "X"; Entity.mk 0 4 "X"].
Proof.
  intros dataset.
  assert (Hfree : ∀ id es, entities_per_document dataset !! id = Some es →
                           independent es ∧ Forall valid_entity es).
  { intros id es Hid. unfold dataset in Hid. cbn [entities_per_document] in Hid.
    apply lookup_singleton_Some in Hid as [_ <-]. split.
    - simpl. repeat split; repeat constructor; intros (x & ? & ?); simpl in *; lia.
    - repeat constructor; unfold Entity.wf; simpl; lia. }
  split; [exact Hfree|].
  destruct (filter_nested_entities_conflict_free dataset Hfree) as (dataset' & Hrun & _ & Hl).
  exists dataset'. split; [exact Hrun|].
  destruct (Hl "d" _ eq_refl) as (es' & -> & -> & _). done.
Defined.

(** X11. An entity with a negative start makes [filter_nested_entities]
    raise: the backward search of the table runs past its first row
    ([IndexError]). *)
Theorem filter_nested_entities_negative_start (dataset : InternalBioNerDataset Entity)
    (id : string) (es : list Entity) (e : Entity)
    (Hid : entities_per_document dataset !! id = Some es)
    (Hwf : Forall Entity.wf es)
    (He : e ∈ es)
    (Hneg : Entity.start e < 0) :
  filter_nested_entities dataset = None.
Proof.
  assert (Hnone : resolve_nested es = None).
  { unfold resolve_nested, dp_table. rewrite dp_run_negative; [done|by repeat constructor| |].
    - by rewrite sorted_by_perm.
    - exists e. split; [|done]. by rewrite sorted_by_perm. }
  unfold filter_nested_entities, dict_mapM.
  destruct (decide _) as [Hall|]; [|done].
  rewrite map_Forall_lookup in Hall. specialize (Hall id es Hid). cbn beta in Hall.
  rewrite Hnone in Hall. by destruct Hall.
Qed.

Lemma filter_nested_entities_negative_start_witness :
  let dataset : InternalBioNerDataset Entity :=
    mkDataset {["d" := "text"]} {["d" := [Entity.mk 0 4 "X"; Entity.mk (-2) 3 "Y"]]} in
  entities_per_document dataset !! "d" = Some [Entity.mk 0 4 "X"; Entity.mk (-2) 3 "Y"]
  ∧ Forall Entity.wf [Entity.mk 0 4 "X"; Entity.mk (-2) 3 "Y"]
  ∧ Entity.mk (-2) 3 "Y" ∈ [Entity.mk 0 4 "X"; Entity.mk (-2) 3 "Y"]
  ∧ Entity.start (Entity.mk (-2) 3 "Y") < 0
  ∧ Entity.init (-2, 3) "Y" = Some (Entity.mk (-2) 3 "Y")
  ∧ filter_nested_entities dataset = None.
Proof.
  intros dataset.
  assert (H1 : entities_per_document dataset !! "d"
               = Some [Entity.mk 0 4 "X"; Entity.mk (-2) 3 "Y"]) by done.
  assert (H2 : Forall Entity.wf [Entity.mk 0 4 "X"; Entity.mk (-2) 3 "Y"]).
  { repeat constructor; unfold Entity.wf; simpl; lia. }
  assert (H3 : Entity.mk (-2) 3 "Y" ∈ [Entity.mk 0 4 "X"; Entity.mk (-2) 3 "Y"]).
  { apply elem_of_cons. right. by apply list_elem_of_singleton. }
  assert (H4 : Entity.start (Entity.mk (-2) 3 "Y") < 0) by (simpl; lia).
  do 5 (split; [done|]).
  exact (filter_nested_entities_negative_start dataset "d" _ _ H1 H2 H3 H4).
Defined.

(** X12. Whatever [filter_nested_entities] returns, each document's new
    list is made of entities of its old list and is no longer than it, and
    the number [warn] reports is positive. *)
Theorem filter_nested_entities_bounds (dataset dataset' : InternalBioNerDataset Entity)
    (warning : option Z)
    (Hrun : filter_nested_entities dataset = Some (dataset', warning)) :
  (∀ id out, entities_per_document dataset' !! id = Some out →
     ∃ es, entities_per_document dataset !! id = Some es
           ∧ (length out ≤ length es)%nat
           ∧ ∀ e, e ∈ out → e ∈ es)
  ∧ ∀ removed, warning = Some removed → 0 < removed.
Proof.
  unfold filter_nested_entities, dict_mapM in Hrun.
  destruct (decide _) as [Hall|]; [|done]. cbn [mbind option_bind] in Hrun.
  injection Hrun as <- <-. cbn [entities_per_document]. split.
  - intros id out Hout. apply lookup_omap_Some in Hout as (es & Hres & Hid).
    exists es. split; [done|]. by apply resolve_nested_bounds.
  - intros removed.
    pose proof (count_entities_omap resolve_nested (entities_per_document dataset)) as Hle.
    destruct (decide _) as [Hne|]; [|done]. intros [= <-].
    assert (count_entities (omap resolve_nested (entities_per_document dataset))
            <= count_entities (entities_per_document dataset)); [|lia].
    apply Hle. intros id l out _ Hres. by apply resolve_nested_bounds in Hres as [? _].
Qed.

Lemma filter_nested_entities_bounds_witness :
  let dataset : InternalBioNerDataset Entity :=
    mkDataset {["d" := "some text here"]}
              {["d" := [Entity.mk 0 5 "X"; Entity.mk 3 10 "Y"; Entity.mk 10 15 "X"]]} in
  ∃ dataset',
    filter_nested_entities dataset = Some (dataset', Some 1)
    ∧ ∀ removed, Some 1 = Some removed → 0 < removed.
Proof.
  intros dataset.
  destruct (filter_nested_entities dataset) as [[dataset' warning]|] eqn:Hrun;
    [|by vm_compute in Hrun].
  assert (Hw : snd <$> filter_nested_entities dataset = Some (Some 1)) by (by vm_compute).
  rewrite Hrun in Hw. simpl in Hw. injection Hw as ->.
  exists dataset'. split; [done|].
  by destruct (filter_nested_entities_bounds dataset dataset' (Some 1) Hrun) as [_ ?].
Defined.

(** ** The span predicates *)

(** X13. For two entities with [start < stop], [is_before] excludes any
    overlap: when [a] is before [b], [overlaps] is false both ways round
    and the spans do not intersect. *)
Theorem is_before_excludes_overlap (a b : Entity)
    (Ha : Entity.wf a) (Hb : Entity.wf b)
    (Hbefore : Entity.is_before a b = true) :
  Entity.overlaps a b = false
  ∧ Entity.overlaps b a = false
  ∧ ¬ Entity.intersects a b.
Proof.
  unfold Entity.is_before, Entity.overlaps, Entity.wf in *.
  split; [lia|]. split; [lia|]. intros (x & ? & ?). lia.
Qed.

Lemma is_before_excludes_overlap_witness :
  Entity.wf (Entity.mk 0 5 "X") ∧ Entity.wf (Entity.mk 5 9 "Y")
  ∧ Entity.is_before (Entity.mk 0 5 "X") (Entity.mk 5 9 "Y") = true
  ∧ Entity.overlaps (Entity.mk 0 5 "X") (Entity.mk 5 9 "Y") = false
  ∧ Entity.overlaps (Entity.mk 5 9 "Y") (Entity.mk 0 5 "X") = false.
Proof.
  assert (Ha : Entity.wf (Entity.mk 0 5 "X")) by (unfold Entity.wf; simpl; lia).
  assert (Hb : Entity.wf (Entity.mk 5 9 "Y")) by (unfold Entity.wf; simpl; lia).
  split; [exact Ha|]. split; [exact Hb|]. split; [done|].
  destruct (is_before_excludes_overlap _ _ Ha Hb eq_refl) as (H1 & H2 & _). by split.
Defined.

(** X14. [contains] orders the spans: it is reflexive and transitive, two
    entities that contain each other have the same span, and an entity
    overlaps every entity with [start < stop] that it contains. *)
Theorem contains_order (a b c : Entity) :
  Entity.contains a a = true
  ∧ (Entity.contains a b = true → Entity.contains b c = true → Entity.contains a c = true)
  ∧ (Entity.contains a b = true → Entity.contains b a = true →
     Entity.start a = Entity.start b ∧ Entity.stop a = Entity.stop b)
  ∧ (Entity.contains a b = true → Entity.wf b → Entity.overlaps a b = true).
Proof. unfold Entity.contains, Entity.overlaps, Entity.wf. repeat split; lia. Qed.

(** X15. For two entities with [start < stop], the spans intersect exactly
    when [overlaps] holds one way round or the other, and exactly when
    neither entity is before the other. *)
Theorem intersects_characterised (a b : Entity) (Ha : Entity.wf a) (Hb : Entity.wf b) :
  (Entity.intersects a b ↔ Entity.overlaps a b = true ∨ Entity.overlaps b a = true)
  ∧ (Entity.intersects a b
     ↔ Entity.is_before a b = false ∧ Entity.is_before b a = false).
Proof.
  rewrite (intersects_iff a b Ha Hb).
  unfold Entity.overlaps, Entity.is_before, Entity.wf in *. split; split; lia.
Qed.

Lemma intersects_characterised_witness :
  Entity.wf (Entity.mk 3 5 "X") ∧ Entity.wf (Entity.mk 0 10 "Y")
  ∧ Entity.overlaps (Entity.mk 3 5 "X") (Entity.mk 0 10 "Y") = false
  ∧ Entity.intersects (Entity.mk 3 5 "X") (Entity.mk 0 10 "Y").
Proof.
  assert (Ha : Entity.wf (Entity.mk 3 5 "X")) by (unfold Entity.wf; simpl; lia).
  assert (Hb : Entity.wf (Entity.mk 0 10 "Y")) by (unfold Entity.wf; simpl; lia).
  split; [exact Ha|]. split; [exact Hb|]. split; [done|].
  apply (proj1 (intersects_characterised _ _ Ha Hb)). by right.
Defined.

(** ** Merging and restricting datasets *)

Section dataset_facts.
Context {E : Type}.
Implicit Types (ds : InternalBioNerDataset E) (dss : list (InternalBioNerDataset E)).

Lemma dataset_eq ds1 ds2 :
  (∀ k, documents ds1 !! k = documents ds2 !! k) →
  (∀ k, entities_per_document ds1 !! k = entities_per_document ds2 !! k) →
  ds1 = ds2.
Proof.
  destruct ds1, ds2. cbn [documents entities_per_document]. intros H1 H2.
  f_equal; by apply map_eq.
Qed.

Lemma last_binding_app {V : Type} (k : string) (xs ys : list (gmap string V)) :
  last_binding k (xs ++ ys)
  = match last_binding k ys with Some v => Some v | None => last_binding k xs end.
Proof.
  induction xs as [|x xs IH]; cbn [app last_binding]; [by destruct (last_binding k ys)|].
  rewrite IH. by destruct (last_binding k ys).
Qed.

Lemma merge_datasets_lookup dss k :
  documents (merge_datasets dss) !! k = last_binding k (documents <$> dss)
  ∧ entities_per_document (merge_datasets dss) !! k
    = last_binding k (entities_per_document <$> dss).
Proof.
  destruct (merge_from_lookup dss (mkDataset ∅ ∅) k) as [Hd He].
  unfold merge_datasets. rewrite Hd, He. cbn [documents entities_per_document].
  rewrite !lookup_empty.
  by destruct (last_binding k (documents <$> dss)),
              (last_binding k (entities_per_document <$> dss)).
Qed.

End dataset_facts.

(** X16. Merging can be done in stages: merging a list of collections
    gives the same collection as merging the merge of a first part with the
    merge of the rest, and merging a single collection gives it back. *)
Theorem merge_datasets_staged {E : Type} (dss1 dss2 : list (InternalBioNerDataset E))
    (ds : InternalBioNerDataset E) :
  merge_datasets (dss1 ++ dss2) = merge_datasets [merge_datasets dss1; merge_datasets dss2]
  ∧ merge_datasets [ds] = ds.
Proof.
  split; apply dataset_eq; intros k.
  - destruct (merge_datasets_lookup (dss1 ++ dss2) k) as [-> _].
    destruct (merge_datasets_lookup [merge_datasets dss1; merge_datasets dss2] k) as [-> _].
    rewrite fmap_app, last_binding_app. cbn [fmap list_fmap last_binding].
    destruct (merge_datasets_lookup dss1 k) as [-> _].
    destruct (merge_datasets_lookup dss2 k) as [-> _].
    by destruct (last_binding k (documents <$> dss2)).
  - destruct (merge_datasets_lookup (dss1 ++ dss2) k) as [_ ->].
    destruct (merge_datasets_lookup [merge_datasets dss1; merge_datasets dss2] k) as [_ ->].
    rewrite fmap_app, last_binding_app. cbn [fmap list_fmap last_binding].
    destruct (merge_datasets_lookup dss1 k) as [_ ->].
    destruct (merge_datasets_lookup dss2 k) as [_ ->].
    by destruct (last_binding k (entities_per_document <$> dss2)).
  - by destruct (merge_datasets_lookup [ds] k) as [-> _].
  - by destruct (merge_datasets_lookup [ds] k) as [_ ->].
Qed.

Section subset_facts.
Context {V : Type}.
Implicit Types (d acc : gmap string V) (ids : list string) (default_factory : option V).

Lemma dict_restrict_Some default_factory d ids : ∀ acc m,
  dict_restrict default_factory d ids acc = Some m →
  ∀ k, m !! k = if decide (k ∈ ids) then subscript default_factory d k else acc !! k.
Proof.
  induction ids as [|k0 ids IH]; intros acc m H k.
  - injection H as <-. destruct (decide _) as [Hin|]; [by apply elem_of_nil in Hin|done].
  - cbn [dict_restrict] in H. destruct (subscript default_factory d k0) as [v|] eqn:Hk0; [|done].
    cbn [mbind option_bind] in H. rewrite (IH _ _ H k).
    destruct (decide (k ∈ ids)) as [Hin|Hnin].
    + destruct (decide _) as [|Hn]; [done|]. exfalso. apply Hn. by right.
    + destruct (decide (k = k0)) as [->|Hne].
      * rewrite lookup_insert_eq. destruct (decide _) as [|Hn]; [done|].
        exfalso. apply Hn. by left.
      * rewrite lookup_insert_ne by done. destruct (decide _) as [Hin|]; [|done].
        apply elem_of_cons in Hin as [?|?]; done.
Qed.

Lemma dict_restrict_None default_factory d ids : ∀ acc,
  dict_restrict default_factory d ids acc = None
  ↔ ∃ k, k ∈ ids ∧ subscript default_factory d k = None.
Proof.
  induction ids as [|k0 ids IH]; intros acc; cbn [dict_restrict].
  - split; [done|]. intros (k & Hk & _). by apply elem_of_nil in Hk.
  - destruct (subscript default_factory d k0) as [v|] eqn:Hk0; cbn [mbind option_bind].
    + rewrite IH. split.
      * intros (k & ? & ?). exists k. split; [by right|done].
      * intros (k & [->|?]%elem_of_cons & Hk); [congruence|]. by exists k.
    + split; [|done]. intros _. exists k0. split; [by left|done].
Qed.

End subset_facts.

Section select_facts.
Context {E : Type}.
Implicit Types (ds sub : InternalBioNerDataset E) (ids : list string).
Implicit Types default_factory : option (list E).

Lemma selected_ids ds ids k :
  k ∈ sorted_by String.leb (filter (λ id_, is_Some (documents ds !! id_)) ids)
  ↔ k ∈ ids ∧ is_Some (documents ds !! k).
Proof. rewrite sorted_by_perm, list_elem_of_filter. tauto. Qed.

Lemma select_ids_Some default_factory ds ids sub :
  select_ids default_factory ds ids = Some sub →
  ∀ k,
    (∀ v, documents sub !! k = Some v ↔ k ∈ ids ∧ documents ds !! k = Some v)
    ∧ (∀ es, entities_per_document sub !! k = Some es
             ↔ k ∈ ids ∧ is_Some (documents ds !! k)
               ∧ subscript default_factory (entities_per_document ds) k = Some es)
    ∧ (is_Some (documents sub !! k) ↔ is_Some (entities_per_document sub !! k)).
Proof.
  unfold select_ids.
  destruct (dict_restrict None (documents ds) _ ∅) as [docs|] eqn:Hdocs; [|done].
  cbn [mbind option_bind].
  destruct (dict_restrict default_factory (entities_per_document ds) _ ∅) as [ents|] eqn:Hents;
    [|done].
  cbn [mbind option_bind]. intros [= <-] k. cbn [documents entities_per_document].
  pose proof (dict_restrict_Some _ _ _ _ _ Hdocs k) as Hd.
  pose proof (dict_restrict_Some _ _ _ _ _ Hents k) as He.
  rewrite lookup_empty, subscript_dict in Hd. rewrite lookup_empty in He.
  assert (Hselected : k ∈ sorted_by String.leb
                          (filter (λ id_, is_Some (documents ds !! id_)) ids) →
                      is_Some (subscript default_factory (entities_per_document ds) k)).
  { intros Hin. destruct (subscript default_factory (entities_per_document ds) k) eqn:Hk;
      [by eexists|].
    assert (dict_restrict default_factory (entities_per_document ds)
              (sorted_by String.leb (filter (λ id_, is_Some (documents ds !! id_)) ids)) ∅
            = None) as Hnone by (apply dict_restrict_None; by exists k).
    congruence. }
  destruct (decide _) as [Hin|Hnin].
  - pose proof (proj1 (selected_ids ds ids k) Hin) as [Hk Hdoc].
    rewrite Hd, He. split; [|split].
    + intros v. tauto.
    + intros es. tauto.
    + split; [intros _; by apply Hselected|done].
  - rewrite Hd, He. rewrite selected_ids in Hnin. split; [|split].
    + intros v. split; [done|]. intros [? Hv]. exfalso. apply Hnin. split; [done|by eexists].
    + intros es. split; [done|]. intros (? & ? & _). by destruct Hnin.
    + split; by intros [? ?].
Qed.

Lemma select_ids_None default_factory ds ids :
  select_ids default_factory ds ids = None
  ↔ ∃ k, k ∈ ids ∧ is_Some (documents ds !! k)
         ∧ subscript default_factory (entities_per_document ds) k = None.
Proof.
  unfold select_ids.
  destruct (dict_restrict None (documents ds) _ ∅) as [docs|] eqn:Hdocs.
  - cbn [mbind option_bind].
    destruct (dict_restrict default_factory (entities_per_document ds) _ ∅) as [ents|] eqn:Hents;
      cbn [mbind option_bind].
    + split; [done|]. intros (k & Hk & Hdoc & Hnone).
      assert (dict_restrict default_factory (entities_per_document ds)
                (sorted_by String.leb (filter (λ id_, is_Some (documents ds !! id_)) ids)) ∅
              = None) as H; [|congruence].
      apply dict_restrict_None. exists k. split; [|done]. by apply selected_ids.
    + split; [|done]. intros _. apply dict_restrict_None in Hents as (k & Hk & Hnone).
      apply selected_ids in Hk as [? ?]. by exists k.
  - exfalso. apply dict_restrict_None in Hdocs as (k & Hk & Hnone).
    apply selected_ids in Hk as [_ [? ?]]. rewrite subscript_dict in Hnone. congruence.
Qed.

End select_facts.

(** X17. [get_subset] selects by id: the documents of the subset are the
    documents of the dataset named in the split file, stripped of
    whitespace; each has the entity list that [entities_per_document] gives
    for it, which for a [defaultdict(list)] without an entry is the empty
    list; and in the subset a document id has a text exactly when it has
    an entity list. *)
Theorem get_subset_selects {E : Type} (default_factory : option (list E))
    (dataset subset : InternalBioNerDataset E)
    (lines : list string) (k : string)
    (Hsubset : get_subset default_factory dataset lines = Some subset) :
  (∀ v, documents subset !! k = Some v
        ↔ k ∈ read_ids lines ∧ documents dataset !! k = Some v)
  ∧ (∀ es, entities_per_document subset !! k = Some es
           ↔ k ∈ read_ids lines ∧ is_Some (documents dataset !! k)
             ∧ match entities_per_document dataset !! k with
               | Some es' => es = es'
               | None => default_factory = Some es
               end)
  ∧ (is_Some (documents subset !! k) ↔ is_Some (entities_per_document subset !! k)).
Proof.
  destruct (select_ids_Some _ _ _ _ Hsubset k) as (Hd & He & Hdom).
  split; [done|]. split; [|done]. intros es. rewrite He, subscript_lookup.
  destruct (entities_per_document dataset !! k) as [es'|].
  - split; intros (? & ? & H); (split; [done|]); (split; [done|]); congruence.
  - done.
Qed.

(** A [defaultdict(list)] without an entry for the document [b]: the
    subset gives [b] the empty list. *)
Lemma get_subset_selects_witness :
  let dataset : InternalBioNerDataset nat :=
    mkDataset {["a" := "A"; "b" := "B"; "c" := "C"]} {["a" := [1%nat]; "c" := []]} in
  ∃ subset,
    get_subset (Some []) dataset ["b "; "zz"; ""; "a"] = Some subset
    ∧ documents subset !! "a" = Some "A"
    ∧ entities_per_document subset !! "b" = Some []
    ∧ documents subset !! "c" = None.
Proof.
  intros dataset.
  destruct (get_subset (Some []) dataset ["b "; "zz"; ""; "a"]) as [subset|] eqn:Hrun;
    [|by vm_compute in Hrun].
  exists subset. split; [done|].
  destruct (get_subset_selects (Some []) dataset subset _ "a" Hrun) as (Ha & _).
  destruct (get_subset_selects (Some []) dataset subset _ "b" Hrun) as (_ & Hb & _).
  destruct (get_subset_selects (Some []) dataset subset _ "c" Hrun) as (Hc & _).
  split; [|split].
  - apply Ha. split; [|done]. by vm_compute; repeat constructor.
  - apply Hb. split; [by vm_compute; repeat constructor|]. split; [by eexists|done].
  - destruct (documents subset !! "c") as [v|] eqn:Hv; [|done].
    destruct (proj1 (Hc v) eq_refl) as [Hin _]. vm_compute in Hin.
    repeat (apply elem_of_cons in Hin as [Hin|Hin]; [discriminate|]).
    by apply elem_of_nil in Hin.
Defined.

(** X18. [get_subset] raises exactly when [entities_per_document] is a
    [dict] and the split file names a document of the dataset that has no
    entity list ([KeyError]); with a [defaultdict] it always returns. Ids
    that name no document are passed over. *)
Theorem get_subset_raises {E : Type} (default_factory : option (list E))
    (dataset : InternalBioNerDataset E) (lines : list string) :
  get_subset default_factory dataset lines = None
  ↔ default_factory = None
    ∧ ∃ k, k ∈ read_ids lines ∧ is_Some (documents dataset !! k)
           ∧ entities_per_document dataset !! k = None.
Proof.
  unfold get_subset. rewrite select_ids_None. split.
  - intros (k & Hk & Hdoc & Hnone). rewrite subscript_lookup in Hnone.
    destruct (entities_per_document dataset !! k) eqn:He; [done|].
    split; [done|]. by exists k.
  - intros [-> (k & Hk & Hdoc & Hnone)]. exists k. by rewrite subscript_dict.
Qed.

(** X19. [get_mirna_subset] selects the documents whose id is an id of the
    split file followed by [-train] or [-test], with their entity lists. *)
Theorem get_mirna_subset_selects {E : Type} (default_factory : option (list E))
    (dataset subset : InternalBioNerDataset E)
    (lines : list string) (k : string)
    (Hsubset : get_mirna_subset default_factory dataset lines = Some subset) :
  (∀ v, documents subset !! k = Some v
        ↔ (∃ id, id ∈ read_ids lines ∧ (k = id +:+ "-train" ∨ k = id +:+ "-test"))
          ∧ documents dataset !! k = Some v)
  ∧ (is_Some (documents subset !! k) ↔ is_Some (entities_per_document subset !! k)).
Proof.
  unfold get_mirna_subset in Hsubset.
  destruct (select_ids_Some _ _ _ _ Hsubset k) as (Hd & _ & Hdom).
  split; [|done]. intros v. rewrite Hd, elem_of_app, !list_elem_of_fmap.
  split.
  - intros [[(id & -> & Hid)|(id & -> & Hid)] Hv]; (split; [|done]); exists id; auto.
  - intros [(id & Hid & [->| ->]) Hv]; (split; [|done]); [left|right]; by exists id.
Qed.

Lemma get_mirna_subset_selects_witness :
  let dataset : InternalBioNerDataset nat :=
    mkDataset {["7-train" := "A"; "7-test" := "B"; "8-dev" := "C"]}
              {["7-train" := [1%nat]; "7-test" := []; "8-dev" := []]} in
  ∃ subset,
    get_mirna_subset None dataset ["7"; "8"] = Some subset
    ∧ documents subset !! "7-test" = Some "B".
Proof.
  intros dataset.
  destruct (get_mirna_subset None dataset ["7"; "8"]) as [subset|] eqn:Hrun;
    [|by vm_compute in Hrun].
  exists subset. split; [done|].
  destruct (get_mirna_subset_selects None dataset subset _ "7-test" Hrun) as (Hd & _).
  apply Hd. split; [|done]. exists "7". split; [|by right].
  vm_compute. by left.
Defined.
